(** * quickerquery: the client-side column validator

    A shallow embedding of [src/validation/columnValidator.ts] (the
    validator that cross-references the column references of a SQL text
    with a schema snapshot) and of the primitives it runs on: JavaScript
    strings, the backtracking regular expressions of ECMAScript with the
    [g] and [i] flags, [Set] and [Map].

    Modelling choices.
    - A JavaScript string is a Rocq [string]: a sequence of code units below
      256 (the Latin-1 part of UTF-16).  Case mapping, [\s], [\w] and [trim]
      are those of ECMAScript restricted to that range.
    - Offsets into strings are [nat]; the result of [indexOf] is a [Z]
      because it is -1 when nothing is found.
    - [Set<string>] and [Set<number>] are [gset], [Map<string,string>] is
      [gmap].
    - A regular expression literal is a term of type [regex], run by a
      backtracking matcher in continuation-passing style that follows the
      order of alternatives of ECMAScript (greedy quantifiers, leftmost
      alternative first).  [exec] on a global regex threads [lastIndex].
    - The vocabulary lists [SQL_KEYWORDS] and [SQL_FUNCTIONS] come from
      [autocomplete/keywords.js]; the module-level sets built from them are
      the record [Vocabulary], over which the validator is stated.

    Around the validator, the development also covers what feeds it and
    what uses its result: the schema loader ([loadSchema] and
    [createEmptySchema] of the [autocomplete] module), and, of [index.js],
    the diagnostics and decorations of the editor of the component [App],
    its history of queries, and the parsing of the connection URL.
    - The [Map] from table names to table objects of the loader is the list
      of its entries in insertion order; the answers of the database to the
      three catalog queries are the record [CatalogClient].
    - The state of [App] that the editor works on is the record [Editor];
      an event handler is a function from the state of the render it was
      created in to the state after its updates.
    - Positions of errors and bounds of decorations are integers ([Z]); a
      position that is not a number is not modelled.

    The module [Js] holds the functions of the validator a second time, on
    a heap with the sets of the module and the [RegExp] objects: there a
    call is a transition of the heap, and the functions above are shown to
    give its result. *)

From Stdlib Require Import Ascii String NArith ZArith List Bool Lia Sorted.
From stdpp Require Import base option list gmap strings.

Local Open Scope nat_scope.

(* ===================================================================== *)
(** * JavaScript strings *)
(* ===================================================================== *)

Definition chars (s : string) : list ascii := list_ascii_of_string s.
Definition str (l : list ascii) : string := string_of_list_ascii l.

Definition code (c : ascii) : N := N_of_ascii c.

Definition between (lo hi : N) (n : N) : bool := (lo <=? n)%N && (n <=? hi)%N.

(** [\w] without the [u] flag: the 63 basic word characters. *)
Definition isWordChar (c : ascii) : bool :=
  let n := code c in
  between 97 122 n || between 65 90 n || between 48 57 n || (n =? 95)%N.

(** [\d]. *)
Definition isDigit (c : ascii) : bool := between 48 57 (code c).

(** [[a-zA-Z_]] and [[a-zA-Z0-9_]] of the identifier regex. *)
Definition isIdentStart (c : ascii) : bool :=
  let n := code c in between 97 122 n || between 65 90 n || (n =? 95)%N.
Definition isIdentPart (c : ascii) : bool :=
  let n := code c in
  between 97 122 n || between 65 90 n || between 48 57 n || (n =? 95)%N.

(** [\s], and what [trim] strips: WhiteSpace and LineTerminator below 256,
    that is TAB, LF, VT, FF, CR, SP and NBSP. *)
Definition isWhiteSpace (c : ascii) : bool :=
  let n := code c in between 9 13 n || (n =? 32)%N || (n =? 160)%N.

Definition isQuote (c : ascii) : bool := (code c =? 39)%N.
Definition isDot (c : ascii) : bool := (code c =? 46)%N.

(** [String.prototype.toLowerCase] on one code unit. *)
Definition lowerChar (c : ascii) : ascii :=
  let n := code c in
  if between 65 90 n || (between 192 222 n && negb (n =? 215)%N)
  then ascii_of_N (n + 32) else c.

(** Simple upper-casing of one code unit, where the result is again one
    code unit below 256. *)
Definition upperChar (c : ascii) : ascii :=
  let n := code c in
  if between 97 122 n || (between 224 254 n && negb (n =? 247)%N)
  then ascii_of_N (n - 32) else c.

Definition toLowerCase (s : string) : string := str (map lowerChar (chars s)).

(** [String.prototype.toUpperCase].  The sharp s (223) becomes two letters.
    The upper-case forms of the micro sign (181) and of y with diaeresis
    (255) are code units above 255; they are left in place, which keeps them
    different from every other character, as in JavaScript. *)
Definition toUpperCase (s : string) : string :=
  str (flat_map (fun c => if (code c =? 223)%N
                          then chars "SS" else [upperChar c]) (chars s)).

(** [Canonicalize] of the regular expression semantics under the [i] flag
    (no [u] flag): the upper-case form when it is a single code unit. *)
Definition canonicalize (ignoreCase : bool) (c : ascii) : ascii :=
  if ignoreCase then upperChar c else c.

Fixpoint trimStartChars (l : list ascii) : list ascii :=
  match l with
  | c :: l' => if isWhiteSpace c then trimStartChars l' else l
  | [] => []
  end.

(** [String.prototype.trim]. *)
Definition trim (s : string) : string :=
  str (rev (trimStartChars (rev (trimStartChars (chars s))))).

(** [String.prototype.slice] with [0 <= a]. *)
Definition sliceChars (l : list ascii) (a b : nat) : list ascii :=
  take (b - a) (drop a l).
Definition slice (s : string) (a b : nat) : string := str (sliceChars (chars s) a b).

Fixpoint isPrefixOf (p l : list ascii) : bool :=
  match p, l with
  | [], _ => true
  | c :: p', d :: l' => Ascii.eqb c d && isPrefixOf p' l'
  | _ :: _, [] => false
  end.

(** The offsets at which [needle] occurs in [hay], from offset [i] on. *)
Fixpoint occurrencesFrom (needle hay : list ascii) (i : nat) : list nat :=
  (if isPrefixOf needle hay then [i] else []) ++
  match hay with
  | [] => []
  | _ :: hay' => occurrencesFrom needle hay' (S i)
  end.

(** [String.prototype.indexOf] and [lastIndexOf]: -1 when there is no
    occurrence. *)
Definition indexOf (hay needle : string) : Z :=
  match occurrencesFrom (chars needle) (chars hay) 0 with
  | i :: _ => Z.of_nat i
  | [] => (-1)%Z
  end.

Definition lastIndexOf (hay needle : string) : Z :=
  match last (occurrencesFrom (chars needle) (chars hay) 0) with
  | Some i => Z.of_nat i
  | None => (-1)%Z
  end.

(** [Array.prototype.join]. *)
Fixpoint join (sep : string) (l : list string) : string :=
  match l with
  | [] => EmptyString
  | [x] => x
  | x :: l' => x ++ sep ++ join sep l'
  end.

(** Truthiness of a [string | null | undefined] value. *)
Definition truthy (o : option string) : bool :=
  match o with
  | Some s => negb (String.eqb s EmptyString)
  | None => false
  end.

(* ===================================================================== *)
(** * Regular expressions *)
(* ===================================================================== *)

Inductive regex : Type :=
| Eps                                  (* the empty pattern *)
| Chr (c : ascii)                      (* a pattern character *)
| Cls (p : ascii -> bool)              (* a character class: \w \s \d [...] *)
| Seq (r1 r2 : regex)                  (* r1 r2 *)
| Alt (r1 r2 : regex)                  (* r1 | r2 *)
| Opt (r : regex)                      (* r? *)
| Star (r : regex)                     (* r* *)
| Group (n : nat) (r : regex)          (* the n-th capturing group *)
| WordB                                (* \b *)
| Bol                                  (* ^ without the m flag *)
| Eoi.                                 (* $ without the m flag *)

(** [r+] *)
Definition Plus (r : regex) : regex := Seq r (Star r).

(** A sequence of pattern characters, and the concatenation of a list. *)
Fixpoint lit (l : list ascii) : regex :=
  match l with
  | [] => Eps
  | [c] => Chr c
  | c :: l' => Seq (Chr c) (lit l')
  end.

Fixpoint cat (l : list regex) : regex :=
  match l with
  | [] => Eps
  | [r] => r
  | r :: l' => Seq r (cat l')
  end.

Fixpoint alts (l : list regex) : regex :=
  match l with
  | [] => Eps
  | [r] => r
  | r :: l' => Alt r (alts l')
  end.

(** The capturing groups inside a pattern: a quantifier clears them before
    each iteration of its body. *)
Fixpoint groupsOf (r : regex) : list nat :=
  match r with
  | Seq r1 r2 | Alt r1 r2 => groupsOf r1 ++ groupsOf r2
  | Opt r | Star r => groupsOf r
  | Group n r => n :: groupsOf r
  | _ => []
  end.

Definition clearGroups (r : regex) (caps : gmap nat (nat * nat)) : gmap nat (nat * nat) :=
  foldr delete caps (groupsOf r).

(** The least length of a match, a lower bound. *)
Fixpoint minLen (r : regex) : nat :=
  match r with
  | Chr _ | Cls _ => 1
  | Seq r1 r2 => minLen r1 + minLen r2
  | Alt r1 r2 => min (minLen r1) (minLen r2)
  | Group _ r => minLen r
  | _ => 0
  end.

(** Whether every match of the pattern sets capturing group [n]. *)
Fixpoint captured (r : regex) (n : nat) : bool :=
  match r with
  | Seq r1 r2 => (captured r1 n && negb (bool_decide (n ∈ groupsOf r2))) || captured r2 n
  | Alt r1 r2 => captured r1 n && captured r2 n
  | Group m r1 => (m =? n) || captured r1 n
  | _ => false
  end.

Section Matcher.
Variable ignoreCase : bool.
Variable input : list ascii.

Definition wordAt (i : nat) : bool :=
  match input !! i with
  | Some c => isWordChar c
  | None => false
  end.

(** [\b] holds at [i] when exactly one of the characters at [i-1] and [i]
    is a word character. *)
Definition atWordBoundary (i : nat) : bool :=
  xorb (match i with 0 => false | S j => wordAt j end) (wordAt i).

Definition State : Type := nat * gmap nat (nat * nat).
Definition Continuation : Type := nat -> gmap nat (nat * nat) -> option State.

(** The iterations of [r*], where [body] matches one iteration of [r]:
    an iteration that matches the empty string fails, and the quantifier
    is greedy.  At most [fuel] iterations are tried; each one consumes a
    character. *)
Fixpoint starLoop (body : nat -> gmap nat (nat * nat) -> Continuation -> option State)
         (k : Continuation) (fuel : nat) (i : nat) (caps : gmap nat (nat * nat))
  : option State :=
  match fuel with
  | 0 => k i caps
  | S fuel' =>
      match body i caps (fun j c => if i <? j then starLoop body k fuel' j c else None) with
      | Some res => Some res
      | None => k i caps
      end
  end.

(** The matcher of pattern [r] at offset [i] with captures [caps] and
    continuation [k]: the first success in backtracking order. *)
Fixpoint matcher (r : regex) (i : nat) (caps : gmap nat (nat * nat))
         (k : Continuation) {struct r} : option State :=
  match r with
  | Eps => k i caps
  | Chr c =>
      match input !! i with
      | Some d => if Ascii.eqb (canonicalize ignoreCase c) (canonicalize ignoreCase d)
                  then k (S i) caps else None
      | None => None
      end
  | Cls p =>
      match input !! i with
      | Some d => if p d then k (S i) caps else None
      | None => None
      end
  | Seq r1 r2 => matcher r1 i caps (fun j c => matcher r2 j c k)
  | Alt r1 r2 =>
      match matcher r1 i caps k with
      | Some res => Some res
      | None => matcher r2 i caps k
      end
  | Opt r1 =>
      match matcher r1 i (clearGroups r1 caps)
                    (fun j c => if i <? j then k j c else None) with
      | Some res => Some res
      | None => k i caps
      end
  | Star r1 =>
      starLoop (fun i c k => matcher r1 i (clearGroups r1 c) k) k
               (length input - i) i caps
  | Group n r1 => matcher r1 i caps (fun j c => k j (<[n := (i, j)]> c))
  | WordB => if atWordBoundary i then k i caps else None
  | Bol => if i =? 0 then k i caps else None
  | Eoi => if i =? length input then k i caps else None
  end.

Definition accept : Continuation := fun j c => Some (j, c).
End Matcher.

(** The result of a successful [exec]: [index] is [match.index], [stop] the
    end of the match (the next [lastIndex] of a global regex). *)
Record Match : Type := mkMatch {
  subject : list ascii;
  index : nat;
  stop : nat;
  captures : gmap nat (nat * nat);
}.

(** [match[0]] and [match[n]]. *)
Definition matched (m : Match) : string := str (sliceChars (subject m) (index m) (stop m)).
Definition group (m : Match) (n : nat) : option string :=
  match captures m !! n with
  | Some (a, b) => Some (str (sliceChars (subject m) a b))
  | None => None
  end.

(** [match[n]] where the group takes part in every match. *)
Definition group' (m : Match) (n : nat) : string := default EmptyString (group m n).

Section Exec.
Variable ignoreCase : bool.
Variable r : regex.
Variable input : list ascii.

(** The leftmost offset from [i] on at which the pattern matches;
    [fuel] is the number of offsets after [i] still to try. *)
Fixpoint search (fuel : nat) (i : nat) : option Match :=
  match matcher ignoreCase input r i ∅ accept with
  | Some (j, caps) => Some (mkMatch input i j caps)
  | None =>
      match fuel with
      | 0 => None
      | S fuel' => search fuel' (S i)
      end
  end.

(** [regex.exec(input)] with the given [lastIndex]. *)
Definition exec (lastIndex : nat) : option Match :=
  if lastIndex <=? length input
  then search (length input - lastIndex) lastIndex
  else None.

(** [while ((match = regex.exec(input)) !== null) ...] on a global regex:
    the matches in order.  [None] when the fuel runs out. *)
Fixpoint execLoop (fuel : nat) (lastIndex : nat) : option (list Match) :=
  match fuel with
  | 0 => None
  | S fuel' =>
      match exec lastIndex with
      | None => Some []
      | Some m => cons m <$> execLoop fuel' (stop m)
      end
  end.
End Exec.

Definition execAll (ignoreCase : bool) (r : regex) (s : string) : list Match :=
  default [] (execLoop ignoreCase r (chars s) (S (String.length s)) 0).

(** [regex.test(s)] and [s.match(regex)] for a regex without the [g] flag. *)
Definition test (ignoreCase : bool) (r : regex) (s : string) : bool :=
  bool_decide (is_Some (exec ignoreCase r (chars s) 0)).
Definition matchOnce (ignoreCase : bool) (r : regex) (s : string) : option Match :=
  exec ignoreCase r (chars s) 0.

(** ** What a match is

    The declarative reading of a pattern, next to the backtracking matcher:
    [Matches r i c j c'] says that [r] matches the characters from offset [i]
    to offset [j], taking the captures from [c] to [c']. *)

Section Denotation.
Variable ignoreCase : bool.
Variable input : list ascii.

Inductive iter (P : nat -> gmap nat (nat * nat) -> nat -> gmap nat (nat * nat) -> Prop)
  : nat -> gmap nat (nat * nat) -> nat -> gmap nat (nat * nat) -> Prop :=
| iter_done i c : iter P i c i c
| iter_step i c j c' k c'' :
    P i c j c' -> i < j -> iter P j c' k c'' -> iter P i c k c''.

Fixpoint Matches (r : regex) (i : nat) (c : gmap nat (nat * nat))
         (j : nat) (c' : gmap nat (nat * nat)) {struct r} : Prop :=
  match r with
  | Eps => j = i /\ c' = c
  | Chr ch =>
      exists d, input !! i = Some d /\
                canonicalize ignoreCase ch = canonicalize ignoreCase d /\
                j = S i /\ c' = c
  | Cls p => exists d, input !! i = Some d /\ p d = true /\ j = S i /\ c' = c
  | Seq r1 r2 => exists m cm, Matches r1 i c m cm /\ Matches r2 m cm j c'
  | Alt r1 r2 => Matches r1 i c j c' \/ Matches r2 i c j c'
  | Opt r1 => (Matches r1 i (clearGroups r1 c) j c' /\ i < j) \/ (j = i /\ c' = c)
  | Star r1 => iter (fun i c j c' => Matches r1 i (clearGroups r1 c) j c') i c j c'
  | Group n r1 => exists c1, Matches r1 i c j c1 /\ c' = <[n := (i, j)]> c1
  | WordB => atWordBoundary input i = true /\ j = i /\ c' = c
  | Bol => i = 0 /\ j = i /\ c' = c
  | Eoi => i = length input /\ j = i /\ c' = c
  end.
End Denotation.

(** A match produced by [exec] on the string [s]. *)
Definition MatchOf (ignoreCase : bool) (r : regex) (s : string) (m : Match) : Prop :=
  subject m = chars s /\
  Matches ignoreCase (chars s) r (index m) ∅ (stop m) (captures m).

Definition ws : regex := Cls isWhiteSpace.
Definition w : regex := Cls isWordChar.
Definition word (s : string) : regex := lit (chars s).

(** The common tail [\s+(\w+)(?:\s+(?:AS\s+)?(\w+))?] of the two table
    patterns. *)
Definition tableTail : regex :=
  cat [Plus ws; Group 1 (Plus w);
       Opt (cat [Plus ws; Opt (cat [word "AS"; Plus ws]); Group 2 (Plus w)])].

(** [/\bFROM\s+(\w+)(?:\s+(?:AS\s+)?(\w+))?/gi] *)
Definition fromRegex : regex := cat [WordB; word "FROM"; tableTail].

(** [/\b(?:LEFT|RIGHT|INNER|OUTER|FULL|CROSS)?\s*JOIN\s+(\w+)(?:\s+(?:AS\s+)?(\w+))?/gi] *)
Definition joinRegex : regex :=
  cat [WordB;
       Opt (alts [word "LEFT"; word "RIGHT"; word "INNER"; word "OUTER";
                  word "FULL"; word "CROSS"]);
       Star ws; word "JOIN"; tableTail].

(** [/\b(?:FROM|JOIN)\s+(\w+)/gi] *)
Definition fromJoinRegex : regex :=
  cat [WordB; Alt (word "FROM") (word "JOIN"); Plus ws; Group 1 (Plus w)].

(** [/\b(?:FROM|JOIN)\s+\w+\s+(?:AS\s+)?(\w+)/gi] *)
Definition aliasRegex : regex :=
  cat [WordB; Alt (word "FROM") (word "JOIN"); Plus ws; Plus w; Plus ws;
       Opt (cat [word "AS"; Plus ws]); Group 1 (Plus w)].

(** [/\bAS\s+(\w+)/gi] *)
Definition columnAliasRegex : regex :=
  cat [WordB; word "AS"; Plus ws; Group 1 (Plus w)].

(** The identifier pattern, with the [g] flag: [\b], then as group 1 a
    character of [[a-zA-Z_]] followed by any number of [[a-zA-Z0-9_]], then
    [\b]. *)
Definition identifierRegex : regex :=
  cat [WordB; Group 1 (Seq (Cls isIdentStart) (Star (Cls isIdentPart))); WordB].

(** [/^\d+$/] *)
Definition numeralRegex : regex := cat [Bol; Plus (Cls isDigit); Eoi].

(** [/(\w+)\s*$/] *)
Definition qualifierRegex : regex := cat [Group 1 (Plus w); Star ws; Eoi].

(* ===================================================================== *)
(** * The data model *)
(* ===================================================================== *)

(** The schema snapshot, with the fields that [loadSchema] and
    [createEmptySchema] fill in. *)
Record ColumnInfo : Type := {
  col_name : string;
  dataType : string;
  isNullable : bool;
}.

Record ForeignKey : Type := {
  fk_column : string;
  referencedTable : string;
  referencedColumn : string;
}.

Record TableInfo : Type := {
  tbl_name : string;
  tbl_schema : string;
  columns : list ColumnInfo;
  foreignKeys : list ForeignKey;
}.

Record DatabaseSchema : Type := {
  tables : list TableInfo;
  keywords : list string;
  functions : list string;
}.

Inductive Severity : Type := error | warning.

Record ValidationError : Type := {
  message : string;
  position : nat;
  endPosition : nat;
  severity : Severity;
  hint : option string;
}.

Record TableAlias : Type := {
  tableName : string;
  alias : option string;
}.

Record ColumnReference : Type := {
  ref_name : string;
  ref_table : option string;   (* None for unqualified columns *)
  ref_position : nat;
  ref_endPosition : nat;
}.

(** [createEmptySchema] of the schema loader. *)
Definition createEmptySchema (SQL_KEYWORDS SQL_FUNCTIONS : list string) : DatabaseSchema :=
  {| tables := []; keywords := SQL_KEYWORDS; functions := SQL_FUNCTIONS |}.

(* ===================================================================== *)
(** * The validator *)
(* ===================================================================== *)

Definition charIs (p : ascii -> bool) (l : list ascii) (i : nat) : bool :=
  match l !! i with
  | Some c => p c
  | None => false
  end.

(** The loop of [isInStringLiteral]; [i] and [inString] are its variables.
    An iteration on a doubled quote advances [i] twice. *)
Fixpoint isInStringLiteralLoop (query : list ascii) (position : nat)
         (fuel i : nat) (inString : bool) : bool :=
  match fuel with
  | 0 => inString
  | S fuel' =>
      if (i <? position) && (i <? length query) then
        if charIs isQuote query i then
          if (i + 1 <? length query) && charIs isQuote query (i + 1)
          then isInStringLiteralLoop query position fuel' (i + 2) inString
          else isInStringLiteralLoop query position fuel' (i + 1) (negb inString)
        else isInStringLiteralLoop query position fuel' (i + 1) inString
      else inString
  end.

(** Check if a position is inside a string literal. *)
Definition isInStringLiteral (query : string) (position : nat) : bool :=
  isInStringLiteralLoop (chars query) position position 0 false.

(** The same scan by recursion on the characters: the flag after the first
    [n] characters of [l], where each unescaped quote toggles the flag and a
    doubled quote is an escaped quote that leaves it. *)
Fixpoint literalState (l : list ascii) (n : nat) (inString : bool) {struct l} : bool :=
  match n, l with
  | 0, _ => inString
  | _, [] => inString
  | S n', c :: l' =>
      if isQuote c then
        match l' with
        | d :: l'' =>
            if isQuote d then literalState l'' (n' - 1) inString
            else literalState l' n' (negb inString)
        | [] => negb inString
        end
      else literalState l' n' inString
  end.

(** Build a map from alias/table name to actual table name. *)
Definition buildAliasMap (tables : list TableAlias) : gmap string string :=
  fold_left (fun map t =>
               let map := <[tableName t := tableName t]> map in
               if truthy (alias t)
               then <[default EmptyString (alias t) := tableName t]> map
               else map)
            tables ∅.

Definition findTable (tableName : string) (schema : DatabaseSchema) : option TableInfo :=
  find (fun t => String.eqb (toLowerCase (tbl_name t)) (toLowerCase tableName))
       (tables schema).

(** Get all valid column names for a table from the schema. *)
Definition getTableColumns (tableName : string) (schema : DatabaseSchema) : gset string :=
  match findTable tableName schema with
  | Some table =>
      fold_left (fun columns col => columns ∪ {[toLowerCase (col_name col)]})
                (columns table) ∅
  | None => ∅
  end.

(** Get all valid columns across all tables in scope. *)
Definition getAllColumnsInScope (tables : list TableAlias) (schema : DatabaseSchema)
  : gset string :=
  fold_left (fun allColumns t => allColumns ∪ getTableColumns (tableName t) schema)
            tables ∅.

(** Check if a table exists in the schema. *)
Definition tableExistsInSchema (tableName : string) (schema : DatabaseSchema) : bool :=
  existsb (fun t => String.eqb (toLowerCase (tbl_name t)) (toLowerCase tableName))
          (tables schema).

Definition dq : string := String "034"%char EmptyString.

Definition has `{Countable A} (s : gset A) (x : A) : bool := bool_decide (x ∈ s).

(** The module-level constants [KEYWORDS_SET] and [FUNCTIONS_SET]: the only
    objects of the module that outlive a call of its functions. *)
Record Vocabulary : Type := {
  KEYWORDS_SET : gset string;
  FUNCTIONS_SET : gset string;
}.

(** The initialisation of the module from the two vocabulary lists of
    [autocomplete/keywords.js]. *)
Definition loadVocabulary (SQL_KEYWORDS SQL_FUNCTIONS : list string) : Vocabulary :=
  {| KEYWORDS_SET := list_to_set (map toUpperCase SQL_KEYWORDS);
     FUNCTIONS_SET := list_to_set (map toUpperCase SQL_FUNCTIONS) |}.

Section Validator.
Variable V : Vocabulary.

(** The body of the two loops of [extractTablesWithAliases]. *)
Definition tableOfMatch (m : Match) : TableAlias :=
  let tableName := toLowerCase (group' m 1) in
  let alias := if truthy (group m 2) then toLowerCase <$> group m 2 else None in
  if truthy alias && negb (has (KEYWORDS_SET V) (toUpperCase (default EmptyString alias)))
  then {| tableName := tableName; alias := alias |}
  else {| tableName := tableName; alias := None |}.

(** Extract tables and their aliases from the query. *)
Definition extractTablesWithAliases (query : string) : list TableAlias :=
  map tableOfMatch (execAll true fromRegex query) ++
  map tableOfMatch (execAll true joinRegex query).

(** The offsets of table names, alias definitions and column aliases. *)
Definition skipPositions (query : string) : gset Z :=
  let tablePositions :=
    map (fun m => (Z.of_nat (index m) + indexOf (matched m) (group' m 1))%Z)
        (execAll true fromJoinRegex query) in
  let aliasPositions :=
    map (fun m => (Z.of_nat (index m) + lastIndexOf (matched m) (group' m 1))%Z)
        (filter (fun m => truthy (group m 1) &&
                          negb (has (KEYWORDS_SET V) (toUpperCase (group' m 1))))
                (execAll true aliasRegex query)) in
  let columnAliasPositions :=
    map (fun m => (Z.of_nat (index m) + indexOf (matched m) (group' m 1))%Z)
        (execAll true columnAliasRegex query) in
  list_to_set (tablePositions ++ aliasPositions ++ columnAliasPositions).

Definition tableAndAliasNames (tables : list TableAlias) : gset string :=
  let tableNames : gset string := list_to_set (map tableName tables) in
  let aliasNames : gset string :=
    list_to_set (map (fun t => default EmptyString (alias t))
                     (filter (fun t => truthy (alias t)) tables)) in
  tableNames ∪ aliasNames.

(** The body of the identifier loop of [extractColumnReferences]: the
    reference pushed for the match [m], or [None] where the loop
    continues without pushing. *)
Definition referenceOfMatch (query : string) (tables : list TableAlias) (m : Match)
  : option ColumnReference :=
  let word := group' m 1 in
  let position := index m in
  let upperWord := toUpperCase word in
  if isInStringLiteral query position then None
  else if has (skipPositions query) (Z.of_nat position) then None
  else if has (KEYWORDS_SET V) upperWord then None
  else if has (FUNCTIONS_SET V) upperWord then None
  else if test false numeralRegex word then None
  else if match position with
          | S beforePos => charIs isDot (chars query) beforePos
          | 0 => false
          end
  then
    let beforeDot := slice query 0 (position - 1) in
    match matchOnce false qualifierRegex beforeDot with
    | Some tableMatch =>
        Some {| ref_name := toLowerCase word;
                ref_table := Some (toLowerCase (group' tableMatch 1));
                ref_position := position;
                ref_endPosition := position + String.length word |}
    | None => None
    end
  else
    let afterPos := position + String.length word in
    if (afterPos <? String.length query) && charIs isDot (chars query) afterPos then None
    else if has (tableAndAliasNames tables) (toLowerCase word) then None
    else Some {| ref_name := toLowerCase word;
                 ref_table := None;
                 ref_position := position;
                 ref_endPosition := position + String.length word |}.

(** Extract all column references from the query. *)
Definition extractColumnReferences (query : string) (tables : list TableAlias)
  : list ColumnReference :=
  omap (referenceOfMatch query tables) (execAll false identifierRegex query).

Definition unknownColumn (ref : ColumnReference) (hint : string) : ValidationError :=
  {| message := "Unknown column " ++ dq ++ ref_name ref ++ dq;
     position := ref_position ref;
     endPosition := ref_endPosition ref;
     severity := error;
     hint := Some hint |}.

(** The body of the loop of [validateColumns] over the references: the
    diagnostic pushed for [ref], or [None] where nothing is pushed. *)
Definition validateReference (tables : list TableAlias) (schema : DatabaseSchema)
           (ref : ColumnReference) : option ValidationError :=
  let aliasMap := buildAliasMap tables in
  let allColumnsInScope := getAllColumnsInScope tables schema in
  if truthy (ref_table ref) then
    let qualifier := default EmptyString (ref_table ref) in
    let actualTableName := aliasMap !! qualifier in
    if negb (truthy actualTableName) then None
    else
      let actualTableName := default EmptyString actualTableName in
      if negb (tableExistsInSchema actualTableName schema) then None
      else
        let tableColumns := getTableColumns actualTableName schema in
        if negb (has tableColumns (ref_name ref)) then
          let displayTable := qualifier in
          Some (unknownColumn ref
                  (dq ++ ref_name ref ++ dq ++ " not found in table " ++
                   dq ++ displayTable ++ dq))
        else None
  else
    if negb (has allColumnsInScope (ref_name ref)) then
      let knownTables :=
        filter (fun t => tableExistsInSchema (tableName t) schema) tables in
      if length knownTables =? 0 then None
      else
        let tableList :=
          join ", " (map (fun t => if truthy (alias t)
                                   then default EmptyString (alias t)
                                   else tableName t) knownTables) in
        Some (unknownColumn ref
                (dq ++ ref_name ref ++ dq ++ " not found in " ++
                 (if length knownTables =? 1 then "table" else "tables") ++
                 ": " ++ tableList))
    else None.

Definition validateReferences (tables : list TableAlias) (schema : DatabaseSchema)
           (refs : list ColumnReference) : list ValidationError :=
  omap (validateReference tables schema) refs.

(** Validate column references against the schema. *)
Definition validateColumns (query : string) (schema : DatabaseSchema)
  : list ValidationError :=
  if negb (truthy (Some (trim query))) then []
  else
    let tables := extractTablesWithAliases query in
    if length tables =? 0 then []
    else validateReferences tables schema (extractColumnReferences query tables).
End Validator.

(** How the hint shows a table: by its alias if present, else by its name. *)
Definition displayName (t : TableAlias) : string := default (tableName t) (alias t).

(** The keyword [kw], in any letter case, followed by white space and by the
    first character of a name; [bounded] asks that no word character stands
    before the keyword. *)
Definition sameLetters (kw l : list ascii) : Prop :=
  Forall2 (fun a b => upperChar a = upperChar b) kw l.

Definition hasClause (bounded : bool) (kw : string) (query : string) : Prop :=
  exists pre k sp c rest,
    chars query = pre ++ k ++ sp ++ c :: rest /\
    (bounded = true -> forall p, last pre = Some p -> isWordChar p = false) /\
    sameLetters (chars kw) k /\
    sp <> [] /\ Forall (fun x => isWhiteSpace x = true) sp /\
    isWordChar c = true.

(** The clauses of the text, offset by offset.  At offset [i] of the query
    stands the keyword [kw] of a table clause when the letters of [kw] stand
    there, in any letter case, followed by white space and then by a
    character of a name. *)
Fixpoint lettersAtHead (kw l : list ascii) : bool :=
  match kw with
  | [] => true
  | a :: kw' =>
      match l with
      | b :: l' => Ascii.eqb (upperChar a) (upperChar b) && lettersAtHead kw' l'
      | [] => false
      end
  end.

Definition keywordAt (kw : string) (query : string) (i : nat) : bool :=
  let rest := drop i (chars query) in
  lettersAtHead (chars kw) rest &&
  let after := drop (String.length kw) rest in
  match after, trimStartChars after with
  | sp :: _, c :: _ => isWhiteSpace sp && isWordChar c
  | _, _ => false
  end.

(** A FROM clause: the keyword FROM as a word.  A JOIN clause: the keyword
    JOIN as a word, or right after one of the six words that may stand
    before it. *)
Definition joinPrefixes : list string :=
  ["LEFT"; "RIGHT"; "INNER"; "OUTER"; "FULL"; "CROSS"]%string.

Definition fromClauseAt (query : string) (i : nat) : bool :=
  atWordBoundary (chars query) i && keywordAt "FROM" query i.

Definition joinClauseAt (query : string) (i : nat) : bool :=
  keywordAt "JOIN" query i &&
  (atWordBoundary (chars query) i ||
   existsb (fun kw => (String.length kw <=? i) &&
                      lettersAtHead (chars kw) (drop (i - String.length kw) (chars query)) &&
                      atWordBoundary (chars query) (i - String.length kw))
           joinPrefixes).

Definition tableClauseAt (query : string) (i : nat) : bool :=
  fromClauseAt query i || joinClauseAt query i.

(** The text has a table clause, string literals included; and the text has
    one outside its string literals. *)
Definition hasTableClause (query : string) : bool :=
  existsb (tableClauseAt query) (seq 0 (String.length query)).

Definition hasTableClauseOutsideLiterals (query : string) : bool :=
  existsb (fun i => tableClauseAt query i && negb (isInStringLiteral query i))
          (seq 0 (String.length query)).

(** The column names, in lower case, of the schema table that [name]
    resolves to, and those of all the tables of the query. *)
Definition columnNamesOf (name : string) (schema : DatabaseSchema) : list string :=
  match findTable name schema with
  | Some T => map (fun c => toLowerCase (col_name c)) (columns T)
  | None => []
  end.

Definition columnsInScope (tables : list TableAlias) (schema : DatabaseSchema)
  : list string :=
  flat_map (fun t => columnNamesOf (tableName t) schema) tables.

(** The column names of all the schema tables that have the name [name] up
    to letter case: those of [columnNamesOf] when the names of the schema
    are distinct up to letter case. *)
Definition sameName (name : string) (T : TableInfo) : bool :=
  String.eqb (toLowerCase (tbl_name T)) (toLowerCase name).

Definition columnNamesOfAll (name : string) (schema : DatabaseSchema) : list string :=
  flat_map (fun T => if sameName name T
                     then map (fun c => toLowerCase (col_name c)) (columns T)
                     else []) (tables schema).

(** The writes of [buildAliasMap], in order. *)
Definition aliasWrites (tables : list TableAlias) : list (string * string) :=
  flat_map (fun t => (tableName t, tableName t) ::
                     match alias t with
                     | Some a => if String.eqb a EmptyString then [] else [(a, tableName t)]
                     | None => []
                     end) tables.

(** One write of the alias map. *)
Definition write (map : gmap string string) (p : string * string) : gmap string string :=
  <[p.1 := p.2]> map.

(* ===================================================================== *)
(** * The validator on the heap *)
(* ===================================================================== *)

(** The functions of the validator once more, this time with the objects
    that outlive a statement: the two sets of the module, which every call
    reads, and the [RegExp] objects, whose [lastIndex] an [exec] with the
    [g] flag reads and writes.  A regular expression literal makes a new
    object each time it is evaluated.  The arrays, sets and maps that a
    function makes and fills itself are the variables of its loops. *)
Module Js.

Record RegExp : Type := {
  source : regex;
  ignoreCase : bool;
  global : bool;
  lastIndex : nat;
}.

(** The heap: the module-level sets, and the [RegExp] objects in the order
    of their creation; the address of an object is its rank. *)
Record Heap : Type := {
  vocabulary : Vocabulary;
  regExps : list RegExp;
}.

(** A computation on the heap; [None] when a loop runs out of fuel or an
    address names no object. *)
Definition Run (A : Type) : Type := Heap -> option (A * Heap).

Definition ret {A : Type} (a : A) : Run A := fun h => Some (a, h).

Definition bind {A B : Type} (m : Run A) (f : A -> Run B) : Run B :=
  fun h => match m h with
           | Some (a, h') => f a h'
           | None => None
           end.

Notation "'do' x <- m ; f" := (bind m (fun x => f))
  (at level 10, x name, m at level 100, f at level 200).

(** The evaluation of a regular expression literal. *)
Definition newRegExp (source : regex) (ignoreCase global : bool) : Run nat :=
  fun h => Some (length (regExps h),
                 {| vocabulary := vocabulary h;
                    regExps := regExps h ++
                               [ {| source := source; ignoreCase := ignoreCase;
                                    global := global; lastIndex := 0 |} ] |}).

Definition withLastIndex (R : RegExp) (n : nat) : RegExp :=
  {| source := source R; ignoreCase := ignoreCase R; global := global R;
     lastIndex := n |}.

(** [re.lastIndex = n] *)
Definition setLastIndex (re : nat) (n : nat) : Run unit :=
  fun h => match regExps h !! re with
           | Some R => Some (tt, {| vocabulary := vocabulary h;
                                    regExps := <[re := withLastIndex R n]> (regExps h) |})
           | None => None
           end.

(** [re.exec(s)], which [re.test(s)] and [s.match(re)] (without the [g]
    flag) run too: with the [g] flag the search starts at [lastIndex], which
    then becomes the end of the match, or 0 when there is none; without it
    the search starts at 0 and [lastIndex] stays. *)
Definition regExpExec (re : nat) (s : string) : Run (option Match) :=
  fun h => match regExps h !! re with
           | Some R =>
               let start := if global R then lastIndex R else 0 in
               let result := exec (ignoreCase R) (source R) (chars s) start in
               let next := match result with Some m => stop m | None => 0 end in
               Some (result,
                     if global R
                     then {| vocabulary := vocabulary h;
                             regExps := <[re := withLastIndex R next]> (regExps h) |}
                     else h)
           | None => None
           end.

(** [KEYWORDS_SET.has(x)] and [FUNCTIONS_SET.has(x)] *)
Definition keywordsHas (x : string) : Run bool :=
  fun h => Some (has (KEYWORDS_SET (vocabulary h)) x, h).

Definition functionsHas (x : string) : Run bool :=
  fun h => Some (has (FUNCTIONS_SET (vocabulary h)) x, h).

(** [while ((match = re.exec(s)) !== null) body]; [a] holds the variables
    that the body assigns. *)
Fixpoint whileExec {A : Type} (fuel : nat) (re : nat) (s : string)
         (body : Match -> A -> Run A) (a : A) : Run A :=
  match fuel with
  | 0 => fun _ => None
  | S fuel' =>
      do result <- regExpExec re s;
      match result with
      | Some m => do a' <- body m a; whileExec fuel' re s body a'
      | None => ret a
      end
  end.

(** The body of the two loops of [extractTablesWithAliases]. *)
Definition pushTable (m : Match) (tables : list TableAlias) : Run (list TableAlias) :=
  let tableName := toLowerCase (group' m 1) in
  let alias := if truthy (group m 2) then toLowerCase <$> group m 2 else None in
  if truthy alias then
    do isKeyword <- keywordsHas (toUpperCase (default EmptyString alias));
    if negb isKeyword
    then ret (tables ++ [ {| tableName := tableName; alias := alias |} ])
    else ret (tables ++ [ {| tableName := tableName; alias := None |} ])
  else ret (tables ++ [ {| tableName := tableName; alias := None |} ]).

Definition extractTablesWithAliases (query : string) : Run (list TableAlias) :=
  let tables : list TableAlias := [] in
  do tables <- (do fromRegexObject <- newRegExp fromRegex true true;
                whileExec (S (String.length query)) fromRegexObject query pushTable tables);
  do tables <- (do joinRegexObject <- newRegExp joinRegex true true;
                whileExec (S (String.length query)) joinRegexObject query pushTable tables);
  ret tables.

(** The three loops of [extractColumnReferences] that fill
    [skipPositions]. *)
Definition markSkipPositions (query : string) : Run (gset Z) :=
  let skipPositions : gset Z := ∅ in
  do skipPositions <-
     (do fromJoinRegexObject <- newRegExp fromJoinRegex true true;
      whileExec (S (String.length query)) fromJoinRegexObject query
                (fun m skipPositions =>
                   let tableStart :=
                     (Z.of_nat (index m) + indexOf (matched m) (group' m 1))%Z in
                   ret (skipPositions ∪ {[tableStart]}))
                skipPositions);
  do skipPositions <-
     (do aliasRegexObject <- newRegExp aliasRegex true true;
      whileExec (S (String.length query)) aliasRegexObject query
                (fun m skipPositions =>
                   if truthy (group m 1) then
                     do isKeyword <- keywordsHas (toUpperCase (group' m 1));
                     if negb isKeyword then
                       let aliasStart :=
                         (Z.of_nat (index m) + lastIndexOf (matched m) (group' m 1))%Z in
                       ret (skipPositions ∪ {[aliasStart]})
                     else ret skipPositions
                   else ret skipPositions)
                skipPositions);
  do skipPositions <-
     (do columnAliasRegexObject <- newRegExp columnAliasRegex true true;
      whileExec (S (String.length query)) columnAliasRegexObject query
                (fun m skipPositions =>
                   let aliasStart :=
                     (Z.of_nat (index m) + indexOf (matched m) (group' m 1))%Z in
                   ret (skipPositions ∪ {[aliasStart]}))
                skipPositions);
  ret skipPositions.

(** The body of the identifier loop of [extractColumnReferences]. *)
Definition pushReference (query : string) (tables : list TableAlias)
           (skipPositions : gset Z) (m : Match) (refs : list ColumnReference)
  : Run (list ColumnReference) :=
  let word := group' m 1 in
  let position := index m in
  let upperWord := toUpperCase word in
  if isInStringLiteral query position then ret refs
  else if has skipPositions (Z.of_nat position) then ret refs
  else
    do isKeyword <- keywordsHas upperWord;
    if isKeyword then ret refs
    else
      do isFunction <- functionsHas upperWord;
      if isFunction then ret refs
      else
        do numeral <- (do numeralRegexObject <- newRegExp numeralRegex false false;
                       regExpExec numeralRegexObject word);
        if bool_decide (is_Some numeral) then ret refs
        else if match position with
                | S beforePos => charIs isDot (chars query) beforePos
                | 0 => false
                end
        then
          let beforeDot := slice query 0 (position - 1) in
          do tableMatch <- (do qualifierRegexObject <- newRegExp qualifierRegex false false;
                            regExpExec qualifierRegexObject beforeDot);
          match tableMatch with
          | Some tableMatch =>
              ret (refs ++ [ {| ref_name := toLowerCase word;
                                ref_table := Some (toLowerCase (group' tableMatch 1));
                                ref_position := position;
                                ref_endPosition := position + String.length word |} ])
          | None => ret refs
          end
        else
          let afterPos := position + String.length word in
          if (afterPos <? String.length query) && charIs isDot (chars query) afterPos
          then ret refs
          else if has (tableAndAliasNames tables) (toLowerCase word) then ret refs
          else ret (refs ++ [ {| ref_name := toLowerCase word;
                                 ref_table := None;
                                 ref_position := position;
                                 ref_endPosition := position + String.length word |} ]).

Definition extractColumnReferences (query : string) (tables : list TableAlias)
  : Run (list ColumnReference) :=
  let refs : list ColumnReference := [] in
  do identifierRegexObject <- newRegExp identifierRegex false true;
  do skipPositions <- markSkipPositions query;
  do _ <- setLastIndex identifierRegexObject 0;
  whileExec (S (String.length query)) identifierRegexObject query
            (pushReference query tables skipPositions) refs.

(** [validateColumns]; its loop over the references works on the schema and
    on collections of its own only. *)
Definition validateColumns (query : string) (schema : DatabaseSchema)
  : Run (list ValidationError) :=
  if negb (truthy (Some (trim query))) then ret []
  else
    do tables <- extractTablesWithAliases query;
    if length tables =? 0 then ret []
    else
      do columnRefs <- extractColumnReferences query tables;
      ret (validateReferences tables schema columnRefs).

(** The heap [h] with the objects [created] after its own. *)
Definition grow (h : Heap) (created : list RegExp) : Heap :=
  {| vocabulary := vocabulary h; regExps := regExps h ++ created |}.

(** The computation returns [a] on every heap whose module sets are [V],
    and leaves the heap as it was but for the objects that it created. *)
Definition returns {A : Type} (m : Run A) (V : Vocabulary) (a : A) : Prop :=
  forall h, vocabulary h = V -> exists created, m h = Some (a, grow h created).

End Js.

(* ===================================================================== *)
(** * The schema loader *)
(* ===================================================================== *)

(** The rows of the three catalog queries of [loadSchema]. *)
Record TableRow : Type := {
  tr_table_name : string;
}.

Record ColumnRow : Type := {
  cr_table_name : string;
  cr_column_name : string;
  cr_data_type : string;
  cr_is_nullable : string;
}.

Record ForeignKeyRow : Type := {
  fr_table_name : string;
  fr_column_name : string;
  fr_referenced_table : string;
  fr_referenced_column : string;
}.

(** What [client.query] answers to the three catalog queries of
    [loadSchema]: the rows of the result, or [None] when the query is
    rejected. *)
Record CatalogClient : Type := {
  tablesResult : option (list TableRow);
  columnsResult : option (list ColumnRow);
  foreignKeysResult : option (list ForeignKeyRow);
}.

(** [tableMap], a [Map] from table names to table objects: its entries in
    insertion order.  [set] on a key of the map replaces the value where the
    entry stands; [get] returns the object itself, and a [push] on one of its
    arrays changes the entry. *)
Fixpoint mapSet (key : string) (value : TableInfo) (m : list (string * TableInfo))
  : list (string * TableInfo) :=
  match m with
  | [] => [(key, value)]
  | (k, v) :: m' =>
      if String.eqb k key then (key, value) :: m' else (k, v) :: mapSet key value m'
  end.

Fixpoint mapGet (key : string) (m : list (string * TableInfo)) : option TableInfo :=
  match m with
  | [] => None
  | (k, v) :: m' => if String.eqb k key then Some v else mapGet key m'
  end.

Fixpoint mapUpdate (key : string) (f : TableInfo -> TableInfo)
         (m : list (string * TableInfo)) : list (string * TableInfo) :=
  match m with
  | [] => []
  | (k, v) :: m' =>
      if String.eqb k key then (k, f v) :: m' else (k, v) :: mapUpdate key f m'
  end.

Definition newTable (row : TableRow) : TableInfo :=
  {| tbl_name := tr_table_name row; tbl_schema := "public";
     columns := []; foreignKeys := [] |}.

Definition columnOfRow (row : ColumnRow) : ColumnInfo :=
  {| col_name := cr_column_name row;
     dataType := cr_data_type row;
     isNullable := String.eqb (cr_is_nullable row) "YES" |}.

Definition foreignKeyOfRow (row : ForeignKeyRow) : ForeignKey :=
  {| fk_column := fr_column_name row;
     referencedTable := fr_referenced_table row;
     referencedColumn := fr_referenced_column row |}.

Definition pushColumn (column : ColumnInfo) (table : TableInfo) : TableInfo :=
  {| tbl_name := tbl_name table; tbl_schema := tbl_schema table;
     columns := columns table ++ [column]; foreignKeys := foreignKeys table |}.

Definition pushForeignKey (fk : ForeignKey) (table : TableInfo) : TableInfo :=
  {| tbl_name := tbl_name table; tbl_schema := tbl_schema table;
     columns := columns table; foreignKeys := foreignKeys table ++ [fk] |}.

(** The three loops of [loadSchema] over the rows, and the schema it
    returns. *)
Definition assembleSchema (SQL_KEYWORDS SQL_FUNCTIONS : list string)
           (tableRows : list TableRow) (columnRows : list ColumnRow)
           (foreignKeyRows : list ForeignKeyRow) : DatabaseSchema :=
  let tableMap :=
    fold_left (fun tableMap row => mapSet (tr_table_name row) (newTable row) tableMap)
              tableRows [] in
  let tableMap :=
    fold_left (fun tableMap row =>
                 match mapGet (cr_table_name row) tableMap with
                 | Some _ => mapUpdate (cr_table_name row)
                                       (pushColumn (columnOfRow row)) tableMap
                 | None => tableMap
                 end)
              columnRows tableMap in
  let tableMap :=
    fold_left (fun tableMap row =>
                 match mapGet (fr_table_name row) tableMap with
                 | Some _ => mapUpdate (fr_table_name row)
                                       (pushForeignKey (foreignKeyOfRow row)) tableMap
                 | None => tableMap
                 end)
              foreignKeyRows tableMap in
  {| tables := map snd tableMap;
     keywords := SQL_KEYWORDS;
     functions := SQL_FUNCTIONS |}.

(** [loadSchema]: rejected when one of the three queries is. *)
Definition loadSchema (SQL_KEYWORDS SQL_FUNCTIONS : list string)
           (client : CatalogClient) : option DatabaseSchema :=
  match tablesResult client, columnsResult client, foreignKeysResult client with
  | Some tableRows, Some columnRows, Some foreignKeyRows =>
      Some (assembleSchema SQL_KEYWORDS SQL_FUNCTIONS tableRows columnRows foreignKeyRows)
  | _, _, _ => None
  end.

(** The entries of [tableMap] after the loop over the table rows, and the
    keys after one more [set]. *)
Definition tableEntries (names : list string) : list (string * TableInfo) :=
  map (fun n => (n, newTable {| tr_table_name := n |})) names.

Definition addName (names : list string) (n : string) : list string :=
  if decide (n ∈ names) then names else names ++ [n].

(** The pushes of a list of rows on one table object. *)
Definition pushColumns (rows : list ColumnRow) (table : TableInfo) : TableInfo :=
  fold_left (fun T row => pushColumn (columnOfRow row) T) rows table.

Definition pushForeignKeys (rows : list ForeignKeyRow) (table : TableInfo) : TableInfo :=
  fold_left (fun T row => pushForeignKey (foreignKeyOfRow row) T) rows table.

(** The names of a list in the order of their first occurrences. *)
Fixpoint firstOccurrences (l : list string) : list string :=
  match l with
  | [] => []
  | x :: l' => x :: filter (fun y => y <> x) (firstOccurrences l')
  end.

(** The table that the loader should build for the name [name]: the columns
    and the foreign keys of the rows of that table, in the order of the
    rows. *)
Definition tableOfRows (columnRows : list ColumnRow)
           (foreignKeyRows : list ForeignKeyRow) (name : string) : TableInfo :=
  {| tbl_name := name; tbl_schema := "public";
     columns := map columnOfRow
                    (filter (fun row => cr_table_name row = name) columnRows);
     foreignKeys := map foreignKeyOfRow
                        (filter (fun row => fr_table_name row = name) foreignKeyRows) |}.

(* ===================================================================== *)
(** * The editor: diagnostics, decorations and history *)
(* ===================================================================== *)

(** An error shown under the editor, from the validator ([source] is
    [client]) or from the server.  Positions are 1-indexed integers; the
    position of a server error may be absent. *)
Record QueryError : Type := {
  qe_message : string;
  qe_position : option Z;
  qe_hint : option string;
  qe_severity : string;
  qe_source : string;
}.

Record Decoration : Type := {
  dec_start : Z;
  dec_end : Z;
  dec_style : string;
}.

(** [clientValidationErrors]; the schema is [None] until it is loaded. *)
Definition clientValidationErrors (V : Vocabulary) (query : string)
           (schema : option DatabaseSchema) : list QueryError :=
  match schema with
  | Some schema =>
      if negb (truthy (Some (trim query))) then []
      else map (fun err => {| qe_message := message err;
                              qe_position := Some (Z.of_nat (position err) + 1)%Z;
                              qe_hint := hint err;
                              qe_severity := "ERROR";
                              qe_source := "client" |})
               (validateColumns V query schema)
  | None => []
  end.

(** [allErrors]: the server errors if there are any, else the client ones. *)
Definition allErrors (queryErrors clientValidationErrors : list QueryError)
  : list QueryError :=
  let serverErrors :=
    filter (fun e => String.eqb (qe_source e) "server") queryErrors in
  if 0 <? length serverErrors then serverErrors else clientValidationErrors.

(** The errors listed under the editor: warnings are left out, and past
    [MAX_VISIBLE_ERRORS] the others are counted; the count is shown when it is
    positive. *)
Definition MAX_VISIBLE_ERRORS : nat := 3.

Definition displayableErrors (allErrors : list QueryError) : list QueryError :=
  filter (fun e => negb (String.eqb (qe_severity e) "WARNING")) allErrors.

Definition visibleErrors (allErrors : list QueryError) : list QueryError :=
  take MAX_VISIBLE_ERRORS (displayableErrors allErrors).

Definition hiddenErrorCount (allErrors : list QueryError) : Z :=
  (Z.of_nat (length (displayableErrors allErrors)) - Z.of_nat MAX_VISIBLE_ERRORS)%Z.

(** [/^\w+/] *)
Definition wordPrefixRegex : regex := cat [Bol; Plus w].

(** The body of the loop of [errorDecorations]: the decoration pushed for
    [error], or [None] where the loop continues. *)
Definition decorationOfError (query : string) (error : QueryError) : option Decoration :=
  match qe_position error with
  | None => None
  | Some position =>
      let pos := (position - 1)%Z in
      if (pos <? 0)%Z || (Z.of_nat (String.length query) <=? pos)%Z then None
      else
        let afterError := slice query (Z.to_nat pos) (String.length query) in
        let wordMatch := matchOnce false wordPrefixRegex afterError in
        let length := match wordMatch with
                      | Some m => String.length (matched m)
                      | None => 1
                      end in
        let style := if String.eqb (qe_severity error) "WARNING"
                     then "warning" else "error" in
        Some {| dec_start := pos;
                dec_end := Z.min (pos + Z.of_nat length) (Z.of_nat (String.length query));
                dec_style := style |}
  end.

(** [errorDecorations]; [None] is [undefined]. *)
Definition errorDecorations (query : string) (allErrors : list QueryError)
  : option (list Decoration) :=
  if length allErrors =? 0 then None
  else
    let decorations := omap (decorationOfError query) allErrors in
    if 0 <? length decorations then Some decorations else None.

(** The span that the validator gives to a diagnostic, as a decoration. *)
Definition spanOf (d : ValidationError) : Decoration :=
  {| dec_start := Z.of_nat (position d);
     dec_end := Z.of_nat (endPosition d);
     dec_style := "error" |}.

(** The part of the state of [App] that the query editor works on. *)
Inductive Screen : Type :=
| onUsername | onPassword | onConnecting | onConnected | onExecuting | onResults
| onError.

Record Editor : Type := {
  screen : Screen;               (* state *)
  query : string;
  queryErrors : list QueryError;
  history : list string;
  historyIndex : Z;              (* -1 means "new query" mode *)
  draft : string;
}.

Definition isConnected (s : Screen) : bool :=
  match s with onConnected => true | _ => false end.

(** [history[i]]: [undefined], here the empty string, out of range. *)
Definition historyAt (history : list string) (i : Z) : string :=
  if (i <? 0)%Z then EmptyString
  else default EmptyString (history !! Z.to_nat i).

(** The history part of the [useInput] handler of [App].  The two tests on
    the arrows read the state of the render; a later [set] overrides an
    earlier one. *)
Definition historyKeys (upArrow downArrow : bool) (e : Editor) : Editor :=
  let n := Z.of_nat (length (history e)) in
  if isConnected (screen e) && (0 <? length (history e)) then
    let e1 :=
      if upArrow then
        if (historyIndex e =? -1)%Z then
          {| screen := screen e; query := historyAt (history e) (n - 1);
             queryErrors := queryErrors e; history := history e;
             historyIndex := (n - 1)%Z; draft := query e |}
        else if (0 <? historyIndex e)%Z then
          {| screen := screen e; query := historyAt (history e) (historyIndex e - 1);
             queryErrors := queryErrors e; history := history e;
             historyIndex := (historyIndex e - 1)%Z; draft := draft e |}
        else e
      else e in
    if downArrow then
      if negb (historyIndex e =? -1)%Z then
        if (historyIndex e <? n - 1)%Z then
          {| screen := screen e1; query := historyAt (history e) (historyIndex e + 1);
             queryErrors := queryErrors e1; history := history e1;
             historyIndex := (historyIndex e + 1)%Z; draft := draft e1 |}
        else
          {| screen := screen e1; query := draft e;
             queryErrors := queryErrors e1; history := history e1;
             historyIndex := (-1)%Z; draft := draft e1 |}
      else e1
    else e1
  else e.

(** The state updates of [handleQuerySubmit] when the query of a connected
    client succeeds: nothing happens on a blank query. *)
Definition querySucceeded (e : Editor) : Editor :=
  if negb (truthy (Some (trim (query e)))) then e
  else
    let executedQuery := trim (query e) in
    {| screen := onResults; query := query e; queryErrors := [];
       history := match last (history e) with
                  | Some recent =>
                      if String.eqb recent executedQuery then history e
                      else history e ++ [executedQuery]
                  | None => history e ++ [executedQuery]
                  end;
       historyIndex := (-1)%Z; draft := EmptyString |}.

(** [handleBackToQuery] and [handleQueryChange]. *)
Definition handleBackToQuery (e : Editor) : Editor :=
  {| screen := onConnected; query := query e; queryErrors := queryErrors e;
     history := history e; historyIndex := historyIndex e; draft := draft e |}.

Definition handleQueryChange (newValue : string) (e : Editor) : Editor :=
  {| screen := screen e; query := newValue;
     queryErrors := if existsb (fun err => String.eqb (qe_source err) "server")
                               (queryErrors e)
                    then [] else queryErrors e;
     history := history e; historyIndex := historyIndex e; draft := draft e |}.

(** The invariant of the history: the index is -1 or an index of the
    history. *)
Definition historyInvariant (e : Editor) : Prop :=
  (historyIndex e = -1 \/ 0 <= historyIndex e < Z.of_nat (length (history e)))%Z.

(** Pressing a key [n] times. *)
Fixpoint pressed (n : nat) (upArrow downArrow : bool) (e : Editor) : Editor :=
  match n with
  | 0 => e
  | S n' => pressed n' upArrow downArrow (historyKeys upArrow downArrow e)
  end.

(** No entry of the history is empty or equal to the entry before it. *)
Definition noRepeats (l : list string) : Prop :=
  forall i a b, l !! i = Some a -> l !! S i = Some b -> a <> b.

Definition historyWellFormed (e : Editor) : Prop :=
  historyInvariant e /\ noRepeats (history e) /\
  Forall (fun q => q <> EmptyString /\ trim q = q) (history e).

(** ** The connection URL *)

Definition isColon (c : ascii) : bool := (code c =? 58)%N.

(** The line terminators among the Latin-1 characters: [.] without the [s]
    flag matches every character but a line terminator. *)
Definition isLineTerminator (c : ascii) : bool := (code c =? 10)%N || (code c =? 13)%N.

(** [/^jdbc:postgresql:\/\/([^:]+):(\d+)\/(.+)$/] *)
Definition jdbcUrlRegex : regex :=
  cat [Bol; word "jdbc:postgresql://";
       Group 1 (Plus (Cls (fun c => negb (isColon c))));
       Chr ":"; Group 2 (Plus (Cls isDigit)); Chr "/";
       Group 3 (Plus (Cls (fun c => negb (isLineTerminator c)))); Eoi].

(** The numbers that [parseInt(s, 10)] returns on a string of decimal
    digits, which is what group 2 of the pattern is.  Below 2^53 every
    integer is a number of its own and the result is the integer that the
    digits denote.  From 2^53 on the result is that integer rounded to a
    number, or [Infinity]: a number of at least 2^53, and no more is said of
    it here. *)
Inductive DecimalNumber : Type :=
| integer (n : N)
| atLeast2p53.

Definition decimalValue (s : string) : N :=
  fold_left (fun n c => (10 * n + (code c - 48))%N) (chars s) 0%N.

Definition parseInt (s : string) : DecimalNumber :=
  let n := decimalValue s in
  if (n <? 9007199254740992)%N then integer n else atLeast2p53.

Record ConnectionConfig : Type := {
  host : string;
  port : DecimalNumber;
  database : string;
}.

(** [parseJdbcUrl]; [None] is the thrown error. *)
Definition parseJdbcUrl (url : string) : option ConnectionConfig :=
  match matchOnce false jdbcUrlRegex url with
  | None => None
  | Some m =>
      Some {| host := group' m 1;
              port := parseInt (group' m 2);
              database := group' m 3 |}
  end.

(** The schema without the tables that none of [found] names. *)
Definition namedBy (found : list TableAlias) (table : TableInfo) : bool :=
  bool_decide (toLowerCase (tbl_name table) ∈
               map (fun t => toLowerCase (tableName t)) found).

Definition restrictTo (found : list TableAlias) (schema : DatabaseSchema)
  : DatabaseSchema :=
  {| tables := filter (fun table => namedBy found table) (tables schema);
     keywords := keywords schema;
     functions := functions schema |}.

(** The characters of [s] from offset [a] to offset [b] are a non-empty run
    of word characters. *)
Definition wordBetween (s : string) (a b : nat) : Prop :=
  a < b /\ b <= String.length s /\
  forall x, a <= x < b -> exists ch, chars s !! x = Some ch /\ isWordChar ch = true.

(** ** Sample data

    The file [autocomplete/keywords.js] is not among the sources: the
    validator is stated for every vocabulary.  To run it, here are a small
    vocabulary (WHERE and AS are keywords in the comments of the validator),
    the schema [{ orders: [id, total]; items: [id, order_id, name] }] and a
    few queries. *)

Definition sampleKeywords : list string :=
  ["SELECT"; "FROM"; "WHERE"; "JOIN"; "LEFT"; "RIGHT"; "INNER"; "OUTER"; "FULL";
   "CROSS"; "ON"; "AS"; "AND"; "OR"; "NOT"; "IN"; "ORDER"; "BY"; "GROUP"]%string.
Definition sampleFunctions : list string := ["COUNT"; "SUM"; "NOW"]%string.

Definition mkTable (n : string) (cols : list string) : TableInfo :=
  {| tbl_name := n; tbl_schema := "public";
     columns := map (fun c => {| col_name := c; dataType := "text"; isNullable := true |}) cols;
     foreignKeys := [] |}.

Definition sampleSchema : DatabaseSchema :=
  {| tables := [mkTable "orders" ["id"; "total"];
                mkTable "items" ["id"; "order_id"; "name"]];
     keywords := sampleKeywords; functions := sampleFunctions |}.

Definition sampleVocabulary : Vocabulary := loadVocabulary sampleKeywords sampleFunctions.

Definition unknownColumnQuery : string := "SELECT total, bogus FROM orders".
Definition totalReference : ColumnReference :=
  {| ref_name := "total"; ref_table := None; ref_position := 7; ref_endPosition := 12 |}.
Definition bogusReference : ColumnReference :=
  {| ref_name := "bogus"; ref_table := None; ref_position := 14; ref_endPosition := 19 |}.

Definition unknownQualifierQuery : string := "SELECT x.id FROM orders o".
Definition qualifiedReference : ColumnReference :=
  {| ref_name := "id"; ref_table := Some "x"; ref_position := 9; ref_endPosition := 11 |}.

Definition literalQuery : string := "SELECT 'foo.bar' FROM t".
Definition constantQuery : string := "SELECT 1".
Definition blankQuery : string := "   ".

Definition whereQuery : string := "SELECT x FROM users WHERE id = 1".

(** The sample schema with other vocabulary fields. *)
Definition otherSchema : DatabaseSchema :=
  {| tables := tables sampleSchema; keywords := []; functions := ["UPPER"] |}.

(** A query whose only FROM stands inside a string literal, and a query
    with the letters of JOIN inside a longer word. *)
Definition literalFromQuery : string := "SELECT 'x from orders', bogus".
Definition disjoinQuery : string := "SELECT disjoin x".

(** Two tables whose names differ by letter case only, as a catalog with
    the tables ["Orders"] and [orders] gives them, and a query on the
    second. *)
Definition shadowedSchema : DatabaseSchema :=
  {| tables := [mkTable "Orders" ["id"]; mkTable "orders" ["total"]];
     keywords := sampleKeywords; functions := sampleFunctions |}.
Definition shadowQuery : string := "SELECT total FROM orders".

(** A qualified reference to a column that the table does not have. *)
Definition qualifiedColumnQuery : string := "SELECT o.bogus FROM orders o".
Definition ordersAsO : TableAlias := {| tableName := "orders"; alias := Some "o" |}.
Definition bogusOfO : ColumnReference :=
  {| ref_name := "bogus"; ref_table := Some "o"; ref_position := 9; ref_endPosition := 14 |}.

Definition bogusDiagnostic : ValidationError :=
  {| message := ("Unknown column " ++ dq ++ "bogus" ++ dq)%string;
     position := 14; endPosition := 19; severity := error;
     hint := Some (dq ++ "bogus" ++ dq ++ " not found in table: orders")%string |}.

(** A column alias, and one that is a piece of the AS before it. *)
Definition columnAliasQuery : string := "SELECT total AS amount FROM orders".
Definition amountMatch : Match :=
  default (mkMatch [] 0 0 ∅) (head (execAll true columnAliasRegex columnAliasQuery)).
Definition shortAliasQuery : string := "select total as s from orders".

(** Catalog rows: the table [Orders] with two columns and a foreign key, and
    a column of a table that has no table row. *)
Definition sampleTableRows : list TableRow := [ {| tr_table_name := "Orders" |} ].
Definition totalRow : ColumnRow :=
  {| cr_table_name := "Orders"; cr_column_name := "Total";
     cr_data_type := "numeric"; cr_is_nullable := "YES" |}.
Definition sampleColumnRows : list ColumnRow :=
  [ {| cr_table_name := "Orders"; cr_column_name := "id";
       cr_data_type := "integer"; cr_is_nullable := "NO" |};
    {| cr_table_name := "audit"; cr_column_name := "at";
       cr_data_type := "date"; cr_is_nullable := "NO" |};
    totalRow ].
Definition sampleForeignKeyRows : list ForeignKeyRow :=
  [ {| fr_table_name := "Orders"; fr_column_name := "id";
       fr_referenced_table := "items"; fr_referenced_column := "order_id" |} ].

(** An editor with two queries in its history and a query being typed. *)
Definition sampleEditor : Editor :=
  {| screen := onConnected; query := " SELECT 3 "; queryErrors := [];
     history := ["SELECT 1"; "SELECT 2"]; historyIndex := (-1)%Z;
     draft := EmptyString |}.

(** The same editor after two presses of the up arrow, and an edit. *)
Definition browsingEditor : Editor :=
  {| screen := onConnected; query := "SELECT 1 "; queryErrors := [];
     history := ["SELECT 1"; "SELECT 2"]; historyIndex := 0%Z;
     draft := " SELECT 3 " |}.

(* ===================================================================== *)
(** * Properties of the primitives *)
(* ===================================================================== *)

Lemma chars_str l : chars (str l) = l.
Proof. apply list_ascii_of_string_of_list_ascii. Qed.

Lemma str_chars s : str (chars s) = s.
Proof. apply string_of_list_ascii_of_string. Qed.

Lemma length_chars s : length (chars s) = String.length s.
Proof. induction s; simpl; congruence. Qed.

Lemma length_str l : String.length (str l) = length l.
Proof. rewrite <- length_chars, chars_str. reflexivity. Qed.

Lemma length_toLowerCase s : String.length (toLowerCase s) = String.length s.
Proof.
  unfold toLowerCase. rewrite length_str, length_map. apply length_chars.
Qed.

Lemma length_sliceChars l a b :
  a <= b -> b <= length l -> length (sliceChars l a b) = b - a.
Proof.
  intros Hab Hb. unfold sliceChars. rewrite length_take, length_drop. lia.
Qed.

(** ** Soundness of the matcher *)

Section MatcherFacts.
Variable ignoreCase : bool.
Variable input : list ascii.

Abbreviation Matches := (Matches ignoreCase input).
Abbreviation matcher := (matcher ignoreCase input).

Lemma starLoop_sound (Q : nat -> gmap nat (nat * nat) -> nat -> gmap nat (nat * nat) -> Prop)
      body k :
  (forall i c k' res, body i c k' = Some res ->
                      exists j c', Q i c j c' /\ k' j c' = Some res) ->
  forall fuel i c res,
    starLoop body k fuel i c = Some res ->
    exists j c', iter Q i c j c' /\ k j c' = Some res.
Proof.
  intros Hbody fuel. induction fuel as [|fuel IH]; intros i c res H; simpl in H.
  - exists i, c. split; [constructor | exact H].
  - destruct (body i c _) as [res'|] eqn:Hb.
    + inversion H; subst res'; clear H.
      apply Hbody in Hb. destruct Hb as (j & c' & HQ & Hk).
      destruct (i <? j) eqn:Hlt; [|discriminate].
      apply Nat.ltb_lt in Hlt.
      apply IH in Hk. destruct Hk as (j' & c'' & Hit & Hk).
      exists j', c''. split; [|exact Hk].
      eapply iter_step; eauto.
    + exists i, c. split; [constructor | exact H].
Qed.

Lemma matcher_sound r :
  forall i c k res,
    matcher r i c k = Some res ->
    exists j c', Matches r i c j c' /\ k j c' = Some res.
Proof.
  induction r as [|ch|p|r1 IH1 r2 IH2|r1 IH1 r2 IH2|r1 IH1|r1 IH1|n r1 IH1| | |];
    intros i c k res H; simpl in H |- *.
  - eauto.
  - destruct (input !! i) as [d|] eqn:Hd; [|discriminate].
    destruct (Ascii.eqb _ _) eqn:He; [|discriminate].
    apply Ascii.eqb_eq in He. exists (S i), c. eauto 10.
  - destruct (input !! i) as [d|] eqn:Hd; [|discriminate].
    destruct (p d) eqn:He; [|discriminate].
    exists (S i), c. eauto 10.
  - apply IH1 in H. destruct H as (m & cm & H1 & H).
    apply IH2 in H. destruct H as (j & c' & H2 & H).
    exists j, c'. eauto 10.
  - destruct (matcher r1 i c k) as [res'|] eqn:H1.
    + inversion H; subst res'. apply IH1 in H1.
      destruct H1 as (j & c' & H1 & Hk). exists j, c'. eauto.
    + apply IH2 in H. destruct H as (j & c' & H2 & Hk). exists j, c'. eauto.
  - destruct (matcher r1 i (clearGroups r1 c) _) as [res'|] eqn:H1.
    + inversion H; subst res'. apply IH1 in H1.
      destruct H1 as (j & c' & H1 & Hk).
      destruct (i <? j) eqn:Hlt; [|discriminate].
      apply Nat.ltb_lt in Hlt. exists j, c'. eauto.
    + exists i, c. eauto.
  - eapply starLoop_sound in H; [exact H|].
    intros i0 c0 k' res0 Hb. apply IH1 in Hb. exact Hb.
  - apply IH1 in H. destruct H as (j & c1 & H1 & Hk).
    exists j, (<[n := (i, j)]> c1). eauto.
  - destruct (atWordBoundary input i) eqn:Hb; [|discriminate]. eauto 10.
  - destruct (i =? 0) eqn:Hb; [|discriminate]. apply Nat.eqb_eq in Hb. eauto 10.
  - destruct (i =? length input) eqn:Hb; [|discriminate].
    apply Nat.eqb_eq in Hb. eauto 10.
Qed.

(** A match lies inside the input and is at least [minLen r] long. *)
Lemma Matches_bounds r :
  forall i c j c',
    Matches r i c j c' -> i <= length input ->
    i + minLen r <= j /\ j <= length input.
Proof.
  induction r as [|ch|p|r1 IH1 r2 IH2|r1 IH1 r2 IH2|r1 IH1|r1 IH1|n r1 IH1| | |];
    intros i c j c' H Hi; simpl in H |- *.
  - destruct H; subst; lia.
  - destruct H as (d & Hd & _ & -> & _).
    apply lookup_lt_Some in Hd. lia.
  - destruct H as (d & Hd & _ & -> & _).
    apply lookup_lt_Some in Hd. lia.
  - destruct H as (m & cm & H1 & H2).
    apply IH1 in H1; [|exact Hi]. apply IH2 in H2; lia.
  - destruct H as [H|H]; [apply IH1 in H | apply IH2 in H]; lia.
  - destruct H as [[H _]|[-> _]]; [apply IH1 in H|]; lia.
  - induction H as [i c|i c j c' k c'' H1 Hlt Hit IH].
    + lia.
    + apply IH1 in H1; [|exact Hi]. specialize (IH ltac:(lia)). lia.
  - destruct H as (c1 & H & _). apply IH1 in H; lia.
  - destruct H as (_ & -> & _). lia.
  - destruct H as (_ & -> & _). lia.
  - destruct H as (_ & -> & _). lia.
Qed.
End MatcherFacts.

(** ** The fuel of the star is never used up

    The matcher calls its continuation inside the input only, so that an
    iteration of a star at the end of the input cannot succeed: giving the
    loop more fuel than the number of characters left changes nothing. *)

Section StarFuel.
Variable ignoreCase : bool.
Variable input : list ascii.

Abbreviation matcher := (matcher ignoreCase input).
Abbreviation inside k1 k2 :=
  (forall j (c : gmap nat (nat * nat)), j <= length input -> k1 j c = k2 j c).
Abbreviation failing k :=
  (forall j (c : gmap nat (nat * nat)), j <= length input -> k j c = @None State).

Lemma starLoop_ext body k1 k2 :
  (forall i c k k', inside k k' -> i <= length input -> body i c k = body i c k') ->
  inside k1 k2 ->
  forall fuel i c, i <= length input ->
                   starLoop body k1 fuel i c = starLoop body k2 fuel i c.
Proof.
  intros Hbody Hk fuel. induction fuel as [|fuel IH]; intros i c Hi; simpl.
  - apply Hk. exact Hi.
  - rewrite (Hbody i c _ (fun j c0 => if i <? j then starLoop body k2 fuel j c0 else None)).
    + rewrite (Hk i c Hi). reflexivity.
    + intros j c0 Hj. destruct (i <? j); [apply IH; exact Hj | reflexivity].
    + exact Hi.
Qed.

Lemma matcher_ext r :
  forall i c k1 k2,
    inside k1 k2 -> i <= length input -> matcher r i c k1 = matcher r i c k2.
Proof.
  induction r as [|ch|p|r1 IH1 r2 IH2|r1 IH1 r2 IH2|r1 IH1|r1 IH1|n r1 IH1| | |];
    intros i c k1 k2 Hk Hi; simpl.
  - apply Hk. exact Hi.
  - destruct (input !! i) as [d|] eqn:Hd; [|reflexivity].
    apply lookup_lt_Some in Hd. rewrite (Hk (S i) c) by lia. reflexivity.
  - destruct (input !! i) as [d|] eqn:Hd; [|reflexivity].
    apply lookup_lt_Some in Hd. rewrite (Hk (S i) c) by lia. reflexivity.
  - apply IH1; [|exact Hi]. intros j c0 Hj. apply IH2; assumption.
  - rewrite (IH1 i c k1 k2 Hk Hi), (IH2 i c k1 k2 Hk Hi). reflexivity.
  - rewrite (IH1 i (clearGroups r1 c) _ (fun j c0 => if i <? j then k2 j c0 else None)).
    + rewrite (Hk i c Hi). reflexivity.
    + intros j c0 Hj. rewrite (Hk j c0 Hj). reflexivity.
    + exact Hi.
  - apply starLoop_ext; [|exact Hk|exact Hi].
    intros i0 c0 k k' Hkk Hi0. apply IH1; assumption.
  - apply IH1; [|exact Hi]. intros j c0 Hj. apply Hk. exact Hj.
  - rewrite (Hk i c Hi). reflexivity.
  - rewrite (Hk i c Hi). reflexivity.
  - rewrite (Hk i c Hi). reflexivity.
Qed.

Lemma starLoop_fails body k :
  (forall i c k', failing k' -> i <= length input -> body i c k' = None) ->
  failing k ->
  forall fuel i c, i <= length input -> starLoop body k fuel i c = None.
Proof.
  intros Hbody Hk fuel. induction fuel as [|fuel IH]; intros i c Hi; simpl.
  - apply Hk. exact Hi.
  - rewrite Hbody; [apply Hk; exact Hi | | exact Hi].
    intros j c0 Hj. destruct (i <? j); [apply IH; exact Hj | reflexivity].
Qed.

Lemma matcher_fails r :
  forall i c k, failing k -> i <= length input -> matcher r i c k = None.
Proof.
  induction r as [|ch|p|r1 IH1 r2 IH2|r1 IH1 r2 IH2|r1 IH1|r1 IH1|n r1 IH1| | |];
    intros i c k Hk Hi; simpl.
  - apply Hk. exact Hi.
  - destruct (input !! i) as [d|] eqn:Hd; [|reflexivity].
    apply lookup_lt_Some in Hd. rewrite (Hk (S i) c) by lia.
    destruct (Ascii.eqb _ _); reflexivity.
  - destruct (input !! i) as [d|] eqn:Hd; [|reflexivity].
    apply lookup_lt_Some in Hd. rewrite (Hk (S i) c) by lia.
    destruct (p d); reflexivity.
  - apply IH1; [|exact Hi]. intros j c0 Hj. apply IH2; assumption.
  - rewrite (IH1 i c k Hk Hi). apply IH2; assumption.
  - rewrite IH1; [apply Hk; exact Hi | | exact Hi].
    intros j c0 Hj. rewrite (Hk j c0 Hj). destruct (i <? j); reflexivity.
  - apply starLoop_fails; [|exact Hk|exact Hi].
    intros i0 c0 k' Hk' Hi0. apply IH1; assumption.
  - apply IH1; [|exact Hi]. intros j c0 Hj. apply Hk. exact Hj.
  - rewrite (Hk i c Hi). destruct (atWordBoundary input i); reflexivity.
  - rewrite (Hk i c Hi). destruct (i =? 0); reflexivity.
  - rewrite (Hk i c Hi). destruct (i =? length input); reflexivity.
Qed.

Lemma starLoop_fuel r k fuel :
  forall extra i c,
    i <= length input -> length input - i <= fuel ->
    starLoop (fun i c k => matcher r i (clearGroups r c) k) k (fuel + extra) i c =
    starLoop (fun i c k => matcher r i (clearGroups r c) k) k fuel i c.
Proof.
  induction fuel as [|fuel IH]; intros extra i c Hi Hfuel.
  - destruct extra as [|extra]; [reflexivity|]. simpl.
    rewrite matcher_fails; [reflexivity | | exact Hi].
    intros j c0 Hj. replace (i <? j) with false; [reflexivity|].
    symmetry. apply Nat.ltb_ge. lia.
  - simpl. erewrite matcher_ext; [reflexivity | | exact Hi].
    intros j c0 Hj. simpl. destruct (i <? j) eqn:Hlt; [|reflexivity].
    apply Nat.ltb_lt in Hlt. apply IH; lia.
Qed.
End StarFuel.

(** ** The groups that every match sets *)

Section Captures.
Variable ignoreCase : bool.
Variable input : list ascii.

Abbreviation Matches := (Matches ignoreCase input).

Lemma lookup_clear (l : list nat) (c : gmap nat (nat * nat)) n :
  n ∉ l -> foldr delete c l !! n = c !! n.
Proof.
  induction l as [|m l IH]; intros Hn; simpl; [reflexivity|].
  apply not_elem_of_cons in Hn. destruct Hn as (Hne & Hn).
  rewrite lookup_delete_ne by congruence. apply IH. exact Hn.
Qed.

Lemma Matches_keeps r n :
  forall i c j c', Matches r i c j c' -> n ∉ groupsOf r -> c' !! n = c !! n.
Proof.
  induction r as [|ch|p|r1 IH1 r2 IH2|r1 IH1 r2 IH2|r1 IH1|r1 IH1|m r1 IH1| | |];
    intros i c j c' H Hn; simpl in H, Hn.
  - destruct H as (_ & ->). reflexivity.
  - destruct H as (d & _ & _ & _ & ->). reflexivity.
  - destruct H as (d & _ & _ & _ & ->). reflexivity.
  - destruct H as (x & cx & H1 & H2). rewrite not_elem_of_app in Hn.
    destruct Hn as (Hn1 & Hn2).
    rewrite (IH2 _ _ _ _ H2 Hn2). apply (IH1 _ _ _ _ H1 Hn1).
  - rewrite not_elem_of_app in Hn. destruct Hn as (Hn1 & Hn2).
    destruct H as [H|H]; [apply (IH1 _ _ _ _ H Hn1) | apply (IH2 _ _ _ _ H Hn2)].
  - destruct H as [(H & _)|(_ & ->)]; [|reflexivity].
    rewrite (IH1 _ _ _ _ H Hn). apply lookup_clear. exact Hn.
  - induction H as [i c|i c j c' k c'' H1 _ _ IH]; [reflexivity|].
    rewrite IH, (IH1 _ _ _ _ H1 Hn). apply lookup_clear. exact Hn.
  - apply not_elem_of_cons in Hn. destruct Hn as (Hne & Hn).
    destruct H as (c1 & H & ->). rewrite lookup_insert_ne by congruence.
    apply (IH1 _ _ _ _ H Hn).
  - destruct H as (_ & _ & ->). reflexivity.
  - destruct H as (_ & _ & ->). reflexivity.
  - destruct H as (_ & _ & ->). reflexivity.
Qed.

Lemma Matches_captured r n :
  forall i c j c', Matches r i c j c' -> captured r n = true -> is_Some (c' !! n).
Proof.
  induction r as [|ch|p|r1 IH1 r2 IH2|r1 IH1 r2 IH2|r1 IH1|r1 IH1|m r1 IH1| | |];
    intros i c j c' H Hn; simpl in H, Hn; try discriminate.
  - destruct H as (x & cx & H1 & H2).
    apply orb_true_iff in Hn. destruct Hn as [Hn|Hn]; [|eapply IH2; eauto].
    apply andb_true_iff in Hn. destruct Hn as (Hn1 & Hn2).
    apply negb_true_iff, bool_decide_eq_false in Hn2.
    rewrite (Matches_keeps r2 n _ _ _ _ H2 Hn2). eapply IH1; eauto.
  - apply andb_true_iff in Hn. destruct Hn as (Hn1 & Hn2).
    destruct H as [H|H]; [eapply IH1 | eapply IH2]; eauto.
  - destruct H as (c1 & H & ->).
    destruct (decide (m = n)) as [->|Hne];
      [rewrite lookup_insert_eq; eauto | rewrite lookup_insert_ne by exact Hne].
    apply orb_true_iff in Hn. destruct Hn as [Hn|Hn];
      [apply Nat.eqb_eq in Hn; contradiction | eapply IH1; eauto].
Qed.
End Captures.

(** Group 1 takes part in every match of the patterns whose [match[1]] the
    validator reads. *)
Lemma group_1_defined ignoreCase r s m :
  r ∈ [fromRegex; joinRegex; fromJoinRegex; aliasRegex; columnAliasRegex;
       identifierRegex; qualifierRegex] ->
  subject m = chars s ->
  Matches ignoreCase (chars s) r (index m) ∅ (stop m) (captures m) ->
  is_Some (group m 1).
Proof.
  intros Hr Hsub H.
  assert (Hcap : captured r 1 = true).
  { repeat (apply elem_of_cons in Hr; destruct Hr as [->|Hr]; [reflexivity|]).
    apply elem_of_nil in Hr. contradiction. }
  destruct (Matches_captured _ _ _ _ _ _ _ _ H Hcap) as ((a & b) & Hab).
  unfold group. rewrite Hab. eauto.
Qed.

(** ** [exec] and the loop over the matches of a global regex *)

Section ExecFacts.
Variable ignoreCase : bool.
Variable r : regex.
Variable input : list ascii.

Abbreviation GoodMatch m :=
  (subject m = input /\
   Matches ignoreCase input r (index m) ∅ (stop m) (captures m)).

Lemma search_sound fuel :
  forall i m,
    search ignoreCase r input fuel i = Some m ->
    GoodMatch m /\ i <= index m <= i + fuel.
Proof.
  induction fuel as [|fuel IH]; intros i m H; simpl in H.
  - destruct (matcher _ _ _ _ _ _) as [[j caps]|] eqn:Hm; [|discriminate].
    inversion H; subst m; simpl. apply matcher_sound in Hm.
    destruct Hm as (j' & c' & HM & Hacc). inversion Hacc; subst.
    repeat split; auto; lia.
  - destruct (matcher _ _ _ _ _ _) as [[j caps]|] eqn:Hm.
    + inversion H; subst m; simpl. apply matcher_sound in Hm.
      destruct Hm as (j' & c' & HM & Hacc). inversion Hacc; subst.
      repeat split; auto; lia.
    + apply IH in H. destruct H as (Hg & Hi). split; [exact Hg | lia].
Qed.

Lemma exec_sound lastIndex m :
  exec ignoreCase r input lastIndex = Some m ->
  GoodMatch m /\ lastIndex <= index m <= length input.
Proof.
  unfold exec. destruct (lastIndex <=? length input) eqn:Hle; [|discriminate].
  apply Nat.leb_le in Hle. intros H. apply search_sound in H.
  destruct H as (Hg & Hi). split; [exact Hg | lia].
Qed.

Lemma execLoop_sound fuel :
  forall lastIndex ms,
    execLoop ignoreCase r input fuel lastIndex = Some ms ->
    Forall (fun m => GoodMatch m) ms.
Proof.
  induction fuel as [|fuel IH]; intros li ms H; simpl in H; [discriminate|].
  destruct (exec _ _ _ li) as [m|] eqn:He.
  - destruct (execLoop _ _ _ fuel (stop m)) as [ms'|] eqn:Hl; [|discriminate].
    simpl in H. inversion H; subst ms. constructor.
    + apply exec_sound in He. tauto.
    + eapply IH; eauto.
  - inversion H. constructor.
Qed.

(** The loop ends, by [exec] returning [null], when no match is empty:
    the fuel given by [execAll] is never used up. *)
Lemma execLoop_terminates :
  0 < minLen r ->
  forall fuel lastIndex,
    length input < fuel + lastIndex -> 0 < fuel ->
    is_Some (execLoop ignoreCase r input fuel lastIndex).
Proof.
  intros Hmin fuel. induction fuel as [|fuel IH]; intros li Hlen Hpos; [lia|].
  simpl. destruct (exec _ _ _ li) as [m|] eqn:He; [|eauto].
  apply exec_sound in He. destruct He as ((_ & HM) & Hi).
  apply Matches_bounds in HM; [|lia].
  destruct (IH (stop m)) as [ms Hms]; [lia | lia |].
  rewrite Hms. simpl. eauto.
Qed.
End ExecFacts.

Lemma execAll_MatchOf ignoreCase r s m :
  m ∈ execAll ignoreCase r s -> MatchOf ignoreCase r s m.
Proof.
  unfold execAll. destruct (execLoop _ _ _ _ _) as [ms|] eqn:H; simpl.
  - intros Hin. apply execLoop_sound in H.
    rewrite Forall_forall in H. apply H. exact Hin.
  - intros Hin. apply elem_of_nil in Hin. contradiction.
Qed.

Lemma execAll_terminates ignoreCase r s :
  0 < minLen r ->
  execLoop ignoreCase r (chars s) (S (String.length s)) 0 = Some (execAll ignoreCase r s).
Proof.
  intros Hmin. unfold execAll.
  destruct (execLoop_terminates ignoreCase r (chars s) Hmin (S (String.length s)) 0)
    as [ms Hms]; [rewrite length_chars; lia | lia |].
  rewrite Hms. reflexivity.
Qed.

(** Every pattern of the validator that runs in such a loop matches at least
    one character. *)
Lemma global_patterns_consume :
  Forall (fun r => 0 < minLen r)
         [fromRegex; joinRegex; fromJoinRegex; aliasRegex; columnAliasRegex;
          identifierRegex].
Proof. repeat constructor; vm_compute; lia. Qed.

(** The loop of [isInStringLiteral] ends by its own test: more fuel than
    [position] iterations changes nothing. *)
Lemma isInStringLiteralLoop_fuel query position fuel :
  forall i inString extra,
    position <= i + fuel ->
    isInStringLiteralLoop query position (fuel + extra) i inString =
    isInStringLiteralLoop query position fuel i inString.
Proof.
  induction fuel as [|fuel IH]; intros i b extra Hle; simpl.
  - destruct extra; simpl; [reflexivity|].
    replace (i <? position) with false by (symmetry; apply Nat.ltb_ge; lia).
    reflexivity.
  - destruct ((i <? position) && (i <? length query)); [|reflexivity].
    destruct (charIs isQuote query i).
    + destruct ((i + 1 <? length query) && charIs isQuote query (i + 1));
        apply IH; lia.
    + apply IH; lia.
Qed.

(** The loop is the scan of [literalState]. *)
Lemma isInStringLiteralLoop_spec fuel :
  forall pre l position inString,
    position - length pre <= fuel ->
    isInStringLiteralLoop (pre ++ l) position fuel (length pre) inString =
    literalState l (position - length pre) inString.
Proof.
  induction fuel as [|fuel IH]; intros pre l position b Hfuel.
  - replace (position - length pre) with 0 by lia. destruct l; reflexivity.
  - cbn [isInStringLiteralLoop].
    destruct (position - length pre) as [|n] eqn:Hn.
    { replace (length pre <? position) with false by (symmetry; apply Nat.ltb_ge; lia).
      destruct l; reflexivity. }
    replace (length pre <? position) with true by (symmetry; apply Nat.ltb_lt; lia).
    destruct l as [|c l].
    { rewrite app_nil_r, Nat.ltb_irrefl. reflexivity. }
    replace (length pre <? length (pre ++ c :: l)) with true
      by (symmetry; apply Nat.ltb_lt; rewrite length_app; simpl; lia).
    cbn [andb literalState].
    assert (Hc : charIs isQuote (pre ++ c :: l) (length pre) = isQuote c).
    { unfold charIs. rewrite list_lookup_middle by reflexivity. reflexivity. }
    rewrite Hc.
    assert (Hnext : forall b', isInStringLiteralLoop (pre ++ c :: l) position fuel
                                 (length pre + 1) b' =
                               literalState l n b').
    { intros b'. replace (pre ++ c :: l) with ((pre ++ [c]) ++ l)
        by (rewrite <- app_assoc; reflexivity).
      replace (length pre + 1) with (length (pre ++ [c]))
        by (rewrite length_app; reflexivity).
      rewrite IH by (rewrite length_app; simpl; lia).
      f_equal. rewrite length_app. simpl. lia. }
    destruct (isQuote c); [|apply Hnext].
    destruct l as [|d l].
    { replace (length pre + 1 <? length (pre ++ [c])) with false
        by (symmetry; apply Nat.ltb_ge; rewrite length_app; simpl; lia).
      cbn [andb]. rewrite Hnext. destruct n; reflexivity. }
    replace (length pre + 1 <? length (pre ++ c :: d :: l)) with true
      by (symmetry; apply Nat.ltb_lt; rewrite length_app; simpl; lia).
    assert (Hd : charIs isQuote (pre ++ c :: d :: l) (length pre + 1) = isQuote d).
    { unfold charIs. replace (pre ++ c :: d :: l) with ((pre ++ [c]) ++ d :: l)
        by (rewrite <- app_assoc; reflexivity).
      rewrite list_lookup_middle by (rewrite length_app; reflexivity). reflexivity. }
    rewrite Hd. cbn [andb].
    destruct (isQuote d); [|apply Hnext].
    replace (pre ++ c :: d :: l) with ((pre ++ [c; d]) ++ l)
      by (rewrite <- app_assoc; reflexivity).
    replace (length pre + 2) with (length (pre ++ [c; d]))
      by (rewrite length_app; reflexivity).
    rewrite IH by (rewrite length_app; simpl; lia).
    f_equal. rewrite length_app. simpl. lia.
Qed.

Lemma isInStringLiteral_spec query position :
  isInStringLiteral query position = literalState (chars query) position false.
Proof.
  unfold isInStringLiteral.
  pose proof (isInStringLiteralLoop_spec position [] (chars query) position false) as H.
  simpl in H. rewrite Nat.sub_0_r in H. apply H. lia.
Qed.

(** ** [trim] *)

Lemma trimStartChars_keeps l :
  (exists d, d ∈ l /\ isWhiteSpace d = false) ->
  exists d, d ∈ trimStartChars l /\ isWhiteSpace d = false.
Proof.
  induction l as [|c l IH]; intros (d & Hin & Hd); simpl.
  - apply elem_of_nil in Hin. contradiction.
  - destruct (isWhiteSpace c) eqn:Hc.
    + apply IH. apply elem_of_cons in Hin. destruct Hin as [->|Hin]; [congruence|eauto].
    + exists c. split; [left | exact Hc].
Qed.

Lemma trim_truthy s i d :
  chars s !! i = Some d -> isWhiteSpace d = false -> truthy (Some (trim s)) = true.
Proof.
  intros Hi Hd.
  assert (H1 : exists d, d ∈ rev (trimStartChars (chars s)) /\ isWhiteSpace d = false).
  { destruct (trimStartChars_keeps (chars s)) as (d' & Hin & Hd').
    - exists d. split; [eapply list_elem_of_lookup_2; eauto | exact Hd].
    - exists d'. split; [|exact Hd'].
      apply list_elem_of_In. apply -> in_rev. apply list_elem_of_In. exact Hin. }
  apply trimStartChars_keeps in H1. destruct H1 as (d' & Hin & _).
  unfold truthy, trim.
  destruct (rev (trimStartChars (rev (trimStartChars (chars s))))) as [|x l] eqn:E.
  - apply (f_equal (@rev ascii)) in E. rewrite rev_involutive in E.
    rewrite E in Hin. apply elem_of_nil in Hin. contradiction.
  - reflexivity.
Qed.

(** ** Characters *)

Lemma letter_is_word c d :
  between 65 90 (code c) = true -> upperChar c = upperChar d ->
  isWordChar d = true /\ isWhiteSpace d = false.
Proof.
  intros Hc H.
  assert (Hup : upperChar c = c).
  { clear H. destruct c as [[] [] [] [] [] [] [] []]; vm_compute in Hc |- *;
      congruence. }
  rewrite Hup in H. subst c.
  destruct d as [[] [] [] [] [] [] [] []]; vm_compute in Hc |- *;
    (split; congruence).
Qed.

(** ** Pieces of a string *)

Lemma sliceChars_lookup l a b n :
  n < b - a -> sliceChars l a b !! n = l !! (a + n).
Proof.
  intros Hn. unfold sliceChars. rewrite lookup_take_lt by exact Hn.
  apply lookup_drop.
Qed.

Lemma split_at l i a b c :
  i <= a -> a <= b -> l !! b = Some c ->
  l = take i l ++ sliceChars l i a ++ sliceChars l a b ++ c :: drop (S b) l.
Proof.
  intros Hia Hab Hc. unfold sliceChars.
  rewrite <- (drop_S l c b Hc).
  assert (E1 : take (b - a) (drop a l) ++ drop b l = drop a l).
  { replace (drop b l) with (drop (b - a) (drop a l)); [apply take_drop|].
    rewrite drop_drop. f_equal. lia. }
  assert (E2 : take (a - i) (drop i l) ++ drop a l = drop i l).
  { replace (drop a l) with (drop (a - i) (drop i l)); [apply take_drop|].
    rewrite drop_drop. f_equal. lia. }
  rewrite E1, E2. symmetry. apply take_drop.
Qed.

(** ** What the patterns of the validator match *)

Section PatternFacts.
Variable ignoreCase : bool.
Variable input : list ascii.

Abbreviation Matches := (Matches ignoreCase input).

Lemma Matches_star_class p i c j c' :
  Matches (Star (Cls p)) i c j c' ->
  c' = c /\ i <= j /\
  forall x, i <= x < j -> exists d, input !! x = Some d /\ p d = true.
Proof.
  simpl. intros H. induction H as [i c|i c j c' k c'' H1 Hlt Hit IH].
  - repeat split; [lia|]. intros x Hx. lia.
  - destruct H1 as (d & Hd & Hp & -> & ->). simpl in IH.
    destruct IH as (-> & Hle & Hall). repeat split; [lia|].
    intros x Hx. destruct (decide (x = i)) as [->|Hne]; [eauto|].
    apply Hall. lia.
Qed.

Lemma Matches_plus_class p i c j c' :
  Matches (Plus (Cls p)) i c j c' ->
  c' = c /\ i < j /\
  forall x, i <= x < j -> exists d, input !! x = Some d /\ p d = true.
Proof.
  intros (m & cm & (d & Hd & Hp & -> & ->) & H).
  apply Matches_star_class in H. destruct H as (-> & Hle & Hall).
  repeat split; [lia|].
  intros x Hx. destruct (decide (x = i)) as [->|Hne]; [eauto|].
  apply Hall. lia.
Qed.

Lemma Matches_lit l :
  forall i c j c',
    Matches (lit l) i c j c' ->
    c' = c /\ j = i + length l /\
    forall n ch, l !! n = Some ch ->
                 exists d, input !! (i + n) = Some d /\
                           canonicalize ignoreCase ch = canonicalize ignoreCase d.
Proof.
  induction l as [|a l IH]; intros i c j c' H.
  - destruct H as (-> & ->). repeat split; [simpl; lia|].
    intros n ch Hn. rewrite lookup_nil in Hn. discriminate.
  - assert (Hcons : exists m cm,
               Matches (Chr a) i c m cm /\ Matches (lit l) m cm j c').
    { destruct l as [|b l]; [|exact H].
      exists j, c'. split; [exact H|]. simpl. auto. }
    destruct Hcons as (m & cm & (d & Hd & Hcan & -> & ->) & Hl).
    apply IH in Hl. destruct Hl as (-> & -> & Hall).
    repeat split; [simpl; lia|].
    intros [|n] ch Hn; simpl in Hn.
    + inversion Hn; subst ch. rewrite Nat.add_0_r. eauto.
    + apply Hall in Hn. replace (i + S n) with (S i + n) by lia. exact Hn.
Qed.

(** The tail of the table patterns starts with white space and the first
    character of the table name. *)
Lemma Matches_tableTail i c j c' :
  Matches tableTail i c j c' ->
  exists e d, i < e /\
    (forall x, i <= x < e -> exists a, input !! x = Some a /\ isWhiteSpace a = true) /\
    input !! e = Some d /\ isWordChar d = true.
Proof.
  intros (e & c1 & Hws & (m & c2 & (c3 & Hname & _) & _)).
  apply Matches_plus_class in Hws. destruct Hws as (-> & Hlt & Hall).
  apply Matches_plus_class in Hname. destruct Hname as (_ & Hlt' & Hw).
  destruct (Hw e ltac:(lia)) as (d & Hd & Hp).
  exists e, d. auto.
Qed.
End PatternFacts.

(** A keyword of the table patterns followed by their tail is a clause in
    the sense of [hasClause]. *)
Lemma clause_of_keyword s kw i c m c1 j c2 :
  Matches true (chars s) (word kw) i c m c1 ->
  Matches true (chars s) tableTail m c1 j c2 ->
  i <= length (chars s) ->
  exists k sp d rest,
    chars s = take i (chars s) ++ k ++ sp ++ d :: rest /\
    sameLetters (chars kw) k /\ sp <> [] /\
    Forall (fun x => isWhiteSpace x = true) sp /\ isWordChar d = true.
Proof.
  intros Hkw Htail Hi.
  apply Matches_lit in Hkw. destruct Hkw as (_ & -> & Hkw).
  apply Matches_tableTail in Htail.
  destruct Htail as (e & d & Hlt & Hws & Hd & Hw).
  set (a := i + length (chars kw)) in *.
  exists (sliceChars (chars s) i a), (sliceChars (chars s) a e), d,
         (drop (S e) (chars s)).
  assert (He : e < length (chars s)) by (eapply lookup_lt_Some; eauto).
  split; [apply split_at; [lia | lia | exact Hd]|].
  split; [|split; [|split; [|exact Hw]]].
  - apply Forall2_same_length_lookup_2.
    + rewrite length_sliceChars; lia.
    + intros n x y Hx Hy.
      assert (Hn : n < length (chars kw)) by (eapply lookup_lt_Some; eauto).
      rewrite sliceChars_lookup in Hy by lia.
      destruct (Hkw n x Hx) as (y' & Hy' & Hcan). simpl in Hcan. congruence.
  - intros E. apply (f_equal (@length ascii)) in E.
    rewrite length_sliceChars in E by lia. simpl in E. lia.
  - apply Forall_lookup_2. intros n x Hx.
    assert (Hn : n < e - a).
    { apply lookup_lt_Some in Hx. rewrite length_sliceChars in Hx; lia. }
    rewrite sliceChars_lookup in Hx by exact Hn.
    destruct (Hws (a + n) ltac:(lia)) as (x' & Hx' & Hp). congruence.
Qed.

Lemma keyword_first_letter s kw a rest i c m c1 :
  chars kw = a :: rest -> between 65 90 (code a) = true ->
  Matches true (chars s) (word kw) i c m c1 ->
  exists d, chars s !! i = Some d /\ isWordChar d = true /\ isWhiteSpace d = false.
Proof.
  intros Hkw Ha H. apply Matches_lit in H. destruct H as (_ & _ & H).
  destruct (H 0 a) as (d & Hd & Hcan); [rewrite Hkw; reflexivity|].
  rewrite Nat.add_0_r in Hd. simpl in Hcan.
  destruct (letter_is_word a d Ha Hcan). eauto.
Qed.

Lemma boundary_before_word input i d p :
  atWordBoundary input i = true -> input !! i = Some d -> isWordChar d = true ->
  last (take i input) = Some p -> isWordChar p = false.
Proof.
  intros Hb Hd Hw Hp. unfold atWordBoundary in Hb.
  assert (Hi : i < length input) by (eapply lookup_lt_Some; eauto).
  destruct i as [|i]; [rewrite take_0 in Hp; discriminate|].
  rewrite last_lookup, length_take_le in Hp by lia. simpl in Hp.
  rewrite lookup_take_lt in Hp by lia.
  unfold wordAt in Hb. rewrite Hd, Hw, Hp in Hb.
  destruct (isWordChar p); [discriminate | reflexivity].
Qed.

Lemma fromRegex_clause s m :
  MatchOf true fromRegex s m ->
  hasClause true "FROM" s /\ truthy (Some (trim s)) = true.
Proof.
  intros (_ & H).
  destruct H as (i & c & (Hb & -> & ->) & (j & c1 & Hkw & Htail)).
  destruct (keyword_first_letter s "FROM" "F" (chars "ROM") _ _ _ _ eq_refl eq_refl Hkw)
    as (d & Hd & Hw & Hns).
  split; [|eapply trim_truthy; eauto].
  destruct (clause_of_keyword s "FROM" _ _ _ _ _ _ Hkw Htail)
    as (k & sp & e & rest & Hsplit & Hk & Hsp & Hws & He).
  { apply lookup_lt_Some in Hd. lia. }
  exists (take (index m) (chars s)), k, sp, e, rest.
  repeat split; auto.
  intros _ p Hp. eapply boundary_before_word; eauto.
Qed.

Lemma joinRegex_clause s m :
  MatchOf true joinRegex s m ->
  hasClause false "JOIN" s /\ truthy (Some (trim s)) = true.
Proof.
  intros (_ & H).
  destruct H as (i & c & _ & (i1 & c1 & _ & (i2 & c2 & _ & (j & c3 & Hkw & Htail)))).
  destruct (keyword_first_letter s "JOIN" "J" (chars "OIN") _ _ _ _ eq_refl eq_refl Hkw)
    as (d & Hd & Hw & Hns).
  split; [|eapply trim_truthy; eauto].
  destruct (clause_of_keyword s "JOIN" _ _ _ _ _ _ Hkw Htail)
    as (k & sp & e & rest & Hsplit & Hk & Hsp & Hws & He).
  { apply lookup_lt_Some in Hd. lia. }
  exists (take i2 (chars s)), k, sp, e, rest.
  repeat split; auto. intros; discriminate.
Qed.

(** ** Tables and aliases *)

Section TableFacts.
Variable V : Vocabulary.

Lemma tableOfMatch_alias m a :
  alias (tableOfMatch V m) = Some a ->
  a <> EmptyString /\ toUpperCase a ∉ KEYWORDS_SET V.
Proof.
  unfold tableOfMatch.
  destruct (truthy (group m 2)) eqn:Hg; simpl; [|discriminate].
  destruct (group m 2) as [g|]; simpl in *; [|discriminate].
  destruct (negb (String.eqb (toLowerCase g) EmptyString)) eqn:Hne; simpl;
    [|discriminate].
  unfold has. case_bool_decide as Hin; simpl; [discriminate|].
  intros E. inversion E; subst a. split; [|exact Hin].
  intros E'. rewrite E' in Hne. discriminate.
Qed.

Lemma extractTablesWithAliases_alias query t a :
  t ∈ extractTablesWithAliases V query -> alias t = Some a ->
  a <> EmptyString /\ toUpperCase a ∉ KEYWORDS_SET V.
Proof.
  unfold extractTablesWithAliases. rewrite elem_of_app. intros Hin Ha.
  assert (Hm : exists m, t = tableOfMatch V m).
  { destruct Hin as [Hin|Hin]; apply list_elem_of_In, in_map_iff in Hin;
      destruct Hin as (m & <- & _); eauto. }
  destruct Hm as (m & ->). eapply tableOfMatch_alias; eauto.
Qed.

(** A query in which a table is found is not blank. *)
Lemma tables_found_not_blank query :
  extractTablesWithAliases V query <> [] -> truthy (Some (trim query)) = true.
Proof.
  unfold extractTablesWithAliases. intros Hne.
  destruct (execAll true fromRegex query) as [|m ms] eqn:Hf.
  - destruct (execAll true joinRegex query) as [|m ms] eqn:Hj;
      [contradiction|].
    apply (joinRegex_clause query m). apply execAll_MatchOf.
    rewrite Hj. left.
  - apply (fromRegex_clause query m). apply execAll_MatchOf.
    rewrite Hf. left.
Qed.
End TableFacts.

(** ** Column references *)

Lemma group_slice m n a b :
  captures m !! n = Some (a, b) -> a <= b -> b <= length (subject m) ->
  group m n = Some (str (sliceChars (subject m) a b)) /\
  String.length (group' m n) = b - a.
Proof.
  intros Hc Hab Hb. unfold group', group. rewrite Hc. simpl.
  split; [reflexivity|]. rewrite length_str. apply length_sliceChars; assumption.
Qed.

(** A match of the identifier pattern captures, as group 1, exactly the
    characters between its index and its end. *)
Lemma identifier_match s m :
  MatchOf false identifierRegex s m ->
  index m < stop m /\ stop m <= String.length s /\
  group' m 1 = slice s (index m) (stop m) /\
  String.length (group' m 1) = stop m - index m.
Proof.
  intros (Hsub & H).
  assert (Hb := Matches_bounds _ _ _ _ _ _ _ H).
  destruct H as (i & c & (_ & -> & ->) & (j & c1 & (c2 & Hid & ->) & (_ & Hj & Hc))).
  subst j.
  assert (Hlen : index m <= length (chars s)).
  { destruct Hid as (x & cx & (d & Hd & _) & _). apply lookup_lt_Some in Hd. lia. }
  apply Hb in Hlen. change (minLen identifierRegex) with 1 in Hlen.
  rewrite length_chars in Hlen.
  assert (Hcap : captures m !! 1 = Some (index m, stop m))
    by (rewrite Hc; apply lookup_insert_eq).
  destruct (group_slice m 1 _ _ Hcap) as (Hg & Hl);
    [lia | rewrite Hsub, length_chars; lia |].
  repeat split; [lia | lia | | exact Hl].
  unfold group'. rewrite Hg, Hsub. reflexivity.
Qed.

(** The qualifier found before a dot is not empty. *)
Lemma qualifier_match s m :
  matchOnce false qualifierRegex s = Some m -> group' m 1 <> EmptyString.
Proof.
  unfold matchOnce. intros H. apply exec_sound in H.
  destruct H as ((Hsub & H) & _ & Hi).
  assert (Hb := Matches_bounds _ _ _ _ _ _ _ H Hi).
  destruct H as (e & c & (c1 & Hw & ->) & (j & c2 & Hws & (_ & _ & Hcaps))).
  assert (Hwb := Matches_bounds _ _ _ _ _ _ _ Hw Hi).
  apply Matches_star_class in Hws. destruct Hws as (Hc & Hle & _).
  assert (Hcap : captures m !! 1 = Some (index m, e))
    by (rewrite Hcaps, Hc; apply lookup_insert_eq).
  simpl in Hwb.
  destruct (group_slice m 1 _ _ Hcap) as (_ & Hl); [lia | rewrite Hsub; lia |].
  intros E. rewrite E in Hl. simpl in Hl. lia.
Qed.

Section ReferenceFacts.
Variable V : Vocabulary.

Lemma referenceOfMatch_Some query tables m r :
  referenceOfMatch V query tables m = Some r ->
  isInStringLiteral query (index m) = false /\
  ref_position r = index m /\
  ref_name r = toLowerCase (group' m 1) /\
  ref_endPosition r = index m + String.length (group' m 1) /\
  forall t, ref_table r = Some t -> t <> EmptyString.
Proof.
  unfold referenceOfMatch.
  destruct (isInStringLiteral query (index m)); [discriminate|].
  destruct (has (skipPositions V query) _); [discriminate|].
  destruct (has (KEYWORDS_SET V) _); [discriminate|].
  destruct (has (FUNCTIONS_SET V) _); [discriminate|].
  destruct (test false numeralRegex _); [discriminate|].
  destruct (match index m with 0 => false | S b => charIs isDot (chars query) b end).
  - destruct (matchOnce false qualifierRegex _) as [tm|] eqn:Htm; [|discriminate].
    intros E. inversion E; subst r; simpl. repeat split.
    intros t Ht. inversion Ht; subst t. intros E0.
    apply qualifier_match in Htm. apply Htm.
    apply (f_equal String.length) in E0. rewrite length_toLowerCase in E0.
    destruct (group' tm 1); [reflexivity | discriminate].
  - destruct (_ && _); [discriminate|].
    destruct (has (tableAndAliasNames tables) _); [discriminate|].
    intros E. inversion E; subst r; simpl. repeat split. intros t Ht. discriminate.
Qed.

Lemma extractColumnReferences_inv query tables r :
  r ∈ extractColumnReferences V query tables ->
  exists m, MatchOf false identifierRegex query m /\
            referenceOfMatch V query tables m = Some r.
Proof.
  unfold extractColumnReferences. rewrite list_elem_of_omap.
  intros (m & Hin & Hr). exists m. split; [|exact Hr].
  apply execAll_MatchOf. exact Hin.
Qed.

Lemma validateReference_Some tables schema r d :
  validateReference tables schema r = Some d ->
  position d = ref_position r /\ endPosition d = ref_endPosition r /\
  severity d = error.
Proof.
  unfold validateReference.
  repeat match goal with
         | |- context [if ?b then _ else _] => destruct b
         end; intros E; inversion E; subst d; simpl; auto.
Qed.

Lemma validateColumns_from_reference query schema d :
  d ∈ validateColumns V query schema ->
  exists r, r ∈ extractColumnReferences V query (extractTablesWithAliases V query) /\
            validateReference (extractTablesWithAliases V query) schema r = Some d.
Proof.
  unfold validateColumns.
  destruct (negb (truthy (Some (trim query)))).
  { intros H. apply elem_of_nil in H. contradiction. }
  destruct (length (extractTablesWithAliases V query) =? 0).
  { intros H. apply elem_of_nil in H. contradiction. }
  unfold validateReferences. rewrite list_elem_of_omap. auto.
Qed.

(** When a table is found, validation is the loop over the references. *)
Lemma validateColumns_unfold query schema :
  extractTablesWithAliases V query <> [] ->
  validateColumns V query schema =
  validateReferences (extractTablesWithAliases V query) schema
    (extractColumnReferences V query (extractTablesWithAliases V query)).
Proof.
  intros Hne. unfold validateColumns.
  rewrite (tables_found_not_blank V query Hne). simpl.
  destruct (extractTablesWithAliases V query); [contradiction | reflexivity].
Qed.

Lemma validateReferences_split tables schema pre r post :
  validateReferences tables schema (pre ++ r :: post) =
  validateReferences tables schema pre ++
  option_list (validateReference tables schema r) ++
  validateReferences tables schema post.
Proof.
  unfold validateReferences. rewrite omap_app. simpl.
  destruct (validateReference tables schema r); reflexivity.
Qed.
End ReferenceFacts.

(** ** The schema *)

Lemma elem_of_fold_union {A : Type} (f : A -> gset string) (l : list A) :
  forall (init : gset string) (x : string),
    x ∈ fold_left (fun acc y => acc ∪ f y) l init <->
    x ∈ init \/ exists y, y ∈ l /\ x ∈ f y.
Proof.
  induction l as [|a l IH]; intros init x; simpl.
  - split; [auto|]. intros [H|(y & Hy & _)]; [exact H|].
    apply elem_of_nil in Hy. contradiction.
  - rewrite IH, elem_of_union. split.
    + intros [[H|H]|(y & Hy & Hx)]; [auto| |].
      * right. exists a. split; [left | exact H].
      * right. exists y. split; [right; exact Hy | exact Hx].
    + intros [H|(y & Hy & Hx)]; [auto|].
      apply elem_of_cons in Hy. destruct Hy as [->|Hy]; [auto|].
      right. eauto.
Qed.

Lemma elem_of_getTableColumns name schema x :
  x ∈ getTableColumns name schema <-> x ∈ columnNamesOf name schema.
Proof.
  unfold getTableColumns, columnNamesOf. destruct (findTable name schema) as [T|].
  - rewrite (elem_of_fold_union (fun col => {[toLowerCase (col_name col)]})).
    rewrite list_elem_of_In, in_map_iff. split.
    + intros [H|(c & Hc & Hx)]; [apply not_elem_of_empty in H; contradiction|].
      apply elem_of_singleton in Hx. exists c. split; [auto|].
      apply list_elem_of_In. exact Hc.
    + intros (c & Hx & Hc). right. exists c.
      split; [apply list_elem_of_In; exact Hc|]. apply elem_of_singleton. auto.
  - split; intros H; [apply not_elem_of_empty in H | apply elem_of_nil in H];
      contradiction.
Qed.

Lemma elem_of_getAllColumnsInScope tables schema x :
  x ∈ getAllColumnsInScope tables schema <-> x ∈ columnsInScope tables schema.
Proof.
  unfold getAllColumnsInScope, columnsInScope.
  rewrite (elem_of_fold_union (fun t => getTableColumns (tableName t) schema)).
  rewrite list_elem_of_In, in_flat_map. split.
  - intros [H|(t & Ht & Hx)]; [apply not_elem_of_empty in H; contradiction|].
    exists t. split; [apply list_elem_of_In; exact Ht|].
    apply list_elem_of_In, elem_of_getTableColumns. exact Hx.
  - intros (t & Ht & Hx). right. exists t.
    split; [apply list_elem_of_In; exact Ht|].
    apply elem_of_getTableColumns, list_elem_of_In. exact Hx.
Qed.

Lemma columnNamesOf_distinct_names name schema :
  NoDup (map (fun T => toLowerCase (tbl_name T)) (tables schema)) ->
  columnNamesOf name schema = columnNamesOfAll name schema.
Proof.
  unfold columnNamesOf, columnNamesOfAll, findTable. fold (sameName name).
  induction (tables schema) as [|T l IH]; intros Hnd; simpl; [reflexivity|].
  apply NoDup_cons in Hnd. destruct Hnd as (Hnotin & Hnd).
  destruct (sameName name T) eqn:HT.
  - assert (Hrest : flat_map (fun T0 => if sameName name T0
                                        then map (fun c => toLowerCase (col_name c))
                                                 (columns T0)
                                        else []) l = []).
    { clear IH Hnd. induction l as [|U l IHl]; simpl; [reflexivity|].
      rewrite not_elem_of_cons in Hnotin. destruct Hnotin as (Hne & Hnotin).
      destruct (sameName name U) eqn:HU.
      + exfalso. apply Hne. unfold sameName in HT, HU.
        apply String.eqb_eq in HT, HU. congruence.
      + apply IHl. exact Hnotin. }
    rewrite Hrest, app_nil_r. reflexivity.
  - apply IH. exact Hnd.
Qed.

Lemma tableExistsInSchema_false name schema :
  Forall (fun T => toLowerCase (tbl_name T) <> toLowerCase name) (tables schema) ->
  tableExistsInSchema name schema = false.
Proof.
  unfold tableExistsInSchema. induction 1 as [|T l HT _ IH]; simpl; [reflexivity|].
  rewrite IH, orb_false_r. apply String.eqb_neq. exact HT.
Qed.

(** ** The alias map *)

Lemma buildAliasMap_writes tables :
  buildAliasMap tables = fold_left write (aliasWrites tables) ∅.
Proof.
  unfold buildAliasMap, aliasWrites. generalize (∅ : gmap string string).
  induction tables as [|t tables IH]; intros map; simpl; [reflexivity|].
  rewrite IH. unfold truthy.
  destruct (alias t) as [a|]; simpl; [|reflexivity].
  destruct (String.eqb a EmptyString); reflexivity.
Qed.

Lemma lookup_writes (l : list (string * string)) :
  forall (map : gmap string string) (k : string),
    fold_left write l map !! k =
    match last (filter (fun p => p.1 = k) l) with
    | Some p => Some p.2
    | None => map !! k
    end.
Proof.
  induction l as [|p l IH]; intros map k; simpl; [reflexivity|].
  rewrite IH, filter_cons. unfold write.
  destruct (decide (p.1 = k)) as [E|E].
  - destruct (filter (fun p => p.1 = k) l) as [|q l'] eqn:Hf.
    + simpl. rewrite E. apply lookup_insert_eq.
    + change (last (p :: q :: l')) with (last (q :: l')).
      destruct (last (q :: l')) eqn:Hl; [reflexivity|].
      apply last_None in Hl. discriminate.
  - destruct (last (filter (fun p => p.1 = k) l)); [reflexivity|].
    apply lookup_insert_ne. exact E.
Qed.

Lemma written_key_present found k v :
  (k, v) ∈ aliasWrites found -> is_Some (buildAliasMap found !! k).
Proof.
  intros Hin. rewrite buildAliasMap_writes, lookup_writes.
  destruct (last (filter (fun p => p.1 = k) (aliasWrites found))) as [p|] eqn:Hl;
    [eauto|].
  apply last_None in Hl.
  assert (Hf : (k, v) ∈ filter (fun p : string * string => p.1 = k) (aliasWrites found))
    by (apply list_elem_of_filter; split; [reflexivity | exact Hin]).
  rewrite Hl in Hf. apply elem_of_nil in Hf. contradiction.
Qed.

Lemma toUpperCase_toLowerCase s : toUpperCase (toLowerCase s) = toUpperCase s.
Proof.
  unfold toUpperCase, toLowerCase. rewrite chars_str. f_equal.
  induction (chars s) as [|c l IH]; [reflexivity|].
  cbn [flat_map map]. rewrite IH. f_equal.
  destruct c as [[] [] [] [] [] [] [] []]; reflexivity.
Qed.

Lemma elem_of_KEYWORDS_SET kws fns x :
  x ∈ KEYWORDS_SET (loadVocabulary kws fns) <-> exists k, k ∈ kws /\ toUpperCase k = x.
Proof.
  simpl. rewrite elem_of_list_to_set, list_elem_of_In, in_map_iff.
  split; intros (k & H1 & H2); exists k.
  - split; [apply list_elem_of_In; exact H2 | exact H1].
  - split; [exact H2 | apply list_elem_of_In; exact H1].
Qed.

(* ===================================================================== *)
(** * The properties of the specification *)
(* ===================================================================== *)

(** What the loop of [validateColumns] makes of an unqualified reference
    when at least one table of the query is known to the schema: exactly one
    diagnostic if its name is not among the columns that the code looks at
    ([columnsInScope]: for each table of the query, the columns of the first
    table of the schema with that name up to letter case), and none if it is.
    The diagnostic has severity [error], the message
    [Unknown column "<name>"], and a hint that lists the known tables, each
    by its alias if it has one and by its table name otherwise, joined with
    commas, after the word [table] when exactly one table is known and
    [tables] otherwise. *)
Theorem unqualified_reference_diagnostic
        (V : Vocabulary) (query : string) (schema : DatabaseSchema)
        (pre post : list ColumnReference) (ref : ColumnReference) :
  let tables := extractTablesWithAliases V query in
  let known := filter (fun t => tableExistsInSchema (tableName t) schema) tables in
  known <> [] ->
  extractColumnReferences V query tables = pre ++ ref :: post ->
  ref_table ref = None ->
  validateColumns V query schema =
  validateReferences tables schema pre ++
  (if decide (ref_name ref ∈ columnsInScope tables schema) then []
   else [ {| message := ("Unknown column " ++ dq ++ ref_name ref ++ dq)%string;
             position := ref_position ref;
             endPosition := ref_endPosition ref;
             severity := error;
             hint := Some (dq ++ ref_name ref ++ dq ++ " not found in " ++
                           match known with [_] => "table" | _ => "tables" end ++
                           ": " ++ join ", " (map displayName known))%string |} ]) ++
  validateReferences tables schema post.
Proof.
  intros tables known Hknown Hrefs Hnone.
  assert (Htables : tables <> []).
  { intros E. apply Hknown. unfold known. rewrite E. reflexivity. }
  rewrite (validateColumns_unfold V query schema Htables).
  fold tables. rewrite Hrefs, validateReferences_split. f_equal. f_equal.
  unfold validateReference. rewrite Hnone. simpl truthy. cbv iota.
  unfold has. fold known.
  destruct (decide (ref_name ref ∈ columnsInScope tables schema)) as [Hin|Hin].
  - rewrite bool_decide_eq_true_2 by (apply elem_of_getAllColumnsInScope; exact Hin).
    reflexivity.
  - rewrite bool_decide_eq_false_2
      by (rewrite elem_of_getAllColumnsInScope; exact Hin).
    simpl negb. cbv iota.
    assert (Hdisplay :
              map (fun t => if truthy (alias t) then default EmptyString (alias t)
                            else tableName t) known = map displayName known).
    { apply map_ext_in. intros t Ht. apply list_elem_of_In in Ht.
      apply list_elem_of_filter in Ht. destruct Ht as (_ & Ht).
      unfold displayName. destruct (alias t) as [a|] eqn:Ha; [|reflexivity].
      destruct (extractTablesWithAliases_alias V query t a Ht Ha) as (Hne & _).
      simpl. apply String.eqb_neq in Hne. rewrite Hne. reflexivity. }
    rewrite Hdisplay.
    destruct known as [|t1 [|t2 known']]; [contradiction | reflexivity | reflexivity].
Qed.

(** C1.  The claim holds of the columns that the code looks at, and fails
    of the columns of the in-scope tables where two tables of the schema have
    the same name up to letter case: [getTableColumns] takes the first of
    them.  With the tables [Orders] (column [id]) and [orders] (column
    [total]), the only table of [SELECT total FROM orders] is [orders], which
    has the column [total]; yet [total] is reported. *)
Theorem shadowed_table_column_reported :
  extractTablesWithAliases sampleVocabulary shadowQuery =
  [ {| tableName := "orders"; alias := None |} ] /\
  (exists table, table ∈ tables shadowedSchema /\ tbl_name table = "orders"%string /\
                 "total"%string ∈ map col_name (columns table)) /\
  validateColumns sampleVocabulary shadowQuery shadowedSchema =
  [ {| message := ("Unknown column " ++ dq ++ "total" ++ dq)%string;
       position := 7; endPosition := 12; severity := error;
       hint := Some (dq ++ "total" ++ dq ++ " not found in table: orders")%string |} ].
Proof.
  split; [vm_compute; reflexivity|]. split; [|vm_compute; reflexivity].
  exists (mkTable "orders" ["total"%string]).
  split; [right; left | split; [reflexivity | left]].
Qed.

(** ** The table clauses of the text *)

Lemma lettersAtHead_lookup kw :
  forall l,
    (forall n ch, kw !! n = Some ch ->
                  exists d, l !! n = Some d /\ upperChar ch = upperChar d) ->
    lettersAtHead kw l = true.
Proof.
  induction kw as [|a kw IH]; intros l H; [reflexivity|].
  destruct (H 0 a eq_refl) as (d & Hd & Hup).
  destruct l as [|b l]; [discriminate|]. simpl in Hd. inversion Hd; subst d.
  simpl. rewrite Hup, Ascii.eqb_refl. apply IH.
  intros n ch Hn. exact (H (S n) ch Hn).
Qed.

Lemma white_space_is_no_word_char c : isWhiteSpace c = true -> isWordChar c = false.
Proof.
  destruct c as [[] [] [] [] [] [] [] []]; vm_compute; intros H;
    first [reflexivity | discriminate H].
Qed.

Lemma word_is_no_white_space c : isWordChar c = true -> isWhiteSpace c = false.
Proof.
  destruct c as [[] [] [] [] [] [] [] []]; vm_compute; intros H;
    first [reflexivity | discriminate H].
Qed.

Lemma trimStartChars_drop (l : list ascii) d :
  forall n m e,
    e = m + n ->
    (forall x, m <= x < e -> exists a, l !! x = Some a /\ isWhiteSpace a = true) ->
    l !! e = Some d -> isWhiteSpace d = false ->
    trimStartChars (drop m l) = drop e l.
Proof.
  induction n as [|n IH]; intros m e -> Hws Hd Hnw.
  - rewrite Nat.add_0_r in *. rewrite (drop_S l d m Hd). simpl. rewrite Hnw.
    reflexivity.
  - destruct (Hws m ltac:(lia)) as (a & Ha & Hwa).
    rewrite (drop_S l a m Ha). simpl. rewrite Hwa.
    apply (IH (S m)); [lia | | exact Hd | exact Hnw].
    intros x Hx. apply Hws. lia.
Qed.

(** A keyword of the table patterns followed by their tail stands in the
    text in the sense of [keywordAt]. *)
Lemma keywordAt_of_match s kw i c m c1 j c2 :
  Matches true (chars s) (word kw) i c m c1 ->
  Matches true (chars s) tableTail m c1 j c2 ->
  m = i + String.length kw /\ keywordAt kw s i = true.
Proof.
  intros Hkw Htail. unfold word in Hkw.
  apply Matches_lit in Hkw. destruct Hkw as (_ & -> & Hkw).
  apply Matches_tableTail in Htail.
  destruct Htail as (e & d & Hlt & Hws & Hd & Hw).
  rewrite length_chars in *. split; [reflexivity|].
  unfold keywordAt. apply andb_true_iff. split.
  - apply lettersAtHead_lookup. intros n ch Hn.
    destruct (Hkw n ch Hn) as (d' & Hd' & Hcan).
    exists d'. rewrite lookup_drop. split; [exact Hd' | exact Hcan].
  - cbv zeta. rewrite drop_drop.
    assert (Ht : trimStartChars (drop (i + String.length kw) (chars s)) =
                 drop e (chars s)).
    { apply (trimStartChars_drop (chars s) d (e - (i + String.length kw)));
        [lia | exact Hws | exact Hd | apply word_is_no_white_space; exact Hw]. }
    destruct (Hws (i + String.length kw) ltac:(lia)) as (a & Ha & Hwa).
    rewrite (drop_S _ _ _ Ha) in Ht |- *. rewrite Ht, (drop_S _ _ _ Hd), Hwa, Hw.
    reflexivity.
Qed.

Lemma keywordAt_word s kw a rest i :
  chars kw = a :: rest -> between 65 90 (code a) = true ->
  keywordAt kw s i = true ->
  i < String.length s /\ wordAt (chars s) i = true.
Proof.
  intros Hkw Ha H. unfold keywordAt in H. apply andb_true_iff in H.
  destruct H as (H & _). rewrite Hkw in H.
  destruct (drop i (chars s)) as [|b l] eqn:Hdrop; [discriminate|].
  simpl in H. apply andb_true_iff in H. destruct H as (H & _).
  apply Ascii.eqb_eq in H.
  assert (Hb : chars s !! i = Some b).
  { rewrite <- (Nat.add_0_r i), <- lookup_drop, Hdrop. reflexivity. }
  split.
  - rewrite <- length_chars. eapply lookup_lt_Some; eauto.
  - unfold wordAt. rewrite Hb. apply (letter_is_word a b Ha H).
Qed.

Lemma fromRegex_clauseAt s m :
  MatchOf true fromRegex s m ->
  index m < String.length s /\ fromClauseAt s (index m) = true.
Proof.
  intros (_ & H).
  destruct H as (i & c & (Hb & -> & ->) & (j & c1 & Hkw & Htail)).
  destruct (keywordAt_of_match _ _ _ _ _ _ _ _ Hkw Htail) as (_ & Hat).
  destruct (keywordAt_word s "FROM" "F" (chars "ROM") _ eq_refl eq_refl Hat)
    as (Hlt & _).
  split; [exact Hlt|]. unfold fromClauseAt. rewrite Hb, Hat. reflexivity.
Qed.

Lemma joinRegex_clauseAt s m :
  MatchOf true joinRegex s m ->
  exists i, i < String.length s /\ joinClauseAt s i = true.
Proof.
  intros (_ & H).
  destruct H as (p & c & (Hb & -> & ->) &
                 (i1 & c1 & Hopt & (i2 & c2 & Hws & (j & c3 & Hkw & Htail)))).
  destruct (keywordAt_of_match _ _ _ _ _ _ _ _ Hkw Htail) as (_ & Hat).
  destruct (keywordAt_word s "JOIN" "J" (chars "OIN") _ eq_refl eq_refl Hat)
    as (Hlt & Hword).
  exists i2. split; [exact Hlt|].
  unfold joinClauseAt. rewrite Hat. cbn [andb].
  apply Matches_star_class in Hws. destruct Hws as (_ & Hle & Hspace).
  destruct (decide (i1 = i2)) as [<-|Hne].
  - destruct Hopt as [(Hprefix & Hlt1)|(-> & _)];
      [|rewrite Hb; reflexivity].
    apply orb_true_iff. right.
    assert (Hone : exists kw c0, kw ∈ joinPrefixes /\
                                 Matches true (chars s) (word kw) (index m) c0 i1 c1).
    { unfold joinPrefixes.
      destruct Hprefix as [H|[H|[H|[H|[H|H]]]]]; eexists; eexists;
        (split; [|exact H]); repeat first [left | right]. }
    destruct Hone as (kw & c0 & Hin & Hmatch).
    unfold word in Hmatch. apply Matches_lit in Hmatch.
    destruct Hmatch as (_ & -> & Hletters). rewrite length_chars in *.
    apply existsb_exists. exists kw. split; [apply list_elem_of_In; exact Hin|].
    replace (index m + String.length kw - String.length kw) with (index m) by lia.
    rewrite Hb, andb_true_r. apply andb_true_iff. split; [apply Nat.leb_le; lia|].
    apply lettersAtHead_lookup. intros n ch Hn.
    destruct (Hletters n ch Hn) as (d & Hd & Hcan).
    exists d. rewrite lookup_drop. split; [exact Hd | exact Hcan].
  - apply orb_true_iff. left.
    destruct i2 as [|before]; [lia|].
    destruct (Hspace before ltac:(lia)) as (a & Ha & Hwa).
    unfold atWordBoundary. unfold wordAt at 1. rewrite Ha.
    rewrite (white_space_is_no_word_char a Hwa), Hword. reflexivity.
Qed.

Lemma no_table_clause_no_tables V query :
  hasTableClause query = false -> extractTablesWithAliases V query = [].
Proof.
  intros Hno.
  assert (Hat : forall i, i < String.length query -> tableClauseAt query i = false).
  { intros i Hi. destruct (tableClauseAt query i) eqn:E; [|reflexivity].
    unfold hasTableClause in Hno.
    assert (Hex : existsb (tableClauseAt query) (seq 0 (String.length query)) = true).
    { apply existsb_exists. exists i. split; [|exact E]. apply in_seq. lia. }
    congruence. }
  unfold extractTablesWithAliases.
  destruct (execAll true fromRegex query) as [|m ms] eqn:Ef.
  - destruct (execAll true joinRegex query) as [|m ms] eqn:Ej; [reflexivity|].
    exfalso. destruct (joinRegex_clauseAt query m) as (i & Hi & Hjoin).
    { apply execAll_MatchOf. rewrite Ej. left. }
    specialize (Hat i Hi). unfold tableClauseAt in Hat.
    rewrite Hjoin, orb_true_r in Hat. discriminate.
  - exfalso. destruct (fromRegex_clauseAt query m) as (Hi & Hfrom).
    { apply execAll_MatchOf. rewrite Ef. left. }
    specialize (Hat _ Hi). unfold tableClauseAt in Hat.
    rewrite Hfrom in Hat. discriminate.
Qed.

(** C2.  A query whose text has no table clause gets the empty list of
    diagnostics, for every schema.  The clauses are those of the text,
    string literals included: the word FROM, or JOIN as a word or right
    after one of the words LEFT, RIGHT, INNER, OUTER, FULL and CROSS, in any
    letter case, followed by white space and a character of a name. *)
Theorem no_table_clause_no_diagnostics
        (V : Vocabulary) (query : string) (schema : DatabaseSchema) :
  hasTableClause query = false ->
  validateColumns V query schema = [].
Proof.
  intros Hno. unfold validateColumns.
  destruct (negb (truthy (Some (trim query)))); [reflexivity|].
  rewrite (no_table_clause_no_tables V query Hno). reflexivity.
Qed.

(** A query without FROM clause and without JOIN clause whose list of
    diagnostics is not empty: its only FROM stands inside a string literal,
    where the scan of the table clauses finds it and takes [orders] for a
    table of the query. *)
Lemma from_inside_a_literal_is_a_clause :
  hasTableClauseOutsideLiterals literalFromQuery = false /\
  hasTableClause literalFromQuery = true /\
  validateColumns sampleVocabulary literalFromQuery sampleSchema =
  [ {| message := ("Unknown column " ++ dq ++ "bogus" ++ dq)%string;
       position := 24; endPosition := 29; severity := error;
       hint := Some (dq ++ "bogus" ++ dq ++ " not found in table: orders")%string |} ].
Proof. vm_compute. repeat split. Qed.

(** C3.  A qualified column reference whose qualifier is not a key of the
    alias map, or resolves to a table name that no table of the schema has
    (up to letter case), is skipped: it contributes no diagnostic to the
    result of [validateColumns]. *)
Theorem unresolved_qualifier_skipped
        (V : Vocabulary) (query : string) (schema : DatabaseSchema)
        (pre post : list ColumnReference) (ref : ColumnReference) (qualifier : string) :
  let found := extractTablesWithAliases V query in
  extractColumnReferences V query found = pre ++ ref :: post ->
  ref_table ref = Some qualifier ->
  (buildAliasMap found !! qualifier = None \/
   exists actual,
     buildAliasMap found !! qualifier = Some actual /\
     Forall (fun T => toLowerCase (tbl_name T) <> toLowerCase actual) (tables schema)) ->
  validateReference found schema ref = None /\
  validateColumns V query schema =
  match found with
  | [] => []
  | _ => validateReferences found schema pre ++ validateReferences found schema post
  end.
Proof.
  intros found Hrefs Hq Hres.
  assert (Hskip : validateReference found schema ref = None).
  { assert (Hin : ref ∈ extractColumnReferences V query found).
    { rewrite Hrefs. apply elem_of_app. right. left. }
    apply extractColumnReferences_inv in Hin. destruct Hin as (m & _ & Hm).
    apply referenceOfMatch_Some in Hm. destruct Hm as (_ & _ & _ & _ & Hne).
    specialize (Hne qualifier Hq). apply String.eqb_neq in Hne.
    unfold validateReference. rewrite Hq. simpl. rewrite Hne. simpl.
    destruct Hres as [Hnone|(actual & Hsome & Habsent)].
    - rewrite Hnone. reflexivity.
    - rewrite Hsome. simpl.
      destruct (negb (negb (String.eqb actual EmptyString))); [reflexivity|].
      rewrite (tableExistsInSchema_false actual schema Habsent). reflexivity. }
  split; [exact Hskip|].
  destruct found as [|t0 found'] eqn:Hfound.
  - unfold validateColumns. fold found. rewrite Hfound.
    destruct (negb (truthy (Some (trim query)))); reflexivity.
  - rewrite validateColumns_unfold by (fold found; rewrite Hfound; discriminate).
    fold found. rewrite Hfound, Hrefs, validateReferences_split, Hskip.
    reflexivity.
Qed.

(** C4.  An identifier whose start offset lies inside a single-quoted string
    literal (as [isInStringLiteral] scans it: a doubled quote does not toggle
    the state) is never emitted as a column reference, and no diagnostic
    starts at it. *)
Theorem string_literal_masking
        (V : Vocabulary) (query : string) (found : list TableAlias)
        (schema : DatabaseSchema) (offset : nat) :
  isInStringLiteral query offset = true ->
  (forall r, r ∈ extractColumnReferences V query found -> ref_position r <> offset) /\
  (forall d, d ∈ validateColumns V query schema -> position d <> offset).
Proof.
  intros Hin.
  assert (Hrefs : forall tbls r, r ∈ extractColumnReferences V query tbls ->
                                 ref_position r <> offset).
  { intros tbls r Hr. apply extractColumnReferences_inv in Hr.
    destruct Hr as (m & _ & Hm). apply referenceOfMatch_Some in Hm.
    destruct Hm as (Hout & Hpos & _). congruence. }
  split; [apply Hrefs|].
  intros d Hd. apply validateColumns_from_reference in Hd.
  destruct Hd as (r & Hr & Hv). apply validateReference_Some in Hv.
  destruct Hv as (Hpos & _). rewrite Hpos. eapply Hrefs; eauto.
Qed.


(** C6.  Every pair produced by the table/alias extractor has no alias, or
    an alias that is no keyword of the vocabulary, whatever the letter case.
    When the second identifier captured after FROM or JOIN is a keyword, the
    pair has no alias: with WHERE a keyword, [FROM users WHERE ...] gives the
    pair (users, no alias). *)
Theorem alias_is_never_a_keyword (SQL_KEYWORDS SQL_FUNCTIONS : list string) :
  let V := loadVocabulary SQL_KEYWORDS SQL_FUNCTIONS in
  (forall query t a k,
      t ∈ extractTablesWithAliases V query -> alias t = Some a ->
      k ∈ SQL_KEYWORDS -> toUpperCase k <> toUpperCase a) /\
  (forall m second k,
      group m 2 = Some second -> k ∈ SQL_KEYWORDS ->
      toUpperCase k = toUpperCase second ->
      alias (tableOfMatch V m) = None) /\
  ("WHERE"%string ∈ SQL_KEYWORDS ->
   extractTablesWithAliases V whereQuery = [ {| tableName := "users"; alias := None |} ]).
Proof.
  intros V. split; [|split].
  - intros query t a k Ht Ha Hk E.
    destruct (extractTablesWithAliases_alias V query t a Ht Ha) as (_ & Hnot).
    apply Hnot. apply elem_of_KEYWORDS_SET. eauto.
  - intros m second k Hg Hk E.
    destruct (alias (tableOfMatch V m)) as [a|] eqn:Ha; [|reflexivity].
    exfalso. pose proof (tableOfMatch_alias V m a Ha) as (_ & Hnot).
    apply Hnot. apply elem_of_KEYWORDS_SET. exists k. split; [exact Hk|].
    unfold tableOfMatch in Ha. rewrite Hg in Ha. simpl in Ha.
    destruct (negb (String.eqb second EmptyString)); simpl in Ha;
      [|discriminate].
    destruct (_ && _); simpl in Ha; [|discriminate].
    inversion Ha. rewrite toUpperCase_toLowerCase. exact E.
  - intros Hwhere. unfold extractTablesWithAliases.
    assert (Hfrom : map (fun m => (group' m 1, group m 2))
                        (execAll true fromRegex whereQuery) =
                    [("users", Some "WHERE")]%string) by (vm_compute; reflexivity).
    assert (Hjoin : execAll true joinRegex whereQuery = [])
      by (vm_compute; reflexivity).
    rewrite Hjoin.
    destruct (execAll true fromRegex whereQuery) as [|m [|m' ms]];
      cbn [map] in Hfrom; try discriminate.
    inversion Hfrom as [[H1 H2]]. cbn [map app]. f_equal.
    unfold tableOfMatch. rewrite H1, H2. simpl truthy. simpl fmap.
    unfold has. rewrite bool_decide_eq_true_2; [reflexivity|].
    apply elem_of_KEYWORDS_SET. exists "WHERE"%string. split; [exact Hwhere|].
    vm_compute. reflexivity.
Qed.

(** C7.  The alias map has every table name and every alias of the list as
    a key, and holds under each key the value of the last write under that
    key, where every table is written under its own name and every aliased
    table then also under its alias, to its table name: a later write
    overrides an earlier one.  An alias that is the name of an earlier table
    so makes that name resolve to the aliased table, not to itself. *)
Theorem alias_map_last_write_wins :
  (forall (found : list TableAlias) (key : string),
      buildAliasMap found !! key =
      snd <$> last (filter (fun p => p.1 = key) (aliasWrites found))) /\
  (forall (before after : list TableAlias) (t : TableAlias),
      is_Some (buildAliasMap (before ++ t :: after) !! tableName t)) /\
  (forall (before after : list TableAlias) (name : string) (c : ascii) (a : string),
      is_Some (buildAliasMap
                 (before ++ {| tableName := name; alias := Some (String c a) |} :: after)
                 !! String c a)) /\
  buildAliasMap [ {| tableName := "users"; alias := None |};
                  {| tableName := "orders"; alias := Some "users" |} ]%string
    !! "users"%string = Some "orders"%string.
Proof.
  split; [|split; [|split]].
  - intros found key. rewrite buildAliasMap_writes, lookup_writes.
    destruct (last _); simpl; [reflexivity | apply lookup_empty].
  - intros before after t. apply (written_key_present _ _ (tableName t)).
    unfold aliasWrites. apply list_elem_of_In, in_flat_map. exists t.
    split; [apply in_or_app; right; left; reflexivity | left; reflexivity].
  - intros before after name c a. apply (written_key_present _ _ name).
    unfold aliasWrites. apply list_elem_of_In, in_flat_map.
    eexists. split; [apply in_or_app; right; left; reflexivity|].
    simpl. right. left. reflexivity.
  - vm_compute. reflexivity.
Qed.

(** C8.  A query that is empty once trimmed of white space gets the empty
    list of diagnostics, for every schema. *)
Theorem blank_query_no_diagnostics
        (V : Vocabulary) (query : string) (schema : DatabaseSchema) :
  trim query = EmptyString -> validateColumns V query schema = [].
Proof.
  intros Hblank. unfold validateColumns. rewrite Hblank. reflexivity.
Qed.

(** ** The validator on the heap *)

Lemma grow_nil h : Js.grow h [] = h.
Proof. destruct h. unfold Js.grow. simpl. rewrite app_nil_r. reflexivity. Qed.

Lemma grow_grow h a b : Js.grow (Js.grow h a) b = Js.grow h (a ++ b).
Proof. unfold Js.grow. simpl. rewrite app_assoc. reflexivity. Qed.

Lemma returns_ret {A : Type} (a : A) V : Js.returns (Js.ret a) V a.
Proof. intros h _. exists []. rewrite grow_nil. reflexivity. Qed.

Lemma returns_bind {A B : Type} (m : Js.Run A) (f : A -> Js.Run B) V a b :
  Js.returns m V a -> Js.returns (f a) V b -> Js.returns (Js.bind m f) V b.
Proof.
  intros Hm Hf h HV. destruct (Hm h HV) as (c1 & E1).
  destruct (Hf (Js.grow h c1) HV) as (c2 & E2).
  exists (c1 ++ c2). unfold Js.bind. rewrite E1, E2, grow_grow. reflexivity.
Qed.

Lemma returns_keywordsHas V x :
  Js.returns (Js.keywordsHas x) V (has (KEYWORDS_SET V) x).
Proof.
  intros h HV. exists []. unfold Js.keywordsHas. rewrite grow_nil, HV. reflexivity.
Qed.

Lemma returns_functionsHas V x :
  Js.returns (Js.functionsHas x) V (has (FUNCTIONS_SET V) x).
Proof.
  intros h HV. exists []. unfold Js.functionsHas. rewrite grow_nil, HV. reflexivity.
Qed.

(** A regular expression without the [g] flag, made and run once. *)
Lemma returns_exec_new r ic s V :
  Js.returns (Js.bind (Js.newRegExp r ic false) (fun re => Js.regExpExec re s)) V
             (exec ic r (chars s) 0).
Proof.
  intros h HV. eexists. unfold Js.bind, Js.newRegExp, Js.regExpExec. cbn [Js.regExps].
  rewrite lookup_app_r, Nat.sub_diag by lia. cbn [lookup list_lookup Js.global
    Js.ignoreCase Js.source]. reflexivity.
Qed.

(** The loop over the matches of a regular expression with the [g] flag:
    it runs the body on the matches that [execLoop] lists, from the
    [lastIndex] of the object on, and leaves [lastIndex] at 0. *)
Lemma whileExec_runs {A : Type} (f : Match -> A -> A) (body : Match -> A -> Js.Run A)
      V s :
  (forall m a, Js.returns (body m a) V (f m a)) ->
  forall fuel re R h a ms,
    Js.vocabulary h = V -> Js.regExps h !! re = Some R -> Js.global R = true ->
    execLoop (Js.ignoreCase R) (Js.source R) (chars s) fuel (Js.lastIndex R) = Some ms ->
    exists created,
      Js.whileExec fuel re s body a h =
      Some (fold_left (fun a m => f m a) ms a,
            {| Js.vocabulary := V;
               Js.regExps := <[re := Js.withLastIndex R 0]> (Js.regExps h) ++ created |}).
Proof.
  intros Hbody fuel. induction fuel as [|fuel IH]; intros re R h a ms HV HR Hg Hloop;
    [discriminate|].
  assert (Hre : re < length (Js.regExps h)) by (eapply lookup_lt_Some; eauto).
  cbn [execLoop] in Hloop. cbn [Js.whileExec]. unfold Js.bind at 1, Js.regExpExec.
  rewrite HR, Hg.
  destruct (exec (Js.ignoreCase R) (Js.source R) (chars s) (Js.lastIndex R))
    as [m|] eqn:Hexec.
  - destruct (execLoop _ _ _ fuel (stop m)) as [ms'|] eqn:Hrest; [|discriminate].
    simpl in Hloop. inversion Hloop; subst ms; clear Hloop.
    set (h1 := {| Js.vocabulary := Js.vocabulary h;
                  Js.regExps := <[re := Js.withLastIndex R (stop m)]> (Js.regExps h) |}).
    destruct (Hbody m a h1 HV) as (c1 & E1).
    unfold Js.bind. rewrite E1.
    destruct (IH re (Js.withLastIndex R (stop m)) (Js.grow h1 c1) (f m a) ms')
      as (c2 & E2).
    + exact HV.
    + cbn [Js.grow Js.regExps h1]. rewrite lookup_app_l by (rewrite length_insert; lia).
      apply list_lookup_insert_eq. exact Hre.
    + exact Hg.
    + exact Hrest.
    + exists (c1 ++ c2). rewrite E2. cbn [fold_left]. f_equal. f_equal. f_equal.
      cbn [Js.grow Js.regExps h1].
      rewrite insert_app_l by (rewrite length_insert; lia).
      rewrite list_insert_insert_eq, <- app_assoc. reflexivity.
  - inversion Hloop; subst ms. exists []. unfold Js.ret. cbn [fold_left].
    rewrite app_nil_r, HV. reflexivity.
Qed.

(** A regular expression with the [g] flag, made and run to the end of the
    text: the body runs on all its matches. *)
Lemma returns_loop_new {A : Type} (f : Match -> A -> A) (body : Match -> A -> Js.Run A)
      V r ic s a :
  (forall m a, Js.returns (body m a) V (f m a)) -> 0 < minLen r ->
  Js.returns (Js.bind (Js.newRegExp r ic true)
                      (fun re => Js.whileExec (S (String.length s)) re s body a))
             V (fold_left (fun a m => f m a) (execAll ic r s) a).
Proof.
  intros Hbody Hmin h HV.
  set (R := {| Js.source := r; Js.ignoreCase := ic; Js.global := true;
               Js.lastIndex := 0 |}).
  destruct (whileExec_runs f body V s Hbody (S (String.length s))
                           (length (Js.regExps h)) R (Js.grow h [R]) a (execAll ic r s))
    as (created & E).
  - exact HV.
  - cbn [Js.grow Js.regExps]. rewrite lookup_app_r, Nat.sub_diag by lia. reflexivity.
  - reflexivity.
  - apply execAll_terminates. exact Hmin.
  - exists ([R] ++ created). unfold Js.bind, Js.newRegExp. fold R.
    change {| Js.vocabulary := Js.vocabulary h; Js.regExps := Js.regExps h ++ [R] |}
      with (Js.grow h [R]).
    rewrite E. f_equal. f_equal. unfold Js.grow. rewrite HV. f_equal.
    cbn [Js.regExps]. rewrite insert_app_r_alt, Nat.sub_diag by lia.
    rewrite <- app_assoc. reflexivity.
Qed.

(** The same for an object made first and run later, after other
    statements and after its [lastIndex] is set to 0. *)
Lemma returns_loop_later {A B : Type} (f : Match -> A -> A) (middle : Js.Run B) (b : B)
      (body : B -> Match -> A -> Js.Run A) V r ic s a :
  Js.returns middle V b ->
  (forall m a, Js.returns (body b m a) V (f m a)) -> 0 < minLen r ->
  Js.returns
    (Js.bind (Js.newRegExp r ic true)
       (fun re => Js.bind middle
          (fun x => Js.bind (Js.setLastIndex re 0)
             (fun _ => Js.whileExec (S (String.length s)) re s (body x) a))))
    V (fold_left (fun a m => f m a) (execAll ic r s) a).
Proof.
  intros Hmiddle Hbody Hmin h HV.
  set (R := {| Js.source := r; Js.ignoreCase := ic; Js.global := true;
               Js.lastIndex := 0 |}).
  destruct (Hmiddle (Js.grow h [R]) HV) as (c1 & E1).
  assert (HR : Js.regExps (Js.grow (Js.grow h [R]) c1) !! length (Js.regExps h) = Some R).
  { cbn [Js.grow Js.regExps]. rewrite <- app_assoc.
    rewrite lookup_app_r, Nat.sub_diag by lia. reflexivity. }
  destruct (whileExec_runs f (body b) V s Hbody (S (String.length s))
                           (length (Js.regExps h)) R (Js.grow (Js.grow h [R]) c1) a
                           (execAll ic r s))
    as (c2 & E2); [exact HV | exact HR | reflexivity | apply execAll_terminates; exact Hmin |].
  assert (Hid : <[length (Js.regExps h) := Js.withLastIndex R 0]>
                  (Js.regExps (Js.grow (Js.grow h [R]) c1)) =
                Js.regExps (Js.grow (Js.grow h [R]) c1)).
  { apply list_insert_id. exact HR. }
  exists ([R] ++ c1 ++ c2). unfold Js.bind at 1, Js.newRegExp. fold R.
  change {| Js.vocabulary := Js.vocabulary h; Js.regExps := Js.regExps h ++ [R] |}
    with (Js.grow h [R]).
  unfold Js.bind at 1. rewrite E1.
  unfold Js.bind at 1, Js.setLastIndex. rewrite HR, Hid.
  change {| Js.vocabulary := Js.vocabulary (Js.grow (Js.grow h [R]) c1);
            Js.regExps := Js.regExps (Js.grow (Js.grow h [R]) c1) |}
    with (Js.grow (Js.grow h [R]) c1).
  rewrite E2, Hid. f_equal. f_equal. unfold Js.grow. cbn [Js.vocabulary Js.regExps].
  rewrite HV, <- !app_assoc. reflexivity.
Qed.

Lemma fold_push {A B : Type} (g : A -> B) (l : list A) :
  forall acc, fold_left (fun acc x => acc ++ [g x]) l acc = acc ++ map g l.
Proof.
  induction l as [|x l IH]; intros acc; simpl; [rewrite app_nil_r; reflexivity|].
  rewrite IH, <- app_assoc. reflexivity.
Qed.

Lemma fold_push_some {A B : Type} (g : A -> option B) (l : list A) :
  forall acc,
    fold_left (fun acc x => acc ++ match g x with Some y => [y] | None => [] end) l acc =
    acc ++ omap g l.
Proof.
  induction l as [|x l IH]; intros acc; simpl; [rewrite app_nil_r; reflexivity|].
  rewrite IH, <- app_assoc. destruct (g x); reflexivity.
Qed.

Lemma fold_add {A : Type} (g : A -> Z) (p : A -> bool) (l : list A) :
  forall acc : gset Z,
    fold_left (fun acc x => if p x then acc ∪ {[g x]} else acc) l acc =
    acc ∪ list_to_set (map g (filter (fun x => p x) l)).
Proof.
  induction l as [|x l IH]; intros acc; simpl.
  - rewrite (right_id_L ∅ (∪)). reflexivity.
  - rewrite IH, filter_cons. destruct (p x) eqn:Hp.
    + rewrite decide_True by exact I. simpl. rewrite (assoc_L (∪)). reflexivity.
    + rewrite decide_False by exact id. reflexivity.
Qed.

Lemma returns_pushTable V m tables :
  Js.returns (Js.pushTable m tables) V (tables ++ [tableOfMatch V m]).
Proof.
  unfold Js.pushTable, tableOfMatch. cbv zeta.
  destruct (truthy (if truthy (group m 2) then toLowerCase <$> group m 2 else None));
    [|apply returns_ret].
  eapply returns_bind; [apply returns_keywordsHas|]. cbn [andb].
  destruct (negb (has (KEYWORDS_SET V) _)); apply returns_ret.
Qed.

Lemma returns_extractTablesWithAliases V query :
  Js.returns (Js.extractTablesWithAliases query) V (extractTablesWithAliases V query).
Proof.
  unfold Js.extractTablesWithAliases, extractTablesWithAliases. cbv zeta.
  eapply returns_bind.
  { apply (returns_loop_new (fun m tables => tables ++ [tableOfMatch V m]));
      [apply returns_pushTable | vm_compute; lia]. }
  eapply returns_bind.
  { apply (returns_loop_new (fun m tables => tables ++ [tableOfMatch V m]));
      [apply returns_pushTable | vm_compute; lia]. }
  rewrite !fold_push. apply returns_ret.
Qed.

Lemma returns_markSkipPositions V query :
  Js.returns (Js.markSkipPositions query) V (skipPositions V query).
Proof.
  unfold Js.markSkipPositions. cbv zeta.
  eapply returns_bind.
  { apply (returns_loop_new
             (fun m skip =>
                if true
                then skip ∪ {[(Z.of_nat (index m) +
                               indexOf (matched m) (group' m 1))%Z]}
                else skip));
      [intros m a; apply returns_ret | vm_compute; lia]. }
  eapply returns_bind.
  { apply (returns_loop_new
             (fun m skip =>
                if truthy (group m 1) &&
                   negb (has (KEYWORDS_SET V) (toUpperCase (group' m 1)))
                then skip ∪ {[(Z.of_nat (index m) +
                               lastIndexOf (matched m) (group' m 1))%Z]}
                else skip));
      [|vm_compute; lia].
    intros m a. destruct (truthy (group m 1)); [|apply returns_ret].
    eapply returns_bind; [apply returns_keywordsHas|]. cbn [andb].
    destruct (negb (has (KEYWORDS_SET V) _)); apply returns_ret. }
  eapply returns_bind.
  { apply (returns_loop_new
             (fun m skip =>
                if true
                then skip ∪ {[(Z.of_nat (index m) +
                               indexOf (matched m) (group' m 1))%Z]}
                else skip));
      [intros m a; apply returns_ret | vm_compute; lia]. }
  rewrite (fold_add _ (fun _ => true)),
          (fold_add _ (fun m => truthy (group m 1) &&
                                negb (has (KEYWORDS_SET V) (toUpperCase (group' m 1))))),
          (fold_add _ (fun _ => true)).
  replace (skipPositions V query) with
    (((∅ : gset Z) ∪
      list_to_set (map (fun m => (Z.of_nat (index m) +
                                  indexOf (matched m) (group' m 1))%Z)
                       (filter (fun _ : Match => true)
                               (execAll true fromJoinRegex query)))) ∪
     list_to_set (map (fun m => (Z.of_nat (index m) +
                                 lastIndexOf (matched m) (group' m 1))%Z)
                      (filter (fun m => truthy (group m 1) &&
                                        negb (has (KEYWORDS_SET V)
                                                  (toUpperCase (group' m 1))))
                              (execAll true aliasRegex query))) ∪
     list_to_set (map (fun m => (Z.of_nat (index m) +
                                 indexOf (matched m) (group' m 1))%Z)
                      (filter (fun _ : Match => true)
                              (execAll true columnAliasRegex query))));
    [apply returns_ret|].
  unfold skipPositions.
  assert (Hall : forall l : list Match, filter (fun _ : Match => true) l = l).
  { intros l. induction l as [|x l IH]; [reflexivity|].
    rewrite filter_cons, IH. reflexivity. }
  rewrite !Hall, !list_to_set_app_L, (left_id_L ∅ (∪)), (assoc_L (∪)). reflexivity.
Qed.

Lemma returns_pushReference V query tables m refs :
  Js.returns (Js.pushReference query tables (skipPositions V query) m refs) V
             (refs ++ match referenceOfMatch V query tables m with
                      | Some r => [r]
                      | None => []
                      end).
Proof.
  assert (Hskip : Js.returns (Js.ret refs) V (refs ++ [])).
  { rewrite app_nil_r. apply returns_ret. }
  unfold Js.pushReference, referenceOfMatch. cbv zeta.
  destruct (isInStringLiteral query (index m)); [exact Hskip|].
  destruct (has (skipPositions V query) _); [exact Hskip|].
  eapply returns_bind; [apply returns_keywordsHas|].
  destruct (has (KEYWORDS_SET V) _); [exact Hskip|].
  eapply returns_bind; [apply returns_functionsHas|].
  destruct (has (FUNCTIONS_SET V) _); [exact Hskip|].
  eapply returns_bind; [apply returns_exec_new|].
  unfold test.
  destruct (bool_decide (is_Some (exec false numeralRegex (chars (group' m 1)) 0)));
    [exact Hskip|].
  destruct (match index m with
            | 0 => false
            | S beforePos => charIs isDot (chars query) beforePos
            end).
  - eapply returns_bind; [apply returns_exec_new|].
    unfold matchOnce.
    destruct (exec false qualifierRegex _ 0); [apply returns_ret | exact Hskip].
  - destruct (_ && _); [exact Hskip|].
    destruct (has (tableAndAliasNames tables) _); [exact Hskip | apply returns_ret].
Qed.

Lemma returns_extractColumnReferences V query tables :
  Js.returns (Js.extractColumnReferences query tables) V
             (extractColumnReferences V query tables).
Proof.
  unfold Js.extractColumnReferences, extractColumnReferences. cbv zeta.
  rewrite <- (app_nil_l (omap _ _)), <- fold_push_some.
  apply (returns_loop_later
           (fun m refs => refs ++ match referenceOfMatch V query tables m with
                                  | Some r => [r]
                                  | None => []
                                  end)
           (Js.markSkipPositions query) (skipPositions V query)
           (Js.pushReference query tables)).
  - apply returns_markSkipPositions.
  - intros m a. apply returns_pushReference.
  - vm_compute. lia.
Qed.

(** The function on the heap returns what [validateColumns] gives for the
    sets of the module, on every heap. *)
Lemma returns_validateColumns V query schema :
  Js.returns (Js.validateColumns query schema) V (validateColumns V query schema).
Proof.
  unfold Js.validateColumns, validateColumns. cbv zeta.
  destruct (negb (truthy (Some (trim query)))); [apply returns_ret|].
  eapply returns_bind; [apply returns_extractTablesWithAliases|].
  destruct (length (extractTablesWithAliases V query) =? 0); [apply returns_ret|].
  eapply returns_bind; [apply returns_extractColumnReferences|].
  apply returns_ret.
Qed.

(** C9.  Two calls of [validateColumns] in sequence with the same query and
    the same schema return the same list of diagnostics, on every heap.
    Each call leaves the heap as it found it but for the [RegExp] objects
    that it made itself: it writes neither to the sets of the module nor to
    an object that was there before.  What it returns depends, besides its
    arguments, on the sets of the module only, which no call changes. *)
Theorem validateColumns_repeatable
        (query : string) (schema : DatabaseSchema) (heap : Js.Heap) :
  exists diagnostics created created',
    Js.validateColumns query schema heap =
    Some (diagnostics, Js.grow heap created) /\
    Js.validateColumns query schema (Js.grow heap created) =
    Some (diagnostics, Js.grow (Js.grow heap created) created') /\
    diagnostics = validateColumns (Js.vocabulary heap) query schema.
Proof.
  destruct (returns_validateColumns (Js.vocabulary heap) query schema heap eq_refl)
    as (created & E1).
  destruct (returns_validateColumns (Js.vocabulary heap) query schema
                                    (Js.grow heap created) eq_refl)
    as (created' & E2).
  exists (validateColumns (Js.vocabulary heap) query schema), created, created'.
  split; [exact E1|]. split; [exact E2 | reflexivity].
Qed.

(** C10.  The result of [validateColumns] depends on the schema through its
    tables only: two schemas with the same tables, whatever their keywords
    and functions fields, get the same diagnostics. *)
Theorem schema_vocabulary_ignored
        (V : Vocabulary) (query : string) (schema1 schema2 : DatabaseSchema) :
  tables schema1 = tables schema2 ->
  validateColumns V query schema1 = validateColumns V query schema2.
Proof.
  intros Htables.
  assert (Hfind : forall name, findTable name schema1 = findTable name schema2).
  { intros name. unfold findTable. rewrite Htables. reflexivity. }
  assert (Hexists : forall name,
             tableExistsInSchema name schema1 = tableExistsInSchema name schema2).
  { intros name. unfold tableExistsInSchema. rewrite Htables. reflexivity. }
  assert (Hcols : forall name,
             getTableColumns name schema1 = getTableColumns name schema2).
  { intros name. unfold getTableColumns. rewrite Hfind. reflexivity. }
  assert (Hscope : forall found,
             getAllColumnsInScope found schema1 = getAllColumnsInScope found schema2).
  { intros found. unfold getAllColumnsInScope.
    generalize (∅ : gset string).
    induction found as [|t found IH]; intros acc; simpl; [reflexivity|].
    rewrite Hcols. apply IH. }
  assert (Hknown : forall found : list TableAlias,
             filter (fun t => tableExistsInSchema (tableName t) schema1) found =
             filter (fun t => tableExistsInSchema (tableName t) schema2) found).
  { intros found. apply list_filter_iff. intros t. rewrite Hexists. reflexivity. }
  unfold validateColumns.
  destruct (negb (truthy (Some (trim query)))); [reflexivity|].
  destruct (length (extractTablesWithAliases V query) =? 0); [reflexivity|].
  unfold validateReferences. apply list_omap_ext.
  apply Forall2_same_length_lookup_2; [reflexivity|].
  intros i r r' Hr Hr'. assert (r' = r) by congruence. subst r'.
  unfold validateReference. rewrite Hscope, Hknown.
  destruct (truthy (ref_table r)); [|reflexivity].
  destruct (negb (truthy (buildAliasMap _ !! _))); [reflexivity|].
  rewrite Hexists, Hcols. reflexivity.
Qed.

(* ===================================================================== *)
(** * The properties on the sample data *)
(* ===================================================================== *)

Lemma sample_references :
  extractColumnReferences sampleVocabulary unknownColumnQuery
    (extractTablesWithAliases sampleVocabulary unknownColumnQuery) =
  [totalReference] ++ bogusReference :: [].
Proof. vm_compute. reflexivity. Qed.

Lemma unqualified_reference_diagnostic_witness :
  filter (fun t => tableExistsInSchema (tableName t) sampleSchema)
         (extractTablesWithAliases sampleVocabulary unknownColumnQuery) <> [] /\
  extractColumnReferences sampleVocabulary unknownColumnQuery
    (extractTablesWithAliases sampleVocabulary unknownColumnQuery) =
  [totalReference] ++ bogusReference :: [] /\
  ref_table bogusReference = None /\
  validateColumns sampleVocabulary unknownColumnQuery sampleSchema =
  [ {| message := ("Unknown column " ++ dq ++ "bogus" ++ dq)%string;
       position := 14; endPosition := 19; severity := error;
       hint := Some (dq ++ "bogus" ++ dq ++ " not found in table: orders")%string |} ].
Proof.
  assert (H1 : filter (fun t => tableExistsInSchema (tableName t) sampleSchema)
                 (extractTablesWithAliases sampleVocabulary unknownColumnQuery) <> [])
    by (vm_compute; discriminate).
  assert (H2 := sample_references).
  assert (H3 : ref_table bogusReference = None) by reflexivity.
  split; [exact H1|]. split; [exact H2|]. split; [exact H3|].
  rewrite (unqualified_reference_diagnostic sampleVocabulary unknownColumnQuery
             sampleSchema [totalReference] [] bogusReference H1 H2 H3).
  vm_compute. reflexivity.
Defined.

Lemma no_table_clause_no_diagnostics_witness :
  hasTableClause disjoinQuery = false /\
  validateColumns sampleVocabulary disjoinQuery sampleSchema = [].
Proof.
  assert (H : hasTableClause disjoinQuery = false) by (vm_compute; reflexivity).
  split; [exact H|].
  exact (no_table_clause_no_diagnostics sampleVocabulary disjoinQuery sampleSchema H).
Defined.

Lemma unresolved_qualifier_skipped_witness :
  extractColumnReferences sampleVocabulary unknownQualifierQuery
    (extractTablesWithAliases sampleVocabulary unknownQualifierQuery) =
  [] ++ qualifiedReference :: [] /\
  ref_table qualifiedReference = Some "x"%string /\
  buildAliasMap (extractTablesWithAliases sampleVocabulary unknownQualifierQuery)
    !! "x"%string = None /\
  validateColumns sampleVocabulary unknownQualifierQuery sampleSchema = [].
Proof.
  assert (H1 : extractColumnReferences sampleVocabulary unknownQualifierQuery
                 (extractTablesWithAliases sampleVocabulary unknownQualifierQuery) =
               [] ++ qualifiedReference :: []) by (vm_compute; reflexivity).
  assert (H2 : ref_table qualifiedReference = Some "x"%string) by reflexivity.
  assert (H3 : buildAliasMap
                 (extractTablesWithAliases sampleVocabulary unknownQualifierQuery)
                 !! "x"%string = None) by (vm_compute; reflexivity).
  split; [exact H1|]. split; [exact H2|]. split; [exact H3|].
  destruct (unresolved_qualifier_skipped sampleVocabulary unknownQualifierQuery
              sampleSchema [] [] qualifiedReference "x" H1 H2 (or_introl H3))
    as (_ & H).
  rewrite H. vm_compute. reflexivity.
Defined.

Lemma string_literal_masking_witness :
  isInStringLiteral literalQuery 8 = true /\
  (forall r,
      r ∈ extractColumnReferences sampleVocabulary literalQuery
            (extractTablesWithAliases sampleVocabulary literalQuery) ->
      ref_position r <> 8) /\
  (forall d, d ∈ validateColumns sampleVocabulary literalQuery sampleSchema ->
             position d <> 8).
Proof.
  assert (H : isInStringLiteral literalQuery 8 = true) by (vm_compute; reflexivity).
  split; [exact H|].
  exact (string_literal_masking sampleVocabulary literalQuery
           (extractTablesWithAliases sampleVocabulary literalQuery) sampleSchema 8 H).
Defined.


Lemma alias_is_never_a_keyword_witness :
  "WHERE"%string ∈ sampleKeywords /\
  extractTablesWithAliases sampleVocabulary whereQuery =
  [ {| tableName := "users"; alias := None |} ].
Proof.
  assert (H : "WHERE"%string ∈ sampleKeywords).
  { apply list_elem_of_In. vm_compute. tauto. }
  split; [exact H|].
  exact (proj2 (proj2 (alias_is_never_a_keyword sampleKeywords sampleFunctions)) H).
Defined.

Lemma blank_query_no_diagnostics_witness :
  trim blankQuery = EmptyString /\
  validateColumns sampleVocabulary blankQuery sampleSchema = [].
Proof.
  assert (H : trim blankQuery = EmptyString) by (vm_compute; reflexivity).
  split; [exact H|].
  exact (blank_query_no_diagnostics sampleVocabulary blankQuery sampleSchema H).
Defined.

Lemma schema_vocabulary_ignored_witness :
  tables sampleSchema = tables otherSchema /\
  validateColumns sampleVocabulary unknownColumnQuery sampleSchema =
  validateColumns sampleVocabulary unknownColumnQuery otherSchema.
Proof.
  assert (H : tables sampleSchema = tables otherSchema) by reflexivity.
  split; [exact H|].
  exact (schema_vocabulary_ignored sampleVocabulary unknownColumnQuery
           sampleSchema otherSchema H).
Defined.

(* ===================================================================== *)
(** * The validator on the examples of the specification *)
(* ===================================================================== *)

(** The second identifier after the table name is its alias, with or without
    AS; a keyword there is no alias. *)
Example tables_of_join :
  extractTablesWithAliases sampleVocabulary
    "SELECT o.id FROM orders o LEFT JOIN items AS i ON o.id = i.order_id WHERE 1" =
  [ {| tableName := "orders"; alias := Some "o" |};
    {| tableName := "items"; alias := Some "i" |} ]%string.
Proof. vm_compute. reflexivity. Qed.

(** The optional AS of the patterns backtracks: in [FROM t AS] the word AS
    is taken as the second identifier. *)
Example dangling_as :
  map (fun m => (matched m, group m 1, group m 2)) (execAll true fromRegex "FROM t AS") =
  [("FROM t AS", Some "t", Some "AS")]%string.
Proof. vm_compute. reflexivity. Qed.

Example identifiers_of_query :
  map (fun m => (index m, group' m 1)) (execAll false identifierRegex "a1, _b 2c x.y") =
  [(0, "a1"); (4, "_b"); (10, "x"); (12, "y")]%string.
Proof. vm_compute. reflexivity. Qed.

(** A doubled quote does not close the literal. *)
Example doubled_quote :
  map (isInStringLiteral "'it''s' x 'y") [0; 1; 4; 5; 8; 11] =
  [false; true; true; true; false; true].
Proof. vm_compute. reflexivity. Qed.

(** Qualified references are checked against the table of their alias. *)
Example alias_precedence :
  validateColumns sampleVocabulary
    "SELECT o.id, i.name FROM orders o JOIN items i ON o.id = i.order_id" sampleSchema = [].
Proof. vm_compute. reflexivity. Qed.

Example unknown_qualified_column :
  validateColumns sampleVocabulary "SELECT o.name FROM orders o" sampleSchema =
  [ {| message := ("Unknown column " ++ dq ++ "name" ++ dq)%string;
       position := 9; endPosition := 13; severity := error;
       hint := Some (dq ++ "name" ++ dq ++ " not found in table " ++ dq ++ "o" ++ dq)%string |} ].
Proof. vm_compute. reflexivity. Qed.

(** A column missing from both tables: one error, both aliases in the hint. *)
Example missing_in_two_tables :
  validateColumns sampleVocabulary "SELECT missing FROM orders o JOIN items i" sampleSchema =
  [ {| message := ("Unknown column " ++ dq ++ "missing" ++ dq)%string;
       position := 7; endPosition := 14; severity := error;
       hint := Some (dq ++ "missing" ++ dq ++ " not found in tables: o, i")%string |} ].
Proof. vm_compute. reflexivity. Qed.

(** Nothing inside a string literal is a reference. *)
Example literal_not_extracted :
  extractColumnReferences sampleVocabulary literalQuery
    (extractTablesWithAliases sampleVocabulary literalQuery) = [].
Proof. vm_compute. reflexivity. Qed.

(** No table of the query is in the schema: nothing to validate against. *)
Example unknown_table_only :
  validateColumns sampleVocabulary "SELECT anything FROM elsewhere" sampleSchema = [].
Proof. vm_compute. reflexivity. Qed.

(** With the empty schema of the degraded mode there are no diagnostics. *)
Example empty_schema :
  validateColumns sampleVocabulary unknownColumnQuery
    (createEmptySchema sampleKeywords sampleFunctions) = [].
Proof. vm_compute. reflexivity. Qed.

(* ===================================================================== *)
(** * More properties of the validator *)
(* ===================================================================== *)

(** ** Tables that the schema does not know *)

Lemma omap_all_None {A B : Type} (f : A -> option B) (l : list A) :
  (forall x, x ∈ l -> f x = None) -> omap f l = [].
Proof.
  induction l as [|x l IH]; intros H; [reflexivity|]. cbn [omap list_omap].
  rewrite (H x) by left. apply IH. intros y Hy. apply H. right. exact Hy.
Qed.

Lemma findTable_unknown name schema :
  tableExistsInSchema name schema = false -> findTable name schema = None.
Proof.
  unfold tableExistsInSchema, findTable.
  induction (tables schema) as [|T l IH]; simpl; [reflexivity|].
  destruct (String.eqb _ _); simpl; [discriminate | exact IH].
Qed.

Lemma findTable_known name schema :
  tableExistsInSchema name schema = true -> is_Some (findTable name schema).
Proof.
  unfold tableExistsInSchema, findTable.
  induction (tables schema) as [|T l IH]; simpl; [discriminate|].
  destruct (String.eqb _ _); simpl; [eauto | exact IH].
Qed.

(** A value of the alias map is the name of a table of the list, stored
    under that name or under the alias of that table. *)
Lemma buildAliasMap_value found key value :
  buildAliasMap found !! key = Some value ->
  exists t, t ∈ found /\ tableName t = value /\
            (key = tableName t \/ (alias t = Some key /\ key <> EmptyString)).
Proof.
  rewrite buildAliasMap_writes, lookup_writes.
  destruct (last (filter (fun p => p.1 = key) (aliasWrites found))) as [p|] eqn:Hl;
    [|rewrite lookup_empty; discriminate].
  intros E. inversion E; subst value; clear E.
  apply last_Some_elem_of, list_elem_of_filter in Hl. destruct Hl as (Hk & Hin).
  unfold aliasWrites in Hin. apply list_elem_of_In, in_flat_map in Hin.
  destruct Hin as (t & Ht & Hp). exists t.
  split; [apply list_elem_of_In; exact Ht|].
  destruct Hp as [<-|Hp]; [simpl in *; auto|].
  destruct (alias t) as [a|] eqn:Ha; [|destruct Hp].
  destruct (String.eqb a EmptyString) eqn:Hne; [destruct Hp|].
  destruct Hp as [<-|[]]. simpl in *. subst a.
  apply String.eqb_neq in Hne. auto.
Qed.

Lemma validateReference_unknown_tables found schema r :
  (forall t, t ∈ found -> tableExistsInSchema (tableName t) schema = false) ->
  validateReference found schema r = None.
Proof.
  intros Hunknown. unfold validateReference.
  destruct (truthy (ref_table r)).
  - destruct (buildAliasMap found !! default EmptyString (ref_table r))
      as [actual|] eqn:Hmap; [|reflexivity].
    destruct (negb (truthy (Some actual))); [reflexivity|]. simpl.
    apply buildAliasMap_value in Hmap. destruct Hmap as (t & Ht & <- & _).
    rewrite (Hunknown t Ht). reflexivity.
  - assert (Hscope : has (getAllColumnsInScope found schema) (ref_name r) = false).
    { unfold has. apply bool_decide_eq_false_2.
      rewrite elem_of_getAllColumnsInScope. unfold columnsInScope.
      rewrite list_elem_of_In, in_flat_map. intros (t & Ht & Hx).
      apply list_elem_of_In in Ht. unfold columnNamesOf in Hx.
      rewrite (findTable_unknown _ _ (Hunknown t Ht)) in Hx. destruct Hx. }
    rewrite Hscope. simpl negb. cbv iota.
    assert (Hknown : filter (fun t => tableExistsInSchema (tableName t) schema) found = []).
    { clear Hscope. induction found as [|t found IH]; [reflexivity|].
      rewrite filter_cons. rewrite (Hunknown t) by left.
      destruct (decide _) as [H|H]; [destruct H|].
      apply IH. intros u Hu. apply Hunknown. right. exact Hu. }
    rewrite Hknown. reflexivity.
Qed.

(** X1.  When the schema knows none of the tables of the query, there is
    nothing to validate against: no diagnostic, whatever the columns. *)
Theorem unknown_tables_no_diagnostics
        (V : Vocabulary) (query : string) (schema : DatabaseSchema) :
  (forall t, t ∈ extractTablesWithAliases V query ->
             tableExistsInSchema (tableName t) schema = false) ->
  validateColumns V query schema = [].
Proof.
  intros Hunknown. unfold validateColumns.
  destruct (negb (truthy (Some (trim query)))); [reflexivity|].
  destruct (length (extractTablesWithAliases V query) =? 0); [reflexivity|].
  apply omap_all_None. intros r _.
  apply validateReference_unknown_tables. exact Hunknown.
Qed.

(** X2.  With the empty schema of [createEmptySchema], the fallback when the
    catalog cannot be loaded, no query gets a diagnostic. *)
Theorem empty_schema_no_diagnostics
        (V : Vocabulary) (SQL_KEYWORDS SQL_FUNCTIONS : list string) (query : string) :
  validateColumns V query (createEmptySchema SQL_KEYWORDS SQL_FUNCTIONS) = [].
Proof.
  unfold validateColumns.
  destruct (negb (truthy (Some (trim query)))); [reflexivity|].
  destruct (length (extractTablesWithAliases V query) =? 0); [reflexivity|].
  apply omap_all_None. intros r _.
  apply validateReference_unknown_tables. intros t _. reflexivity.
Qed.

(** ** The words that the table patterns capture *)

Ltac not_in_groups :=
  vm_compute; repeat (apply not_elem_of_cons; split; [discriminate|]);
  apply not_elem_of_nil.

Lemma Matches_tableTail_groups ignoreCase input i c j c' :
  Matches ignoreCase input tableTail i c j c' ->
  i <= length input -> c !! 2 = None ->
  exists a b,
    i < a /\ a < b /\ b <= j /\ j <= length input /\
    c' !! 1 = Some (a, b) /\
    (forall x, a <= x < b -> exists ch, input !! x = Some ch /\ isWordChar ch = true) /\
    (c' !! 2 = None \/
     exists a' b', b < a' /\ a' < b' /\ b' <= length input /\ c' !! 2 = Some (a', b') /\
       forall x, a' <= x < b' -> exists ch, input !! x = Some ch /\ isWordChar ch = true).
Proof.
  intros H Hi Hc2.
  assert (Hall := Matches_bounds _ _ _ _ _ _ _ H Hi).
  destruct H as (e & c1 & Hws & (m & c2 & (c3 & Hname & ->) & Hopt)).
  assert (He := Matches_bounds _ _ _ _ _ _ _ Hws Hi).
  apply Matches_plus_class in Hws. destruct Hws as (-> & Hie & _).
  assert (Hm := Matches_bounds _ _ _ _ _ _ _ Hname ltac:(lia)).
  apply Matches_plus_class in Hname. destruct Hname as (-> & Hem & Hword).
  assert (Hj := Matches_bounds _ _ _ _ _ _ _ Hopt ltac:(lia)).
  simpl in Hj. exists e, m. do 4 (split; [lia|]).
  split.
  { rewrite (Matches_keeps _ _ _ 1 _ _ _ _ Hopt) by not_in_groups.
    apply lookup_insert_eq. }
  split; [exact Hword|].
  destruct Hopt as [(Hrest & Hlt)|(-> & ->)].
  - right.
    destruct Hrest as (e2 & c4 & Hws2 & (e3 & c5 & Has & (c6 & Halias & ->))).
    assert (B1 := Matches_bounds _ _ _ _ _ _ _ Hws2 ltac:(lia)).
    assert (B2 := Matches_bounds _ _ _ _ _ _ _ Has ltac:(lia)).
    assert (B3 := Matches_bounds _ _ _ _ _ _ _ Halias ltac:(lia)).
    simpl in B1, B2, B3.
    apply Matches_plus_class in Halias. destruct Halias as (_ & He3j & Hword2).
    exists e3, j. do 3 (split; [lia|]).
    split; [apply lookup_insert_eq | exact Hword2].
  - left. rewrite lookup_insert_ne by discriminate. exact Hc2.
Qed.

Lemma table_match_groups s m :
  MatchOf true fromRegex s m \/ MatchOf true joinRegex s m ->
  exists a b,
    wordBetween s a b /\ group' m 1 = slice s a b /\
    (group m 2 = None \/
     exists a' b', b < a' /\ wordBetween s a' b' /\ group m 2 = Some (slice s a' b')).
Proof.
  intros Hm.
  assert (Htail : subject m = chars s /\
                  exists i c, i <= length (chars s) /\ c !! 2 = None /\
                              Matches true (chars s) tableTail i c (stop m) (captures m)).
  { destruct Hm as [(Hsub & H)|(Hsub & H)]; (split; [exact Hsub|]).
    - destruct H as (i & c & (_ & -> & ->) & (j & c1 & Hkw & Htail)).
      assert (Hkw' := Hkw). apply Matches_lit in Hkw. destruct Hkw as (-> & -> & Hk).
      destruct (Hk 0 "F"%char eq_refl) as (d & Hd & _). apply lookup_lt_Some in Hd.
      exists (index m + length (chars "FROM")), ∅.
      split; [|split; [apply lookup_empty | exact Htail]].
      apply Matches_bounds in Hkw'; lia.
    - destruct H as (i & c & (_ & -> & ->) &
                     (i1 & c1 & Hmod & (i2 & c2 & Hsp & (j & c3 & Hkw & Htail)))).
      assert (H1 : c1 !! 2 = None).
      { rewrite (Matches_keeps _ _ _ 2 _ _ _ _ Hmod) by not_in_groups.
        apply lookup_empty. }
      apply Matches_star_class in Hsp. destruct Hsp as (-> & Hle & _).
      assert (Hkw' := Hkw). apply Matches_lit in Hkw. destruct Hkw as (-> & -> & Hk).
      destruct (Hk 0 "J"%char eq_refl) as (d & Hd & _). apply lookup_lt_Some in Hd.
      exists (i2 + length (chars "JOIN")), c1.
      split; [|split; [exact H1 | exact Htail]].
      apply Matches_bounds in Hkw'; lia. }
  destruct Htail as (Hsub & i & c & Hi & Hc & Htail).
  apply Matches_tableTail_groups in Htail; [|exact Hi|exact Hc].
  destruct Htail as (a & b & _ & Hab & Hbj & Hj & H1 & Hw1 & H2).
  rewrite length_chars in Hj.
  exists a, b. split; [repeat split; [lia | lia | exact Hw1]|].
  destruct (group_slice m 1 a b H1) as (Hg & _);
    [lia | rewrite Hsub, length_chars; lia |].
  split; [unfold group'; rewrite Hg, Hsub; reflexivity|].
  destruct H2 as [H2|(a' & b' & Hba & Hab' & Hb' & H2 & Hw2)].
  - left. unfold group. rewrite H2. reflexivity.
  - right. exists a', b'. rewrite length_chars in Hb'.
    split; [lia|]. split; [repeat split; [lia | lia | exact Hw2]|].
    destruct (group_slice m 2 a' b' H2) as (Hg2 & _);
      [lia | rewrite Hsub, length_chars; lia |].
    rewrite Hg2, Hsub. reflexivity.
Qed.

Lemma slice_not_empty s a b :
  a < b -> b <= String.length s -> toLowerCase (slice s a b) <> EmptyString.
Proof.
  intros Hab Hb E. apply (f_equal String.length) in E.
  rewrite length_toLowerCase in E. unfold slice in E.
  rewrite length_str, length_sliceChars in E; [simpl in E; lia | lia |].
  rewrite length_chars. exact Hb.
Qed.

Lemma extracted_table_match V query t :
  t ∈ extractTablesWithAliases V query ->
  exists m, t = tableOfMatch V m /\
            (MatchOf true fromRegex query m \/ MatchOf true joinRegex query m).
Proof.
  unfold extractTablesWithAliases. rewrite elem_of_app.
  intros [Hin|Hin]; apply list_elem_of_In, in_map_iff in Hin;
    destruct Hin as (m & <- & Hm); apply list_elem_of_In, execAll_MatchOf in Hm;
    eauto.
Qed.

(** X3.  Every table name that the extractor returns is the lower-cased text
    of a non-empty word of the query, and every alias is the lower-cased text
    of a later word. *)
Theorem extracted_tables_are_words
        (V : Vocabulary) (query : string) (t : TableAlias) :
  t ∈ extractTablesWithAliases V query ->
  exists a b,
    wordBetween query a b /\ tableName t = toLowerCase (slice query a b) /\
    forall al, alias t = Some al ->
               exists a' b', b < a' /\ wordBetween query a' b' /\
                             al = toLowerCase (slice query a' b').
Proof.
  intros Ht. apply extracted_table_match in Ht. destruct Ht as (m & -> & Hm).
  apply table_match_groups in Hm. destruct Hm as (a & b & Hw & H1 & H2).
  exists a, b. split; [exact Hw|].
  assert (Hname : tableName (tableOfMatch V m) = toLowerCase (group' m 1)).
  { unfold tableOfMatch. destruct (_ && _); reflexivity. }
  split; [rewrite Hname, H1; reflexivity|].
  intros al Hal. unfold tableOfMatch in Hal.
  destruct H2 as [H2|(a' & b' & Hlt & Hw' & H2)].
  - rewrite H2 in Hal. simpl in Hal. discriminate.
  - rewrite H2 in Hal. exists a', b'. split; [exact Hlt|]. split; [exact Hw'|].
    destruct (truthy (Some (slice query a' b'))); simpl in Hal;
      [|discriminate].
    destruct (_ && _); simpl in Hal; [|discriminate]. congruence.
Qed.

Lemma extracted_tableName_not_empty V query t :
  t ∈ extractTablesWithAliases V query -> tableName t <> EmptyString.
Proof.
  intros Ht. apply extracted_table_match in Ht. destruct Ht as (m & -> & Hm).
  apply table_match_groups in Hm. destruct Hm as (a & b & (Hab & Hb & _) & H1 & _).
  assert (Hname : tableName (tableOfMatch V m) = toLowerCase (group' m 1)).
  { unfold tableOfMatch. destruct (_ && _); reflexivity. }
  rewrite Hname, H1. apply slice_not_empty; assumption.
Qed.

(** ** Qualified references *)

Lemma tableExists_findTable name schema :
  tableExistsInSchema name schema =
  match findTable name schema with Some _ => true | None => false end.
Proof.
  unfold tableExistsInSchema, findTable.
  induction (tables schema) as [|T l IH]; simpl; [reflexivity|].
  destruct (String.eqb _ _); simpl; [reflexivity | exact IH].
Qed.

(** What the loop of [validateColumns] makes of a qualified reference whose
    qualifier resolves to a name that a table of the schema has up to letter
    case: the columns it looks at are those of the table that the lookup
    returns. *)
Lemma qualified_reference_outcome
      (V : Vocabulary) (query : string) (schema : DatabaseSchema)
      (pre post : list ColumnReference) (ref : ColumnReference)
      (qualifier actual : string) :
  let found := extractTablesWithAliases V query in
  extractColumnReferences V query found = pre ++ ref :: post ->
  ref_table ref = Some qualifier ->
  buildAliasMap found !! qualifier = Some actual ->
  tableExistsInSchema actual schema = true ->
  validateColumns V query schema =
  validateReferences found schema pre ++
  (if decide (ref_name ref ∈ columnNamesOf actual schema) then []
   else [ {| message := ("Unknown column " ++ dq ++ ref_name ref ++ dq)%string;
             position := ref_position ref;
             endPosition := ref_endPosition ref;
             severity := error;
             hint := Some (dq ++ ref_name ref ++ dq ++ " not found in table " ++
                           dq ++ qualifier ++ dq)%string |} ]) ++
  validateReferences found schema post.
Proof.
  intros found Hrefs Hq Hmap Hexists.
  assert (Hfound : found <> []).
  { intros E. rewrite E in Hmap. vm_compute in Hmap. discriminate. }
  rewrite (validateColumns_unfold V query schema Hfound).
  fold found. rewrite Hrefs, validateReferences_split. f_equal. f_equal.
  assert (Hin : ref ∈ extractColumnReferences V query found).
  { rewrite Hrefs. apply elem_of_app. right. left. }
  apply extractColumnReferences_inv in Hin. destruct Hin as (m & _ & Hm).
  apply referenceOfMatch_Some in Hm. destruct Hm as (_ & _ & _ & _ & Hne).
  specialize (Hne qualifier Hq). apply String.eqb_neq in Hne.
  assert (Hactual : String.eqb actual EmptyString = false).
  { apply String.eqb_neq. apply buildAliasMap_value in Hmap.
    destruct Hmap as (t & Ht & <- & _).
    apply (extracted_tableName_not_empty V query t Ht). }
  unfold validateReference. rewrite Hq. simpl. rewrite Hne. simpl.
  rewrite Hmap. simpl. rewrite Hactual. simpl. rewrite Hexists. simpl.
  unfold has.
  destruct (decide (ref_name ref ∈ columnNamesOf actual schema)) as [Hcol|Hcol].
  - rewrite bool_decide_eq_true_2 by (apply elem_of_getTableColumns; exact Hcol).
    reflexivity.
  - rewrite bool_decide_eq_false_2 by (rewrite elem_of_getTableColumns; exact Hcol).
    reflexivity.
Qed.

(** Where the names of the tables of the schema are distinct up to letter
    case, the lookup of a name returns the table that has it. *)
Lemma findTable_distinct name schema table :
  NoDup (map (fun T => toLowerCase (tbl_name T)) (tables schema)) ->
  table ∈ tables schema ->
  toLowerCase (tbl_name table) = toLowerCase name ->
  findTable name schema = Some table.
Proof.
  unfold findTable. intros Hnd Hin Hname.
  induction (tables schema) as [|T l IH]; [inversion Hin|].
  simpl in Hnd. apply NoDup_cons in Hnd. destruct Hnd as (HT & Hnd). simpl.
  destruct (String.eqb (toLowerCase (tbl_name T)) (toLowerCase name)) eqn:E.
  - apply String.eqb_eq in E. apply elem_of_cons in Hin.
    destruct Hin as [->|Hin]; [reflexivity|].
    exfalso. apply HT. rewrite E, <- Hname.
    apply list_elem_of_In, (in_map (fun T => toLowerCase (tbl_name T))).
    apply list_elem_of_In. exact Hin.
  - apply elem_of_cons in Hin. destruct Hin as [->|Hin].
    + apply String.eqb_neq in E. contradiction.
    + apply IH; assumption.
Qed.

(** X4.  In a schema whose table names are distinct up to letter case, a
    qualified reference whose qualifier resolves, through the alias map, to
    the name of a table of the schema contributes exactly one diagnostic
    when its name is not among the columns of that table, and none when it
    is.  The hint names the column and the qualifier as written (in lower
    case), not the table it resolves to. *)
Theorem qualified_reference_diagnostic
        (V : Vocabulary) (query : string) (schema : DatabaseSchema)
        (pre post : list ColumnReference) (ref : ColumnReference)
        (qualifier actual : string) (table : TableInfo) :
  let found := extractTablesWithAliases V query in
  NoDup (map (fun T => toLowerCase (tbl_name T)) (tables schema)) ->
  extractColumnReferences V query found = pre ++ ref :: post ->
  ref_table ref = Some qualifier ->
  buildAliasMap found !! qualifier = Some actual ->
  table ∈ tables schema ->
  toLowerCase (tbl_name table) = toLowerCase actual ->
  validateColumns V query schema =
  validateReferences found schema pre ++
  (if decide (ref_name ref ∈ map (fun c => toLowerCase (col_name c)) (columns table))
   then []
   else [ {| message := ("Unknown column " ++ dq ++ ref_name ref ++ dq)%string;
             position := ref_position ref;
             endPosition := ref_endPosition ref;
             severity := error;
             hint := Some (dq ++ ref_name ref ++ dq ++ " not found in table " ++
                           dq ++ qualifier ++ dq)%string |} ]) ++
  validateReferences found schema post.
Proof.
  intros found Hnd Hrefs Hq Hmap Hin Hname.
  assert (Hfind := findTable_distinct actual schema table Hnd Hin Hname).
  assert (Hexists : tableExistsInSchema actual schema = true).
  { rewrite tableExists_findTable, Hfind. reflexivity. }
  rewrite (qualified_reference_outcome V query schema pre post ref qualifier actual
             Hrefs Hq Hmap Hexists).
  unfold columnNamesOf. rewrite Hfind. reflexivity.
Qed.

(** ** The diagnostics as a whole *)

Lemma validateReference_shape found schema r d :
  validateReference found schema r = Some d ->
  message d = ("Unknown column " ++ dq ++ ref_name r ++ dq)%string /\
  is_Some (hint d).
Proof.
  unfold validateReference.
  repeat match goal with
         | |- context [if ?b then _ else _] => destruct b
         end; intros E; inversion E; subst d; simpl; eauto.
Qed.

Lemma reference_span V query found r :
  r ∈ extractColumnReferences V query found ->
  exists m, MatchOf false identifierRegex query m /\
            ref_position r = index m /\ ref_endPosition r = stop m /\
            index m < stop m /\ stop m <= String.length query /\
            ref_name r = toLowerCase (slice query (index m) (stop m)).
Proof.
  intros Hr. apply extractColumnReferences_inv in Hr.
  destruct Hr as (m & Hm & Hr). exists m. split; [exact Hm|].
  apply identifier_match in Hm. destruct Hm as (Hlt & Hle & Hword & Hlen).
  apply referenceOfMatch_Some in Hr. destruct Hr as (_ & Hpos & Hname & Hend & _).
  rewrite Hlen in Hend. rewrite Hname, Hword.
  repeat split; [exact Hpos | lia | exact Hlt | exact Hle].
Qed.

(** X5.  Every diagnostic is an error with a hint; its span is not empty and
    lies inside the query; its message is [Unknown column] followed by the
    text of that span of the query, in lower case and between double
    quotes. *)
Theorem diagnostics_well_formed
        (V : Vocabulary) (query : string) (schema : DatabaseSchema)
        (d : ValidationError) :
  d ∈ validateColumns V query schema ->
  severity d = error /\ is_Some (hint d) /\
  position d < endPosition d <= String.length query /\
  message d = ("Unknown column " ++ dq ++
               toLowerCase (slice query (position d) (endPosition d)) ++ dq)%string.
Proof.
  intros Hd. apply validateColumns_from_reference in Hd.
  destruct Hd as (r & Hr & Hv).
  destruct (validateReference_Some _ _ _ _ Hv) as (Hpos & Hend & Hsev).
  destruct (validateReference_shape _ _ _ _ Hv) as (Hmsg & Hhint).
  apply reference_span in Hr.
  destruct Hr as (m & _ & Hp & He & Hlt & Hle & Hname).
  rewrite Hpos, Hend, Hmsg, Hname, Hp, He. auto.
Qed.

(** ** The order of the diagnostics *)

Lemma execLoop_sorted ignoreCase r input fuel :
  forall lastIndex ms,
    execLoop ignoreCase r input fuel lastIndex = Some ms ->
    Forall (fun m => lastIndex <= index m) ms /\
    StronglySorted (fun m1 m2 => stop m1 <= index m2) ms.
Proof.
  induction fuel as [|fuel IH]; intros li ms H; simpl in H; [discriminate|].
  destruct (exec _ _ _ li) as [m|] eqn:He.
  - destruct (execLoop _ _ _ fuel (stop m)) as [ms'|] eqn:Hl; [|discriminate].
    simpl in H. inversion H; subst ms; clear H.
    apply exec_sound in He. destruct He as ((_ & HM) & Hi).
    apply Matches_bounds in HM; [|lia].
    apply IH in Hl. destruct Hl as (Hall & Hsorted).
    split.
    + constructor; [lia|]. eapply Forall_impl; [exact Hall|].
      intros m' Hm'. simpl in Hm'. lia.
    + constructor; assumption.
  - inversion H. split; constructor.
Qed.

Lemma execAll_sorted ignoreCase r s :
  StronglySorted (fun m1 m2 => stop m1 <= index m2) (execAll ignoreCase r s).
Proof.
  unfold execAll. destruct (execLoop _ _ _ _ _) as [ms|] eqn:H; simpl.
  - apply execLoop_sorted in H. tauto.
  - constructor.
Qed.

Lemma StronglySorted_omap {A B : Type} (R : A -> A -> Prop) (R' : B -> B -> Prop)
      (f : A -> option B) (l : list A) :
  (forall x y x' y', x ∈ l -> y ∈ l -> f x = Some x' -> f y = Some y' ->
                     R x y -> R' x' y') ->
  StronglySorted R l -> StronglySorted R' (omap f l).
Proof.
  intros Hf Hs. induction Hs as [|x l Hs IH Hx]; [constructor|].
  cbn [omap list_omap].
  assert (IH' : StronglySorted R' (omap f l)).
  { apply IH. intros a b a' b' Ha Hb. apply Hf; right; assumption. }
  destruct (f x) as [x'|] eqn:Hfx; [|exact IH'].
  constructor; [exact IH'|].
  apply Forall_forall. intros y' Hy'. apply list_elem_of_omap in Hy'.
  destruct Hy' as (y & Hy & Hfy).
  apply (Hf x y x' y'); [left | right; exact Hy | exact Hfx | exact Hfy |].
  rewrite Forall_forall in Hx. apply Hx. exact Hy.
Qed.

Lemma extractColumnReferences_sorted V query found :
  StronglySorted (fun r1 r2 => ref_endPosition r1 <= ref_position r2)
                 (extractColumnReferences V query found).
Proof.
  unfold extractColumnReferences.
  apply (StronglySorted_omap (fun m1 m2 => stop m1 <= index m2));
    [|apply execAll_sorted].
  intros m1 m2 r1 r2 H1 _ Hr1 Hr2 Hle.
  apply execAll_MatchOf, identifier_match in H1. destruct H1 as (Hlt & _ & _ & Hlen).
  apply referenceOfMatch_Some in Hr1, Hr2.
  destruct Hr1 as (_ & _ & _ & Hend & _). destruct Hr2 as (_ & Hpos & _).
  rewrite Hend, Hpos, Hlen. lia.
Qed.

(** X6.  The diagnostics come in the order of the text and do not overlap:
    each one ends before the next one starts. *)
Theorem diagnostics_in_text_order
        (V : Vocabulary) (query : string) (schema : DatabaseSchema) :
  StronglySorted (fun d1 d2 => endPosition d1 <= position d2)
                 (validateColumns V query schema).
Proof.
  unfold validateColumns.
  destruct (negb (truthy (Some (trim query)))); [constructor|].
  destruct (length (extractTablesWithAliases V query) =? 0); [constructor|].
  unfold validateReferences.
  apply (StronglySorted_omap (fun r1 r2 => ref_endPosition r1 <= ref_position r2));
    [|apply extractColumnReferences_sorted].
  intros r1 r2 d1 d2 _ _ H1 H2 Hle.
  apply validateReference_Some in H1, H2.
  destruct H1 as (_ & Hend & _). destruct H2 as (Hpos & _).
  rewrite Hend, Hpos. exact Hle.
Qed.

(** ** What is never a reference *)

Lemma referenceOfMatch_filters V query found m r :
  referenceOfMatch V query found m = Some r ->
  (toUpperCase (group' m 1) ∉ KEYWORDS_SET V) /\
  (toUpperCase (group' m 1) ∉ FUNCTIONS_SET V) /\
  (Z.of_nat (index m) ∉ skipPositions V query) /\
  (is_Some (ref_table r) <->
   exists before, index m = S before /\ charIs isDot (chars query) before = true) /\
  (ref_table r = None ->
   (toLowerCase (group' m 1) ∉ tableAndAliasNames found) /\
   charIs isDot (chars query) (index m + String.length (group' m 1)) = false).
Proof.
  unfold referenceOfMatch, has.
  destruct (isInStringLiteral query (index m)); [discriminate|].
  case_bool_decide as Hskip; [discriminate|].
  case_bool_decide as Hkw; [discriminate|].
  case_bool_decide as Hfn; [discriminate|].
  destruct (test false numeralRegex _); [discriminate|].
  destruct (index m) as [|before] eqn:Hindex.
  - destruct (_ && _) eqn:Hdot; [discriminate|].
    case_bool_decide as Hname; [discriminate|].
    intros E. inversion E; subst r; simpl.
    repeat (split; [assumption|]). split.
    + split; [intros [x Hx]; discriminate | intros (b & Hb & _); discriminate].
    + intros _. split; [exact Hname|].
      apply andb_false_iff in Hdot. destruct Hdot as [Hlen|Hdot]; [|exact Hdot].
      apply Nat.ltb_ge in Hlen. unfold charIs.
      rewrite lookup_ge_None_2; [reflexivity | rewrite length_chars; exact Hlen].
  - destruct (charIs isDot (chars query) before) eqn:Hbefore.
    + destruct (matchOnce false qualifierRegex _) as [tm|]; [|discriminate].
      intros E. inversion E; subst r; simpl.
      repeat (split; [assumption|]). split.
      * split; [intros _; eauto | eauto].
      * intros Habs. discriminate.
    + destruct (_ && _) eqn:Hdot; [discriminate|].
      case_bool_decide as Hname; [discriminate|].
      intros E. inversion E; subst r; simpl.
      repeat (split; [assumption|]). split.
      * split; [intros [x Hx]; discriminate|].
        intros (b & Hb & Hd). inversion Hb; subst b. congruence.
      * intros _. split; [exact Hname|].
        apply andb_false_iff in Hdot. destruct Hdot as [Hlen|Hdot]; [|exact Hdot].
        apply Nat.ltb_ge in Hlen. unfold charIs.
        rewrite lookup_ge_None_2; [reflexivity | rewrite length_chars; exact Hlen].
Qed.

Lemma elem_of_FUNCTIONS_SET kws fns x :
  x ∈ FUNCTIONS_SET (loadVocabulary kws fns) <-> exists k, k ∈ fns /\ toUpperCase k = x.
Proof.
  simpl. rewrite elem_of_list_to_set, list_elem_of_In, in_map_iff.
  split; intros (k & H1 & H2); exists k.
  - split; [apply list_elem_of_In; exact H2 | exact H1].
  - split; [exact H2 | apply list_elem_of_In; exact H1].
Qed.

(** X7.  No keyword and no function name of the vocabulary, in whatever
    letter case it is written in the query, is taken for a column: it is the
    name of no reference and the text of no diagnostic. *)
Theorem vocabulary_never_reported
        (SQL_KEYWORDS SQL_FUNCTIONS : list string) (query : string)
        (found : list TableAlias) (schema : DatabaseSchema) (word : string) :
  let V := loadVocabulary SQL_KEYWORDS SQL_FUNCTIONS in
  word ∈ SQL_KEYWORDS ++ SQL_FUNCTIONS ->
  (forall r, r ∈ extractColumnReferences V query found ->
             toUpperCase (ref_name r) <> toUpperCase word) /\
  (forall d, d ∈ validateColumns V query schema ->
             toUpperCase (slice query (position d) (endPosition d)) <> toUpperCase word).
Proof.
  intros V Hword.
  assert (Hrefs : forall fnd r, r ∈ extractColumnReferences V query fnd ->
                                toUpperCase (ref_name r) <> toUpperCase word).
  { intros fnd r Hr E. apply extractColumnReferences_inv in Hr.
    destruct Hr as (m & _ & Hm).
    destruct (referenceOfMatch_filters _ _ _ _ _ Hm) as (Hkw & Hfn & _).
    apply referenceOfMatch_Some in Hm. destruct Hm as (_ & _ & Hname & _).
    rewrite Hname, toUpperCase_toLowerCase in E.
    apply elem_of_app in Hword. destruct Hword as [Hw|Hw].
    - apply Hkw. apply elem_of_KEYWORDS_SET. eauto.
    - apply Hfn. apply elem_of_FUNCTIONS_SET. eauto. }
  split; [apply Hrefs|].
  intros d Hd E. apply validateColumns_from_reference in Hd.
  destruct Hd as (r & Hr & Hv). apply validateReference_Some in Hv.
  destruct Hv as (Hpos & Hend & _).
  apply (Hrefs _ r Hr). apply reference_span in Hr.
  destruct Hr as (m & _ & Hp & He & _ & _ & Hname).
  rewrite Hname, toUpperCase_toLowerCase, <- Hp, <- He, <- Hpos, <- Hend. exact E.
Qed.

Lemma elem_of_tableAndAliasNames found x :
  x ∈ tableAndAliasNames found <->
  (exists t, t ∈ found /\ tableName t = x) \/
  (exists t, t ∈ found /\ alias t = Some x /\ x <> EmptyString).
Proof.
  unfold tableAndAliasNames. rewrite elem_of_union, !elem_of_list_to_set.
  rewrite !list_elem_of_In, !in_map_iff. split.
  - intros [(t & Hx & Ht)|(t & Hx & Ht)].
    + left. exists t. split; [apply list_elem_of_In; exact Ht | exact Hx].
    + right. exists t. apply list_elem_of_In, list_elem_of_filter in Ht.
      destruct Ht as (Htruthy & Ht). split; [exact Ht|].
      destruct (alias t) as [a|]; simpl in *; [|destruct Htruthy].
      subst a. split; [reflexivity|]. intros E. rewrite E in Htruthy. exact Htruthy.
  - intros [(t & Ht & Hx)|(t & Ht & Ha & Hne)].
    + left. exists t. split; [exact Hx | apply list_elem_of_In; exact Ht].
    + right. exists t. split; [rewrite Ha; reflexivity|].
      apply list_elem_of_In, list_elem_of_filter. split; [|exact Ht].
      rewrite Ha. simpl. apply String.eqb_neq in Hne. rewrite Hne. exact I.
Qed.

(** X8.  A table name or an alias of the list, used alone in the query, is
    not a column: no unqualified reference has the name of a table of the
    list or its alias. *)
Theorem table_names_are_not_columns
        (V : Vocabulary) (query : string) (found : list TableAlias)
        (r : ColumnReference) (t : TableAlias) :
  r ∈ extractColumnReferences V query found ->
  ref_table r = None ->
  t ∈ found ->
  tableName t <> ref_name r /\ alias t <> Some (ref_name r).
Proof.
  intros Hr Hnone Ht.
  assert (Hne : ref_name r <> EmptyString).
  { destruct (reference_span V query found r Hr) as (m & _ & _ & _ & Hlt & Hle & ->).
    apply slice_not_empty; assumption. }
  apply extractColumnReferences_inv in Hr. destruct Hr as (m & _ & Hm).
  destruct (referenceOfMatch_filters _ _ _ _ _ Hm) as (_ & _ & _ & _ & Hun).
  apply referenceOfMatch_Some in Hm. destruct Hm as (_ & _ & Hname & _).
  destruct (Hun Hnone) as (Hnames & _). rewrite <- Hname in Hnames.
  split; intros E; apply Hnames; apply elem_of_tableAndAliasNames; eauto.
Qed.

Lemma isDot_eq c : isDot c = true <-> c = "."%char.
Proof.
  split; [|intros ->; reflexivity].
  destruct c as [[] [] [] [] [] [] [] []]; vm_compute; congruence.
Qed.

Lemma charIs_isDot l i : charIs isDot l i = true <-> l !! i = Some "."%char.
Proof.
  unfold charIs. destruct (l !! i) as [c|]; [|split; discriminate].
  rewrite isDot_eq. split; congruence.
Qed.

(** X9.  A reference is qualified exactly when a dot stands right before it
    in the query; an unqualified reference is not followed by a dot (a word
    before a dot is a qualifier, not a column). *)
Theorem references_and_dots
        (V : Vocabulary) (query : string) (found : list TableAlias)
        (r : ColumnReference) :
  r ∈ extractColumnReferences V query found ->
  (is_Some (ref_table r) <->
   exists before, ref_position r = S before /\ chars query !! before = Some "."%char) /\
  (ref_table r = None -> chars query !! ref_endPosition r <> Some "."%char).
Proof.
  intros Hr. apply extractColumnReferences_inv in Hr. destruct Hr as (m & _ & Hm).
  destruct (referenceOfMatch_filters _ _ _ _ _ Hm) as (_ & _ & _ & Hq & Hun).
  apply referenceOfMatch_Some in Hm. destruct Hm as (_ & Hpos & _ & Hend & _).
  rewrite Hpos, Hend. split.
  - rewrite Hq. split; intros (b & Hb & Hd); exists b; (split; [exact Hb|]);
      apply charIs_isDot; exact Hd.
  - intros Hnone Hdot. destruct (Hun Hnone) as (_ & Hafter).
    apply charIs_isDot in Hdot. congruence.
Qed.

(** ** The qualifier of a reference *)


(** A greedy star of a class runs to the end of the run of the class. *)
Lemma star_class_greedy ignoreCase input p n :
  forall i c k res,
    (forall x, i <= x < i + n -> exists d, input !! x = Some d /\ p d = true) ->
    charIs p input (i + n) = false ->
    k (i + n) c = Some res ->
    matcher ignoreCase input (Star (Cls p)) i c k = Some res.
Proof.
  induction n as [|n IH]; intros i c k res Hrun Hend Hk; cbn [matcher].
  - rewrite Nat.add_0_r in Hend, Hk.
    destruct (length input - i) as [|fuel]; [exact Hk|].
    cbn [starLoop matcher]. unfold charIs in Hend.
    destruct (input !! i) as [d|]; [|exact Hk]. rewrite Hend. exact Hk.
  - destruct (Hrun i ltac:(lia)) as (d & Hd & Hp).
    assert (Hi : i < length input) by (eapply lookup_lt_Some; eauto).
    destruct (length input - i) as [|fuel] eqn:Hfuel; [lia|].
    cbn [starLoop matcher]. rewrite Hd, Hp.
    replace (i <? S i) with true by (symmetry; apply Nat.ltb_lt; lia).
    assert (Hrest : matcher ignoreCase input (Star (Cls p)) (S i) c k = Some res).
    { apply IH.
      - intros x Hx. apply Hrun. lia.
      - replace (S i + n) with (i + S n) by lia. exact Hend.
      - replace (S i + n) with (i + S n) by lia. exact Hk. }
    cbn [matcher] in Hrest.
    replace (length input - S i) with fuel in Hrest by lia.
    cbn [clearGroups groupsOf foldr] in *. rewrite Hrest. reflexivity.
Qed.

(** [search] returns the leftmost offset at which the pattern matches. *)
Lemma search_leftmost ignoreCase r input fuel :
  forall i m,
    search ignoreCase r input fuel i = Some m ->
    forall j, i <= j < index m -> matcher ignoreCase input r j ∅ accept = None.
Proof.
  induction fuel as [|fuel IH]; intros i m H j Hj; simpl in H.
  - destruct (matcher _ _ _ _ _ _) as [[e caps]|] eqn:Hm; [|discriminate].
    inversion H; subst m. simpl in Hj. lia.
  - destruct (matcher _ _ _ _ _ _) as [[e caps]|] eqn:Hm.
    + inversion H; subst m. simpl in Hj. lia.
    + destruct (decide (j = i)) as [->|Hne]; [exact Hm|].
      apply (IH (S i) m H). lia.
Qed.

(** ** The table clauses that the scan finds

    The converse of [no_table_clause_no_tables]: where the text has a table
    clause, the scan of the table patterns finds a table. *)

Lemma lit_found ignoreCase input l :
  forall i c k,
    (forall n ch, l !! n = Some ch ->
                  exists d, input !! (i + n) = Some d /\
                            canonicalize ignoreCase ch = canonicalize ignoreCase d) ->
    is_Some (k (i + length l) c) ->
    is_Some (matcher ignoreCase input (lit l) i c k).
Proof.
  induction l as [|a l IH]; intros i c k Hl Hk.
  - simpl. rewrite Nat.add_0_r in Hk. exact Hk.
  - destruct (Hl 0 a eq_refl) as (d & Hd & Hcan). rewrite Nat.add_0_r in Hd.
    destruct l as [|b l].
    + cbn [lit matcher]. rewrite Hd, Hcan, Ascii.eqb_refl.
      simpl in Hk. replace (S i) with (i + 1) by lia. exact Hk.
    + change (lit (a :: b :: l)) with (Seq (Chr a) (lit (b :: l))).
      cbn [matcher]. rewrite Hd, Hcan, Ascii.eqb_refl. apply IH.
      * intros n ch Hn. replace (S i + n) with (i + S n) by lia. apply Hl. exact Hn.
      * replace (S i + length (b :: l)) with (i + length (a :: b :: l))
          by (simpl; lia).
        exact Hk.
Qed.

Lemma lettersAtHead_letters kw :
  forall l, lettersAtHead kw l = true ->
            forall n ch, kw !! n = Some ch ->
                         exists d, l !! n = Some d /\ upperChar ch = upperChar d.
Proof.
  induction kw as [|a kw IH]; intros l H n ch Hn;
    [rewrite lookup_nil in Hn; discriminate|].
  destruct l as [|b l]; [discriminate|]. simpl in H.
  apply andb_true_iff in H. destruct H as (Hab & H). apply Ascii.eqb_eq in Hab.
  destruct n as [|n].
  - inversion Hn; subst ch. exists b. split; [reflexivity | exact Hab].
  - exact (IH l H n ch Hn).
Qed.

(** The run of the characters of a class from an offset on. *)
Lemma maximal_run (p : ascii -> bool) (l : list ascii) :
  forall k i, length l - i <= k ->
    exists n, (forall x, i <= x < i + n -> exists d, l !! x = Some d /\ p d = true) /\
              charIs p l (i + n) = false.
Proof.
  induction k as [|k IH]; intros i Hk.
  - exists 0. split; [intros x Hx; lia|]. unfold charIs.
    rewrite lookup_ge_None_2 by lia. reflexivity.
  - destruct (charIs p l i) eqn:Hi.
    + destruct (IH (S i)) as (n & Hrun & Hend); [lia|].
      exists (S n). split.
      * intros x Hx. destruct (decide (x = i)) as [->|Hne].
        -- unfold charIs in Hi. destruct (l !! i) as [d|]; [eauto | discriminate].
        -- apply Hrun. lia.
      * replace (i + S n) with (S i + n) by lia. exact Hend.
    + exists 0. split; [intros x Hx; lia|]. rewrite Nat.add_0_r. exact Hi.
Qed.

Lemma star_class_at ignoreCase input p n i c k :
  (forall x, i <= x < i + n -> exists d, input !! x = Some d /\ p d = true) ->
  charIs p input (i + n) = false ->
  is_Some (k (i + n) c) ->
  is_Some (matcher ignoreCase input (Star (Cls p)) i c k).
Proof.
  intros Hrun Hend (res & Hres). exists res.
  exact (star_class_greedy ignoreCase input p n i c k res Hrun Hend Hres).
Qed.

Lemma plus_class_at ignoreCase input p n i c k :
  (forall x, i <= x < i + S n -> exists d, input !! x = Some d /\ p d = true) ->
  charIs p input (i + S n) = false ->
  is_Some (k (i + S n) c) ->
  is_Some (matcher ignoreCase input (Plus (Cls p)) i c k).
Proof.
  intros Hrun Hend Hk. unfold Plus. cbn [matcher].
  destruct (Hrun i ltac:(lia)) as (d & Hd & Hp). rewrite Hd, Hp.
  apply (star_class_at ignoreCase input p n (S i)).
  - intros x Hx. apply Hrun. lia.
  - replace (S i + n) with (i + S n) by lia. exact Hend.
  - replace (S i + n) with (i + S n) by lia. exact Hk.
Qed.

Lemma opt_found ignoreCase input r i c k :
  is_Some (k i c) -> is_Some (matcher ignoreCase input (Opt r) i c k).
Proof.
  intros Hk. cbn [matcher]. destruct (matcher ignoreCase input r i _ _); [eauto | exact Hk].
Qed.

(** The tail of the table patterns matches where white space and then a
    character of a name stand, whatever follows. *)
Lemma tableTail_found input m n d c :
  (forall x, m <= x < m + S n ->
             exists a, input !! x = Some a /\ isWhiteSpace a = true) ->
  input !! (m + S n) = Some d -> isWordChar d = true ->
  is_Some (matcher true input tableTail m c accept).
Proof.
  intros Hws Hd Hw. unfold tableTail. cbn [cat].
  change (is_Some (matcher true input (Plus ws) m c
                     (fun j c1 =>
                        matcher true input (Plus w) j c1
                          (fun j0 c0 =>
                             matcher true input
                               (Opt (cat [Plus ws; Opt (cat [word "AS"; Plus ws]);
                                          Group 2 (Plus w)]))
                               j0 (<[1:=(j, j0)]> c0) accept)))).
  apply (plus_class_at true input isWhiteSpace n m); [exact Hws | |].
  - unfold charIs. rewrite Hd. apply word_is_no_white_space. exact Hw.
  - destruct (maximal_run isWordChar input (length input - (m + S n)) (m + S n))
      as (k & Hrun & Hend); [lia|].
    destruct k as [|k].
    { rewrite Nat.add_0_r in Hend. unfold charIs in Hend. rewrite Hd in Hend.
      congruence. }
    apply (plus_class_at true input isWordChar k (m + S n)); [exact Hrun | exact Hend |].
    cbn [matcher].
    match goal with
    | |- is_Some (match ?x with Some res => Some res | None => _ end) =>
        destruct x; [eauto | unfold accept; eauto]
    end.
Qed.

Lemma trimStartChars_to_the_end (l : list ascii) :
  forall n m, length l - m <= n ->
    (forall x, m <= x < length l ->
               exists a, l !! x = Some a /\ isWhiteSpace a = true) ->
    trimStartChars (drop m l) = [].
Proof.
  induction n as [|n IH]; intros m Hn Hws.
  - rewrite drop_ge by lia. reflexivity.
  - destruct (decide (m < length l)) as [Hm|Hm]; [|rewrite drop_ge by lia; reflexivity].
    destruct (Hws m ltac:(lia)) as (a & Ha & Hwa).
    rewrite (drop_S l a m Ha). simpl. rewrite Hwa.
    apply IH; [lia|]. intros x Hx. apply Hws. lia.
Qed.

(** What [keywordAt] says of the text. *)
Lemma keywordAt_text kw s i :
  keywordAt kw s i = true ->
  (forall n ch, chars kw !! n = Some ch ->
                exists d, chars s !! (i + n) = Some d /\ upperChar ch = upperChar d) /\
  exists n d,
    (forall x, i + String.length kw <= x < i + String.length kw + S n ->
               exists a, chars s !! x = Some a /\ isWhiteSpace a = true) /\
    chars s !! (i + String.length kw + S n) = Some d /\ isWordChar d = true.
Proof.
  unfold keywordAt. cbv zeta. rewrite drop_drop. intros H.
  apply andb_true_iff in H. destruct H as (Hletters & Hafter). split.
  - intros n ch Hn.
    destruct (lettersAtHead_letters _ _ Hletters n ch Hn) as (d & Hd & Hup).
    rewrite lookup_drop in Hd. eauto.
  - set (m := i + String.length kw) in *.
    destruct (drop m (chars s)) as [|sp rest] eqn:Hdrop; [discriminate|].
    rewrite <- Hdrop in Hafter.
    destruct (trimStartChars (drop m (chars s))) as [|d tl] eqn:Htrim; [discriminate|].
    apply andb_true_iff in Hafter. destruct Hafter as (Hsp & Hd).
    assert (Hm : chars s !! m = Some sp).
    { rewrite <- (Nat.add_0_r m), <- lookup_drop, Hdrop. reflexivity. }
    destruct (maximal_run isWhiteSpace (chars s) (length (chars s) - m) m)
      as (k & Hrun & Hend); [lia|].
    destruct k as [|k].
    { rewrite Nat.add_0_r in Hend. unfold charIs in Hend. rewrite Hm in Hend.
      congruence. }
    exists k, d. split; [exact Hrun|].
    unfold charIs in Hend.
    destruct (chars s !! (m + S k)) as [d'|] eqn:Hd'.
    + rewrite (trimStartChars_drop (chars s) d' (S k) m (m + S k) eq_refl Hrun Hd' Hend)
        in Htrim.
      rewrite (drop_S _ _ _ Hd') in Htrim. inversion Htrim; subst d'.
      split; [reflexivity | exact Hd].
    + exfalso. apply lookup_ge_None in Hd'.
      rewrite (trimStartChars_to_the_end (chars s) (length (chars s) - m) m) in Htrim;
        [discriminate | lia |].
      intros x Hx. apply Hrun. lia.
Qed.

Lemma keyword_found s kw i c :
  keywordAt kw s i = true ->
  is_Some (matcher true (chars s) (Seq (word kw) tableTail) i c accept).
Proof.
  intros H. apply keywordAt_text in H. destruct H as (Hletters & n & d & Hws & Hd & Hw).
  cbn [matcher]. unfold word. apply lit_found.
  - intros k ch Hk. destruct (Hletters k ch Hk) as (d' & Hd' & Hup). eauto.
  - rewrite length_chars. eapply tableTail_found; eauto.
Qed.

(** [search] finds a match when there is one at some offset. *)
Lemma search_finds ignoreCase r input :
  forall fuel start i,
    start <= i <= start + fuel ->
    is_Some (matcher ignoreCase input r i ∅ accept) ->
    is_Some (search ignoreCase r input fuel start).
Proof.
  induction fuel as [|fuel IH]; intros start i Hi Hm; simpl.
  - replace i with start in Hm by lia. destruct Hm as ([j caps] & ->). eauto.
  - destruct (matcher ignoreCase input r start ∅ accept) as [[j caps]|] eqn:E; [eauto|].
    apply (IH (S start) i); [|exact Hm].
    destruct (decide (i = start)) as [->|Hne]; [|lia].
    rewrite E in Hm. destruct Hm as (x & Hx). discriminate.
Qed.

Lemma execAll_finds ignoreCase r s i :
  0 < minLen r -> i <= String.length s ->
  is_Some (matcher ignoreCase (chars s) r i ∅ accept) ->
  execAll ignoreCase r s <> [].
Proof.
  intros Hmin Hi Hm E.
  assert (Hloop := execAll_terminates ignoreCase r s Hmin). rewrite E in Hloop.
  cbn [execLoop] in Hloop.
  destruct (exec ignoreCase r (chars s) 0) as [m|] eqn:Hexec.
  - destruct (execLoop _ _ _ _ (stop m)); discriminate.
  - unfold exec in Hexec. rewrite (proj2 (Nat.leb_le 0 _)) in Hexec by lia.
    destruct (search_finds ignoreCase r (chars s) (length (chars s) - 0) 0 i)
      as (m & Hsearch); [rewrite length_chars; lia | exact Hm |].
    rewrite Hsearch in Hexec. discriminate.
Qed.

Lemma fromClause_found s i :
  i < String.length s -> fromClauseAt s i = true ->
  execAll true fromRegex s <> [].
Proof.
  intros Hi H. unfold fromClauseAt in H. apply andb_true_iff in H.
  destruct H as (Hb & Hat).
  apply (execAll_finds true fromRegex s i); [vm_compute; lia | lia |].
  unfold fromRegex. cbn [cat].
  change (is_Some (if atWordBoundary (chars s) i
                   then matcher true (chars s) (Seq (word "FROM") tableTail) i ∅ accept
                   else None)).
  rewrite Hb. apply keyword_found. exact Hat.
Qed.

Lemma alts_found ignoreCase input (l : list regex) :
  forall r i c k,
    r ∈ l -> is_Some (matcher ignoreCase input r i c k) ->
    is_Some (matcher ignoreCase input (alts l) i c k).
Proof.
  induction l as [|r0 l IH]; intros r i c k Hin Hr; [inversion Hin|].
  destruct l as [|r1 l].
  - apply list_elem_of_singleton in Hin. subst r0. exact Hr.
  - change (alts (r0 :: r1 :: l)) with (Alt r0 (alts (r1 :: l))). cbn [matcher].
    destruct (matcher ignoreCase input r0 i c k) eqn:E; [eauto|].
    apply elem_of_cons in Hin. destruct Hin as [->|Hin].
    + rewrite E in Hr. destruct Hr as (x & Hx). discriminate.
    + apply (IH r); assumption.
Qed.

Lemma joinClause_found s i :
  i < String.length s -> joinClauseAt s i = true ->
  execAll true joinRegex s <> [].
Proof.
  intros Hi H. unfold joinClauseAt in H. apply andb_true_iff in H.
  destruct H as (Hat & Hhow).
  assert (Hjoin : forall c, is_Some (matcher true (chars s)
                                       (Seq (Star ws) (Seq (word "JOIN") tableTail))
                                       i c accept)).
  { intros c. cbn [matcher]. unfold ws.
    apply (star_class_at true (chars s) isWhiteSpace 0 i).
    - intros x Hx. lia.
    - rewrite Nat.add_0_r.
      destruct (keywordAt_word s "JOIN" "J" (chars "OIN") i eq_refl eq_refl Hat)
        as (_ & Hword).
      unfold wordAt in Hword. unfold charIs.
      destruct (chars s !! i) as [d|]; [|reflexivity].
      apply word_is_no_white_space. exact Hword.
    - rewrite Nat.add_0_r. apply (keyword_found s "JOIN" i c Hat). }
  apply orb_true_iff in Hhow. destruct Hhow as [Hb|Hprefix].
  - apply (execAll_finds true joinRegex s i); [vm_compute; lia | lia |].
    unfold joinRegex. cbn [cat].
    change (is_Some
              (if atWordBoundary (chars s) i
               then matcher true (chars s)
                      (Opt (alts [word "LEFT"; word "RIGHT"; word "INNER";
                                  word "OUTER"; word "FULL"; word "CROSS"]))
                      i ∅
                      (fun j c => matcher true (chars s)
                                    (Seq (Star ws) (Seq (word "JOIN") tableTail))
                                    j c accept)
               else None)).
    rewrite Hb. apply opt_found. apply Hjoin.
  - apply existsb_exists in Hprefix. destruct Hprefix as (kw & Hin & H).
    apply andb_true_iff in H. destruct H as (H & Hb).
    apply andb_true_iff in H. destruct H as (Hle & Hletters).
    apply Nat.leb_le in Hle.
    apply (execAll_finds true joinRegex s (i - String.length kw));
      [vm_compute; lia | lia |].
    unfold joinRegex. cbn [cat].
    change (is_Some
              (if atWordBoundary (chars s) (i - String.length kw)
               then matcher true (chars s)
                      (Opt (alts [word "LEFT"; word "RIGHT"; word "INNER";
                                  word "OUTER"; word "FULL"; word "CROSS"]))
                      (i - String.length kw) ∅
                      (fun j c => matcher true (chars s)
                                    (Seq (Star ws) (Seq (word "JOIN") tableTail))
                                    j c accept)
               else None)).
    rewrite Hb. cbn [matcher].
    match goal with
    | |- is_Some (match ?x with Some res => Some res | None => _ end) =>
        assert (Hinner : is_Some x); [|destruct Hinner as (res & ->); eauto]
    end.
    apply (alts_found true (chars s) _ (word kw)).
    + unfold joinPrefixes in Hin. simpl in Hin.
      destruct Hin as [<-|[<-|[<-|[<-|[<-|[<-|[]]]]]]]; repeat first [left | right].
    + unfold word. apply lit_found.
      * intros n ch Hn.
        destruct (lettersAtHead_letters _ _ Hletters n ch Hn) as (d & Hd & Hup).
        rewrite lookup_drop in Hd. eauto.
      * rewrite length_chars.
        replace (i - String.length kw + String.length kw) with i by lia.
        assert (Hpos : 0 < String.length kw).
        { unfold joinPrefixes in Hin. simpl in Hin.
          destruct Hin as [<-|[<-|[<-|[<-|[<-|[<-|[]]]]]]]; simpl; lia. }
        replace (i - String.length kw <? i) with true
          by (symmetry; apply Nat.ltb_lt; lia).
        apply Hjoin.
Qed.

(** The scan of the table patterns finds a table exactly where the text has
    a table clause. *)
Lemma tables_found_iff V query :
  extractTablesWithAliases V query = [] <-> hasTableClause query = false.
Proof.
  split; [|apply no_table_clause_no_tables].
  intros Hnone. destruct (hasTableClause query) eqn:Hhas; [exfalso|reflexivity].
  unfold hasTableClause in Hhas. apply existsb_exists in Hhas.
  destruct Hhas as (i & Hi & Hat). apply in_seq in Hi.
  unfold extractTablesWithAliases in Hnone. apply app_eq_nil in Hnone.
  destruct Hnone as (Hfrom & Hjoin).
  apply map_eq_nil in Hfrom, Hjoin.
  unfold tableClauseAt in Hat. apply orb_true_iff in Hat. destruct Hat as [Hat|Hat].
  - apply (fromClause_found query i); [lia | exact Hat | exact Hfrom].
  - apply (joinClause_found query i); [lia | exact Hat | exact Hjoin].
Qed.

Lemma referenceOfMatch_qualifier V query found m r t :
  referenceOfMatch V query found m = Some r -> ref_table r = Some t ->
  exists before tm,
    index m = S before /\
    matchOnce false qualifierRegex (slice query 0 before) = Some tm /\
    t = toLowerCase (group' tm 1).
Proof.
  unfold referenceOfMatch.
  destruct (isInStringLiteral query (index m)); [discriminate|].
  destruct (has (skipPositions V query) _); [discriminate|].
  destruct (has (KEYWORDS_SET V) _); [discriminate|].
  destruct (has (FUNCTIONS_SET V) _); [discriminate|].
  destruct (test false numeralRegex _); [discriminate|].
  destruct (index m) as [|before].
  - destruct (_ && _); [discriminate|]. destruct (has _ _); [discriminate|].
    intros E Ht. inversion E; subst r. discriminate.
  - destruct (charIs isDot (chars query) before).
    + replace (S before - 1) with before by lia.
      destruct (matchOnce false qualifierRegex _) as [tm|] eqn:Htm; [|discriminate].
      intros E Ht. inversion E; subst r. simpl in Ht. inversion Ht. eauto.
    + destruct (_ && _); [discriminate|]. destruct (has _ _); [discriminate|].
      intros E Ht. inversion E; subst r. discriminate.
Qed.

Lemma qualifier_word s tm :
  matchOnce false qualifierRegex s = Some tm ->
  exists e,
    wordBetween s (index tm) e /\ group' tm 1 = slice s (index tm) e /\
    forall x, e <= x < String.length s ->
              exists ch, chars s !! x = Some ch /\ isWhiteSpace ch = true.
Proof.
  unfold matchOnce. intros H. apply exec_sound in H.
  destruct H as ((Hsub & H) & _ & Hi).
  destruct H as (e & c & (c1 & Hw & ->) & (j & c2 & Hws & (Hj & _ & Hcaps))).
  assert (Hwb := Matches_bounds _ _ _ _ _ _ _ Hw Hi). simpl in Hwb.
  apply Matches_plus_class in Hw. destruct Hw as (_ & Hlt & Hword).
  apply Matches_star_class in Hws. destruct Hws as (Hc & Hle & Hspace).
  assert (Hcap : captures tm !! 1 = Some (index tm, e))
    by (rewrite Hcaps, Hc; apply lookup_insert_eq).
  destruct (group_slice tm 1 _ _ Hcap) as (Hg & _); [lia | rewrite Hsub; lia |].
  exists e. unfold wordBetween. rewrite <- length_chars.
  split; [repeat split; [lia | lia | exact Hword]|].
  split; [unfold group'; rewrite Hg, Hsub; reflexivity|].
  intros x Hx. apply Hspace. lia.
Qed.

Lemma chars_slice_prefix s n : chars (slice s 0 n) = take n (chars s).
Proof.
  unfold slice, sliceChars. rewrite chars_str, Nat.sub_0_r. reflexivity.
Qed.

Lemma slice_of_prefix s n a e :
  a <= e -> e <= n -> slice (slice s 0 n) a e = slice s a e.
Proof.
  intros Hae Hen. unfold slice at 1 3. rewrite chars_slice_prefix.
  f_equal. unfold sliceChars.
  rewrite !take_drop_commute, take_take.
  replace (min (a + (e - a)) n) with (a + (e - a)) by lia. reflexivity.
Qed.

(** The match of the qualifier pattern starts where its word starts: no
    word character stands before it. *)
Lemma qualifier_leftmost s tm :
  matchOnce false qualifierRegex s = Some tm ->
  forall p, index tm = S p -> charIs isWordChar (chars s) p = false.
Proof.
  intros Hm p Hp.
  destruct (charIs isWordChar (chars s) p) eqn:Hword; [exfalso|reflexivity].
  assert (Hm' := Hm). unfold matchOnce in Hm'. apply exec_sound in Hm'.
  destruct Hm' as ((Hsub & H) & _ & Hi).
  destruct H as (e & c & (c1 & Hw & ->) & (j & c2 & Hws & (Hj & _ & Hcaps))).
  apply Matches_plus_class in Hw. destruct Hw as (_ & Hlt & Hrun).
  apply Matches_star_class in Hws. destruct Hws as (_ & Hle & Hspace).
  subst j.
  assert (Hnone : matcher false (chars s) qualifierRegex p ∅ accept = None).
  { unfold matchOnce, exec in Hm.
    destruct (0 <=? length (chars s)); [|discriminate].
    apply (search_leftmost _ _ _ _ _ _ Hm). lia. }
  assert (Hsome : is_Some (matcher false (chars s) qualifierRegex p ∅ accept)).
  { unfold qualifierRegex. cbn [cat matcher Plus w]. unfold charIs in Hword.
    destruct (chars s !! p) as [d|]; [|discriminate]. rewrite Hword.
    eexists.
    apply (star_class_greedy false (chars s) isWordChar (e - S p)).
    - intros x Hx. apply Hrun. lia.
    - replace (S p + (e - S p)) with e by lia. unfold charIs.
      destruct (chars s !! e) as [d'|] eqn:He; [|reflexivity].
      destruct (Hspace e) as (d'' & Hd'' & Hwhite).
      { apply lookup_lt_Some in He. lia. }
      rewrite He in Hd''. inversion Hd''; subst d''.
      apply white_space_is_no_word_char. exact Hwhite.
    - replace (S p + (e - S p)) with e by lia.
      apply (star_class_greedy false (chars s) isWhiteSpace (length (chars s) - e)).
      + intros x Hx. apply Hspace. lia.
      + unfold charIs. rewrite lookup_ge_None_2 by lia. reflexivity.
      + replace (e + (length (chars s) - e)) with (length (chars s)) by lia.
        rewrite Nat.eqb_refl. reflexivity. }
  rewrite Hnone in Hsome. destruct Hsome as (res & Hres). discriminate.
Qed.

(** X10.  The qualifier of a qualified reference is the lower-cased text of
    the word that stands before the dot of the reference: the whole run of
    word characters, from a place with no word character before it to a
    place from which only white space leads to the dot. *)
Theorem qualifier_is_the_word_before_the_dot
        (V : Vocabulary) (query : string) (found : list TableAlias)
        (r : ColumnReference) (qualifier : string) :
  r ∈ extractColumnReferences V query found ->
  ref_table r = Some qualifier ->
  exists a e dot,
    ref_position r = S dot /\ chars query !! dot = Some "."%char /\
    wordBetween query a e /\ e <= dot /\
    qualifier = toLowerCase (slice query a e) /\
    (forall p, a = S p -> charIs isWordChar (chars query) p = false) /\
    forall x, e <= x < dot ->
              exists ch, chars query !! x = Some ch /\ isWhiteSpace ch = true.
Proof.
  intros Hr Hq.
  destruct (reference_span V query found r Hr) as (m' & _ & Hp' & _ & Hlt' & Hle' & _).
  apply extractColumnReferences_inv in Hr. destruct Hr as (m & _ & Hm).
  destruct (referenceOfMatch_filters _ _ _ _ _ Hm) as (_ & _ & _ & Hdot & _).
  destruct (referenceOfMatch_qualifier _ _ _ _ _ _ Hm Hq) as (dot & tm & Hi & Htm & ->).
  apply referenceOfMatch_Some in Hm. destruct Hm as (_ & Hpos & _).
  destruct (proj1 Hdot ltac:(rewrite Hq; eauto)) as (dot' & Hi' & Hd).
  assert (dot' = dot) by congruence. subst dot'. apply charIs_isDot in Hd.
  assert (Hlen : dot < String.length query).
  { rewrite <- length_chars. eapply lookup_lt_Some; eauto. }
  assert (Hleft := qualifier_leftmost _ _ Htm).
  apply qualifier_word in Htm.
  destruct Htm as (e & (Hae & He & Hword) & Hg & Hspace).
  set (a := index tm) in *.
  assert (Hprefix : String.length (slice query 0 dot) = dot).
  { rewrite <- length_chars, chars_slice_prefix, length_take, length_chars. lia. }
  rewrite Hprefix in He, Hspace.
  exists a, e, dot. split; [congruence|]. split; [exact Hd|].
  split; [|split; [exact He|split; [|split]]].
  - repeat split; [exact Hae | lia |].
    intros x Hx. destruct (Hword x Hx) as (ch & Hch & Hw).
    rewrite chars_slice_prefix, lookup_take_lt in Hch by lia. eauto.
  - rewrite Hg, slice_of_prefix by lia. reflexivity.
  - intros p Hp. specialize (Hleft p Hp).
    unfold charIs in *. rewrite chars_slice_prefix, lookup_take_lt in Hleft by lia.
    exact Hleft.
  - intros x Hx. destruct (Hspace x Hx) as (ch & Hch & Hw).
    rewrite chars_slice_prefix, lookup_take_lt in Hch by lia. eauto.
Qed.

(** ** String literals *)

Lemma literalState_no_quote l :
  forall n b,
    (forall i c, i < n -> l !! i = Some c -> isQuote c = false) ->
    literalState l n b = b.
Proof.
  induction l as [|c l IH]; intros n b H; [destruct n; reflexivity|].
  destruct n as [|n]; [reflexivity|]. cbn [literalState].
  rewrite (H 0 c) by first [lia | reflexivity].
  apply IH. intros i d Hi Hd. apply (H (S i) d); [lia | exact Hd].
Qed.

Lemma literalState_skip pre :
  forall l n b,
    Forall (fun c => isQuote c = false) pre ->
    literalState (pre ++ l) (length pre + n) b = literalState l n b.
Proof.
  induction pre as [|c pre IH]; intros l n b H; [reflexivity|].
  inversion H as [|? ? Hc Hpre]; subst. cbn [app length Nat.add literalState].
  rewrite Hc. apply IH. exact Hpre.
Qed.

(** X11.  An offset with no single quote before it is outside every string
    literal: in a query without quotes nothing is masked. *)
Theorem no_quote_before_is_outside (query : string) (offset : nat) :
  (forall i c, i < offset -> chars query !! i = Some c -> isQuote c = false) ->
  isInStringLiteral query offset = false.
Proof.
  intros H. rewrite isInStringLiteral_spec. apply literalState_no_quote. exact H.
Qed.

Lemma literalState_toggle c d l n b :
  isQuote c = true -> isQuote d = false ->
  literalState (c :: d :: l) (S n) b = literalState (d :: l) n (negb b).
Proof.
  intros Hc Hd. destruct n; cbn [literalState]; rewrite Hc, Hd; reflexivity.
Qed.

(** X12.  For the first literal of a query, with a non-empty body without
    quotes: every offset from the first character of the body to the closing
    quote is inside; every offset after the closing quote, up to the next
    quote, is outside again. *)
Theorem first_literal_is_masked
        (query : string) (pre body after rest : list ascii) (k j : nat) :
  chars query = pre ++ "'"%char :: body ++ "'"%char :: after ++ rest ->
  Forall (fun c => isQuote c = false) pre ->
  Forall (fun c => isQuote c = false) body ->
  Forall (fun c => isQuote c = false) after ->
  body <> [] -> after <> [] ->
  k <= length body -> j <= length after ->
  isInStringLiteral query (length pre + 1 + k) = true /\
  isInStringLiteral query (length pre + 1 + length body + 1 + j) = false.
Proof.
  intros Hq Hpre Hbody Hafter Hb Ha Hk Hj.
  destruct body as [|b0 body]; [contradiction|].
  destruct after as [|a0 after]; [contradiction|].
  inversion Hbody as [|? ? Hb0 Hbody']; subst.
  inversion Hafter as [|? ? Ha0 Hafter']; subst.
  rewrite !isInStringLiteral_spec, Hq. split.
  - replace (length pre + 1 + k) with (length pre + S k) by lia.
    rewrite literalState_skip by exact Hpre.
    rewrite <- app_comm_cons, literalState_toggle by (reflexivity || exact Hb0).
    apply (literalState_no_quote _ k true).
    intros i c Hi Hc.
    rewrite app_comm_cons, lookup_app_l in Hc by (simpl in *; lia).
    rewrite Forall_forall in Hbody. apply Hbody. eapply list_elem_of_lookup_2; eauto.
  - replace (length pre + 1 + length (b0 :: body) + 1 + j)
      with (length pre + S (length (b0 :: body) + S j)) by lia.
    rewrite literalState_skip by exact Hpre.
    rewrite <- app_comm_cons, literalState_toggle by (reflexivity || exact Hb0).
    rewrite app_comm_cons, literalState_skip by exact Hbody.
    rewrite <- app_comm_cons, literalState_toggle by (reflexivity || exact Ha0).
    apply (literalState_no_quote _ j false).
    intros i c Hi Hc.
    rewrite app_comm_cons, lookup_app_l in Hc by (simpl in *; lia).
    rewrite Forall_forall in Hafter. apply Hafter. eapply list_elem_of_lookup_2; eauto.
Qed.

(** ** Resolution through the alias map *)

(** X13.  A key under which all the writes of the list agree resolves to
    their common table: a table name that is nobody's alias resolves to
    itself, an alias used for one table only (and that is no table name)
    resolves to that table. *)
Theorem unambiguous_key_resolves
        (found : list TableAlias) (t : TableAlias) (key : string) :
  t ∈ found ->
  key = tableName t \/ (alias t = Some key /\ key <> EmptyString) ->
  (forall u, u ∈ found -> tableName u = key \/ alias u = Some key ->
             tableName u = tableName t) ->
  buildAliasMap found !! key = Some (tableName t).
Proof.
  intros Ht Hkey Hagree.
  assert (Hsome : is_Some (buildAliasMap found !! key)).
  { apply (written_key_present _ _ (tableName t)).
    unfold aliasWrites. apply list_elem_of_In, in_flat_map. exists t.
    split; [apply list_elem_of_In; exact Ht|].
    destruct Hkey as [->|(Ha & Hne)]; [left; reflexivity|].
    right. rewrite Ha. apply String.eqb_neq in Hne. rewrite Hne. left. reflexivity. }
  destruct Hsome as (v & Hv). rewrite Hv. f_equal.
  apply buildAliasMap_value in Hv. destruct Hv as (u & Hu & <- & Hk).
  apply Hagree; [exact Hu|]. destruct Hk as [->|(Ha & _)]; auto.
Qed.

(** X14.  The alias map never resolves a qualifier to anything but a table
    of the list: each of its values is the (non-empty) name of a table found
    in the query, stored under that name or under the alias of that table. *)
Theorem alias_map_resolves_to_found_tables
        (V : Vocabulary) (query : string) (key value : string) :
  buildAliasMap (extractTablesWithAliases V query) !! key = Some value ->
  value <> EmptyString /\
  exists t, t ∈ extractTablesWithAliases V query /\ tableName t = value /\
            (key = value \/ alias t = Some key).
Proof.
  intros H. apply buildAliasMap_value in H. destruct H as (t & Ht & Hv & Hk).
  split; [rewrite <- Hv; apply (extracted_tableName_not_empty V query t Ht)|].
  exists t. split; [exact Ht|]. split; [exact Hv|].
  destruct Hk as [->|(Ha & _)]; auto.
Qed.

(** ** The tables that the validator reads *)


Lemma fold_left_ext_in {A B : Type} (f g : A -> B -> A) (l : list B) :
  (forall a x, x ∈ l -> f a x = g a x) ->
  forall a, fold_left f l a = fold_left g l a.
Proof.
  induction l as [|x l IH]; intros H a; [reflexivity|].
  simpl. rewrite (H a x) by left. apply IH.
  intros a' y Hy. apply H. right. exact Hy.
Qed.

Lemma filter_bool_ext {A : Type} (f g : A -> bool) (l : list A) :
  (forall x, x ∈ l -> f x = g x) ->
  filter (fun x => f x) l = filter (fun x => g x) l.
Proof.
  induction l as [|x l IH]; intros H; [reflexivity|].
  rewrite !filter_cons, (H x) by left.
  rewrite IH by (intros y Hy; apply H; right; exact Hy).
  reflexivity.
Qed.

(** The validator reads the schema through the tables found under the
    names of the tables of the query, and through nothing else. *)
Lemma validateReference_reads_found found schema1 schema2 r :
  (forall t, t ∈ found ->
             findTable (tableName t) schema1 = findTable (tableName t) schema2) ->
  validateReference found schema1 r = validateReference found schema2 r.
Proof.
  intros Hsame.
  assert (Hcols : forall t, t ∈ found ->
                            getTableColumns (tableName t) schema1 =
                            getTableColumns (tableName t) schema2).
  { intros t Ht. unfold getTableColumns. rewrite (Hsame t Ht). reflexivity. }
  assert (Hex : forall t, t ∈ found ->
                          tableExistsInSchema (tableName t) schema1 =
                          tableExistsInSchema (tableName t) schema2).
  { intros t Ht. rewrite !tableExists_findTable, (Hsame t Ht). reflexivity. }
  unfold validateReference.
  destruct (truthy (ref_table r)).
  - destruct (buildAliasMap found !! default EmptyString (ref_table r))
      as [actual|] eqn:Hactual; [|reflexivity].
    destruct (buildAliasMap_value _ _ _ Hactual) as (t & Ht & Hname & _).
    subst actual. cbn [default from_option id].
    rewrite (Hex t Ht), (Hcols t Ht). reflexivity.
  - assert (Hall : getAllColumnsInScope found schema1 =
                   getAllColumnsInScope found schema2).
    { unfold getAllColumnsInScope. apply fold_left_ext_in.
      intros a t Ht. rewrite (Hcols t Ht). reflexivity. }
    rewrite Hall.
    rewrite (filter_bool_ext (fun t => tableExistsInSchema (tableName t) schema1)
                             (fun t => tableExistsInSchema (tableName t) schema2)
                             found Hex).
    reflexivity.
Qed.

Lemma find_filter {A : Type} (p : A -> bool) (Q : A -> Prop)
      `{forall x, Decision (Q x)} (l : list A) :
  (forall x, p x = true -> Q x) -> find p (filter Q l) = find p l.
Proof.
  intros HpQ. induction l as [|x l IH]; [reflexivity|].
  rewrite filter_cons. destruct (decide (Q x)) as [Hq|Hq]; simpl.
  - rewrite IH. reflexivity.
  - destruct (p x) eqn:Hp; [destruct Hq; apply HpQ; exact Hp | exact IH].
Qed.

(** X28.  The diagnostics depend on the schema only through the tables that
    the query names: without the other tables the validator reports the
    same. *)
Theorem unnamed_tables_are_irrelevant
        (V : Vocabulary) (query : string) (schema : DatabaseSchema) :
  validateColumns V query (restrictTo (extractTablesWithAliases V query) schema) =
  validateColumns V query schema.
Proof.
  unfold validateColumns.
  destruct (negb (truthy (Some (trim query)))); [reflexivity|].
  cbv zeta. destruct (length (extractTablesWithAliases V query) =? 0); [reflexivity|].
  unfold validateReferences.
  induction (extractColumnReferences V query (extractTablesWithAliases V query))
    as [|r refs IH]; [reflexivity|].
  cbn [omap list_omap].
  change (list_omap ?f ?l) with (omap f l). rewrite IH.
  rewrite (validateReference_reads_found (extractTablesWithAliases V query)
             (restrictTo (extractTablesWithAliases V query) schema) schema r);
    [reflexivity|].
  intros t Ht. unfold findTable, restrictTo. cbn [tables].
  apply find_filter. intros T HT. apply String.eqb_eq in HT.
  unfold namedBy. apply bool_decide_pack. rewrite HT.
  apply list_elem_of_In, in_map_iff. exists t.
  split; [reflexivity | apply list_elem_of_In; exact Ht].
Qed.

(** ** Column aliases *)


Lemma isPrefixOf_lookup p :
  forall l, isPrefixOf p l = true ->
            forall n ch, p !! n = Some ch -> l !! n = Some ch.
Proof.
  induction p as [|c p IH]; intros l H n ch Hn; [rewrite lookup_nil in Hn; discriminate|].
  destruct l as [|d l]; [discriminate|]. simpl in H.
  apply andb_true_iff in H. destruct H as (Hcd & H).
  apply Ascii.eqb_eq in Hcd. subst d.
  destruct n as [|n]; [exact Hn|]. simpl in *. exact (IH l H n ch Hn).
Qed.

Lemma isPrefixOf_refl p : isPrefixOf p p = true.
Proof. induction p as [|c p IH]; simpl; [reflexivity|]. rewrite Ascii.eqb_refl. exact IH. Qed.

(** The first occurrence is the first element of the list of occurrences. *)
Lemma first_occurrence needle :
  forall hay i k,
    (forall j, j < k -> isPrefixOf needle (drop j hay) = false) ->
    isPrefixOf needle (drop k hay) = true ->
    exists tl, occurrencesFrom needle hay i = (i + k) :: tl.
Proof.
  intros hay. induction hay as [|a hay IH]; intros i k Hno Hyes.
  - destruct k as [|k].
    + simpl in *. rewrite Hyes. rewrite Nat.add_0_r. eexists. reflexivity.
    + specialize (Hno 0 ltac:(lia)). rewrite drop_nil in Hyes. simpl in Hno.
      congruence.
  - destruct k as [|k].
    + simpl in Hyes. cbn [occurrencesFrom]. rewrite Hyes, Nat.add_0_r.
      eexists. reflexivity.
    + assert (H0 := Hno 0 ltac:(lia)). simpl in H0.
      cbn [occurrencesFrom]. rewrite H0. cbn [app].
      destruct (IH (S i) k) as (tl & Htl).
      * intros j Hj. apply (Hno (S j)). lia.
      * exact Hyes.
      * exists tl. rewrite Htl. f_equal. lia.
Qed.

(** A match of the column-alias pattern: the two letters, white space up to
    offset [a], and the alias from [a] to the end of the match. *)
Lemma column_alias_match s m :
  MatchOf true columnAliasRegex s m ->
  exists a,
    index m + 2 < a /\ a < stop m /\ stop m <= String.length s /\
    (forall x, index m + 2 <= x < a ->
               exists ch, chars s !! x = Some ch /\ isWhiteSpace ch = true) /\
    (forall x, a <= x < stop m ->
               exists ch, chars s !! x = Some ch /\ isWordChar ch = true) /\
    matched m = slice s (index m) (stop m) /\
    group' m 1 = slice s a (stop m).
Proof.
  intros (Hsub & H).
  destruct H as (i0 & c0 & (_ & -> & ->) &
                 (i1 & c1 & Hlit & (a & c2 & Hws & (c3 & Hw & Hcaps)))).
  unfold word in Hlit. apply Matches_lit in Hlit. destruct Hlit as (-> & -> & _).
  apply Matches_plus_class in Hws. destruct Hws as (-> & Hlt & Hws).
  apply Matches_plus_class in Hw. destruct Hw as (-> & Hlt' & Hw).
  change (length (chars "AS")) with 2 in *.
  assert (Hstop : stop m <= String.length s).
  { destruct (Hw (stop m - 1) ltac:(lia)) as (ch & Hch & _).
    apply lookup_lt_Some in Hch. rewrite length_chars in Hch. lia. }
  exists a. repeat split; try assumption; try lia.
  - unfold matched, slice. rewrite Hsub. reflexivity.
  - unfold group', group. rewrite Hcaps, lookup_insert_eq, Hsub. reflexivity.
Qed.

Lemma drop_sliceChars (l : list ascii) i a e :
  i <= a -> a <= e -> drop (a - i) (sliceChars l i e) = sliceChars l a e.
Proof.
  intros Hia Hae. unfold sliceChars. apply list_eq. intros n.
  rewrite lookup_drop. destruct (decide (n < e - a)) as [Hn|Hn].
  - rewrite !lookup_take_lt, !lookup_drop by lia. f_equal. lia.
  - rewrite !lookup_take_ge by lia. reflexivity.
Qed.

(** In the text of such a match the alias, when it has more than two
    characters, first occurs where it stands. *)
Lemma column_alias_offset s m :
  MatchOf true columnAliasRegex s m ->
  2 < String.length (group' m 1) ->
  indexOf (matched m) (group' m 1) =
  (Z.of_nat (stop m - String.length (group' m 1)) - Z.of_nat (index m))%Z /\
  index m < stop m - String.length (group' m 1).
Proof.
  intros Hm Hlen. apply column_alias_match in Hm.
  destruct Hm as (a & Ha & Hae & He & Hws & Hw & Hmatched & Hgroup).
  assert (Hglen : String.length (group' m 1) = stop m - a).
  { rewrite Hgroup. unfold slice. rewrite length_str, length_sliceChars;
      [reflexivity | lia | rewrite length_chars; lia]. }
  rewrite Hglen in *.
  replace (stop m - (stop m - a)) with a by lia.
  split; [|lia].
  unfold indexOf. rewrite Hmatched, Hgroup. unfold slice. rewrite !chars_str.
  destruct (first_occurrence (sliceChars (chars s) a (stop m))
                             (sliceChars (chars s) (index m) (stop m)) 0
                             (a - index m)) as (tl & Htl).
  - intros j Hj.
    destruct (isPrefixOf _ (drop j _)) eqn:Hp; [|reflexivity]. exfalso.
    set (p := Nat.max j 2).
    destruct (Hw (a + (p - j)) ltac:(lia)) as (ch & Hch & Hword).
    assert (Hneedle : sliceChars (chars s) a (stop m) !! (p - j) = Some ch).
    { rewrite sliceChars_lookup by lia. exact Hch. }
    apply (isPrefixOf_lookup _ _ Hp) in Hneedle.
    rewrite lookup_drop, sliceChars_lookup in Hneedle by lia.
    destruct (Hws (index m + (j + (p - j))) ltac:(lia)) as (ch' & Hch' & Hwhite).
    rewrite Hch' in Hneedle. inversion Hneedle; subst ch'.
    apply white_space_is_no_word_char in Hwhite. congruence.
  - rewrite drop_sliceChars by lia. apply isPrefixOf_refl.
  - rewrite Htl. simpl. lia.
Qed.

(** X27.  A column alias of more than two characters is no column
    reference: where the alias of a match of the column-alias pattern
    stands, no reference starts.  (An alias of one or two characters that is
    a piece of the AS before it, written in the same letters, is not
    protected.) *)
Theorem column_alias_is_no_reference
        (V : Vocabulary) (query : string) (found : list TableAlias)
        (m : Match) (r : ColumnReference) :
  m ∈ execAll true columnAliasRegex query ->
  2 < String.length (group' m 1) ->
  r ∈ extractColumnReferences V query found ->
  group' m 1 = slice query (stop m - String.length (group' m 1)) (stop m) /\
  ref_position r <> stop m - String.length (group' m 1).
Proof.
  intros Hin Hlen Hr.
  assert (Hm := execAll_MatchOf _ _ _ _ Hin).
  destruct (column_alias_offset query m Hm Hlen) as (Hoff & Hlt).
  split.
  - apply column_alias_match in Hm.
    destruct Hm as (a & Ha & Hae & He & _ & _ & _ & Hgroup).
    assert (Hglen : String.length (group' m 1) = stop m - a).
    { rewrite Hgroup. unfold slice. rewrite length_str, length_sliceChars;
        [reflexivity | lia | rewrite length_chars; lia]. }
    rewrite Hglen. replace (stop m - (stop m - a)) with a by lia. exact Hgroup.
  - intros Hpos.
    apply extractColumnReferences_inv in Hr. destruct Hr as (m' & _ & Hr).
    destruct (referenceOfMatch_filters V query found m' r Hr) as (_ & _ & Hskip & _).
    apply referenceOfMatch_Some in Hr. destruct Hr as (_ & Hp & _).
    apply Hskip. rewrite <- Hp, Hpos.
    unfold skipPositions. apply elem_of_list_to_set.
    apply elem_of_app. right. apply elem_of_app. right.
    apply list_elem_of_In, in_map_iff. exists m.
    split; [rewrite Hoff; lia | apply list_elem_of_In; exact Hin].
Qed.

(* ===================================================================== *)
(** * Properties of the schema loader *)
(* ===================================================================== *)


Lemma mapSet_entries names n :
  mapSet n (newTable {| tr_table_name := n |}) (tableEntries names) =
  tableEntries (addName names n).
Proof.
  unfold addName, tableEntries.
  induction names as [|k names IH]; simpl.
  - destruct (decide (n ∈ [])) as [H|_]; [apply elem_of_nil in H; destruct H|].
    reflexivity.
  - destruct (String.eqb k n) eqn:Hk.
    + apply String.eqb_eq in Hk. subst k.
      rewrite decide_True by left. reflexivity.
    + apply String.eqb_neq in Hk. rewrite IH.
      destruct (decide (n ∈ names)) as [Hin|Hin].
      * rewrite decide_True by (right; exact Hin). reflexivity.
      * rewrite decide_False; [reflexivity|].
        intros H. apply elem_of_cons in H. destruct H as [->|H]; contradiction.
Qed.

Lemma table_loop rows :
  forall names,
    fold_left (fun tableMap row => mapSet (tr_table_name row) (newTable row) tableMap)
              rows (tableEntries names) =
    tableEntries (fold_left addName (map tr_table_name rows) names).
Proof.
  induction rows as [|[n] rows IH]; intros names; simpl; [reflexivity|].
  unfold newTable at 2. simpl. rewrite mapSet_entries. apply IH.
Qed.

Lemma fold_addName l :
  forall names,
    fold_left addName l names =
    names ++ filter (fun y => y ∉ names) (firstOccurrences l).
Proof.
  induction l as [|x l IH]; intros names; simpl.
  - rewrite app_nil_r. reflexivity.
  - rewrite IH, filter_cons, list_filter_filter. unfold addName.
    destruct (decide (x ∈ names)) as [Hin|Hin].
    + rewrite decide_False by (intros H; contradiction). f_equal.
      apply list_filter_iff. intros y. split; [|tauto].
      intros Hy. split; [exact Hy|]. intros ->. contradiction.
    + rewrite decide_True by exact Hin. rewrite <- app_assoc. simpl. do 2 f_equal.
      apply list_filter_iff. intros y.
      rewrite not_elem_of_app, not_elem_of_cons. split; [tauto|].
      intros (Hy & Hne). repeat split; [exact Hy | exact Hne | apply not_elem_of_nil].
Qed.

Lemma firstOccurrences_elem l x : x ∈ firstOccurrences l <-> x ∈ l.
Proof.
  induction l as [|y l IH]; simpl; [reflexivity|].
  rewrite !elem_of_cons, list_elem_of_filter, IH.
  destruct (decide (x = y)); tauto.
Qed.

Lemma firstOccurrences_NoDup l : NoDup (firstOccurrences l).
Proof.
  induction l as [|y l IH]; simpl; [constructor|].
  apply NoDup_cons. split; [|apply NoDup_filter; exact IH].
  rewrite list_elem_of_filter. tauto.
Qed.

Lemma firstOccurrences_id l : NoDup l -> firstOccurrences l = l.
Proof.
  induction 1 as [|x l Hx Hl IH]; simpl; [reflexivity|].
  rewrite IH. f_equal. clear IH Hl.
  induction l as [|y l IHl]; [reflexivity|].
  rewrite not_elem_of_cons in Hx. destruct Hx as (Hne & Hx).
  rewrite filter_cons, decide_True by congruence. f_equal. apply IHl. exact Hx.
Qed.

(** Updates of the objects of a map with distinct keys. *)
Lemma mapUpdate_distinct key f m :
  NoDup (map fst m) ->
  match mapGet key m with
  | Some _ => mapUpdate key f m
  | None => m
  end = map (fun e => (e.1, if decide (e.1 = key) then f e.2 else e.2)) m.
Proof.
  induction m as [|[k v] m IH]; intros Hnd; simpl; [reflexivity|].
  simpl in Hnd. apply NoDup_cons in Hnd. destruct Hnd as (Hk & Hnd).
  destruct (String.eqb k key) eqn:Hkey.
  - apply String.eqb_eq in Hkey. subst k. rewrite decide_True by reflexivity.
    f_equal. clear IH Hnd. induction m as [|[k v'] m IHm]; [reflexivity|].
    simpl in Hk. rewrite not_elem_of_cons in Hk. destruct Hk as (Hne & Hk).
    simpl. rewrite decide_False by congruence. f_equal. apply IHm. exact Hk.
  - apply String.eqb_neq in Hkey. rewrite decide_False by exact Hkey.
    specialize (IH Hnd). destruct (mapGet key m); rewrite <- IH; reflexivity.
Qed.

Lemma row_loop {Row : Type} (key : Row -> string) (push : Row -> TableInfo -> TableInfo)
      (rows : list Row) :
  forall m,
    NoDup (map fst m) ->
    fold_left (fun tableMap row =>
                 match mapGet (key row) tableMap with
                 | Some _ => mapUpdate (key row) (push row) tableMap
                 | None => tableMap
                 end) rows m =
    map (fun e => (e.1, fold_left (fun T row => push row T)
                                  (filter (fun row => key row = e.1) rows) e.2)) m.
Proof.
  induction rows as [|row rows IH]; intros m Hnd; simpl.
  - induction m as [|[k v] m IHm]; [reflexivity|]. simpl. f_equal.
    apply IHm. simpl in Hnd. apply NoDup_cons in Hnd. tauto.
  - rewrite (mapUpdate_distinct (key row) (push row) m Hnd).
    rewrite IH.
    + rewrite map_map. apply map_ext. intros [k v]. simpl. f_equal.
      rewrite filter_cons.
      destruct (decide (k = key row)) as [->|Hne].
      * rewrite decide_True by reflexivity. reflexivity.
      * rewrite decide_False by congruence. reflexivity.
    + rewrite map_map. simpl. exact Hnd.
Qed.

Lemma pushColumns_columns rows :
  forall T, pushColumns rows T =
            {| tbl_name := tbl_name T; tbl_schema := tbl_schema T;
               columns := columns T ++ map columnOfRow rows;
               foreignKeys := foreignKeys T |}.
Proof.
  unfold pushColumns. induction rows as [|row rows IH]; intros T; simpl.
  - rewrite app_nil_r. destruct T; reflexivity.
  - rewrite IH. simpl. rewrite <- app_assoc. reflexivity.
Qed.

Lemma pushForeignKeys_foreignKeys rows :
  forall T, pushForeignKeys rows T =
            {| tbl_name := tbl_name T; tbl_schema := tbl_schema T;
               columns := columns T;
               foreignKeys := foreignKeys T ++ map foreignKeyOfRow rows |}.
Proof.
  unfold pushForeignKeys. induction rows as [|row rows IH]; intros T; simpl.
  - rewrite app_nil_r. destruct T; reflexivity.
  - rewrite IH. simpl. rewrite <- app_assoc. reflexivity.
Qed.

(** The loader groups the rows by table. *)
Lemma assembleSchema_tables kws fns tableRows columnRows foreignKeyRows :
  tables (assembleSchema kws fns tableRows columnRows foreignKeyRows) =
  map (tableOfRows columnRows foreignKeyRows)
      (firstOccurrences (map tr_table_name tableRows)).
Proof.
  unfold assembleSchema. cbn [tables].
  change (@nil (string * TableInfo)) with (tableEntries []).
  rewrite table_loop, fold_addName. cbn [app].
  rewrite (list_filter_iff _ (fun _ => True))
    by (intros y; split; [auto | intros _; apply not_elem_of_nil]).
  assert (Hall : forall l : list string, filter (fun _ : string => True) l = l).
  { induction l as [|y l IHl]; [reflexivity|].
    rewrite filter_cons, decide_True by exact I. f_equal. exact IHl. }
  rewrite Hall.
  set (names := firstOccurrences (map tr_table_name tableRows)).
  assert (Hnd : NoDup names) by apply firstOccurrences_NoDup.
  rewrite (row_loop cr_table_name (fun row => pushColumn (columnOfRow row)))
    by (unfold tableEntries; rewrite map_map, map_id; exact Hnd).
  rewrite (row_loop fr_table_name (fun row => pushForeignKey (foreignKeyOfRow row)))
    by (unfold tableEntries; rewrite !map_map, map_id; exact Hnd).
  unfold tableEntries. rewrite !map_map. apply map_ext. intros n. simpl.
  fold (pushColumns (filter (fun row => cr_table_name row = n) columnRows)
                    (newTable {| tr_table_name := n |})).
  fold (pushForeignKeys (filter (fun row => fr_table_name row = n) foreignKeyRows)
         (pushColumns (filter (fun row => cr_table_name row = n) columnRows)
                      (newTable {| tr_table_name := n |}))).
  rewrite pushForeignKeys_foreignKeys, pushColumns_columns. reflexivity.
Qed.

Lemma schema_eq (s1 s2 : DatabaseSchema) :
  tables s1 = tables s2 -> keywords s1 = keywords s2 ->
  functions s1 = functions s2 -> s1 = s2.
Proof. destruct s1, s2; simpl; intros; subst; reflexivity. Qed.

(** X15.  The loader groups the catalog rows by table: its tables are those
    of the table rows, each once, in the order of their first rows; the
    columns and the foreign keys of a table are those of the rows that name
    it, in the order of the rows; the vocabulary lists are attached. *)
Theorem loadSchema_groups_rows
        (SQL_KEYWORDS SQL_FUNCTIONS : list string) (tableRows : list TableRow)
        (columnRows : list ColumnRow) (foreignKeyRows : list ForeignKeyRow) :
  loadSchema SQL_KEYWORDS SQL_FUNCTIONS
             {| tablesResult := Some tableRows; columnsResult := Some columnRows;
                foreignKeysResult := Some foreignKeyRows |} =
  Some {| tables := map (tableOfRows columnRows foreignKeyRows)
                        (firstOccurrences (map tr_table_name tableRows));
          keywords := SQL_KEYWORDS;
          functions := SQL_FUNCTIONS |}.
Proof.
  unfold loadSchema. cbn [tablesResult columnsResult foreignKeysResult]. f_equal.
  apply schema_eq; [|reflexivity|reflexivity].
  rewrite assembleSchema_tables. reflexivity.
Qed.

Lemma tableOfRows_known_rows (names : list string) columnRows foreignKeyRows n :
  n ∈ names ->
  tableOfRows (filter (fun row => cr_table_name row ∈ names) columnRows)
              (filter (fun row => fr_table_name row ∈ names) foreignKeyRows) n =
  tableOfRows columnRows foreignKeyRows n.
Proof.
  intros Hn. unfold tableOfRows. rewrite !list_filter_filter. f_equal; f_equal.
  - apply list_filter_iff. intros row. split; [tauto|]. intros E. split; [exact E|].
    rewrite E. exact Hn.
  - apply list_filter_iff. intros row. split; [tauto|]. intros E. split; [exact E|].
    rewrite E. exact Hn.
Qed.

(** X16.  Column rows and foreign-key rows that name a table without a table
    row are dropped, and nothing else is: the schema is the one loaded
    without them. *)
Theorem rows_of_unknown_tables_are_dropped
        (SQL_KEYWORDS SQL_FUNCTIONS : list string) (tableRows : list TableRow)
        (columnRows : list ColumnRow) (foreignKeyRows : list ForeignKeyRow) :
  let known := map tr_table_name tableRows in
  assembleSchema SQL_KEYWORDS SQL_FUNCTIONS tableRows columnRows foreignKeyRows =
  assembleSchema SQL_KEYWORDS SQL_FUNCTIONS tableRows
                 (filter (fun row => cr_table_name row ∈ known) columnRows)
                 (filter (fun row => fr_table_name row ∈ known) foreignKeyRows).
Proof.
  intros known. apply schema_eq; [|reflexivity|reflexivity].
  rewrite !assembleSchema_tables.
  apply map_ext_in. intros n Hn. symmetry. apply tableOfRows_known_rows.
  apply list_elem_of_In in Hn. apply (proj1 (firstOccurrences_elem _ _)) in Hn. exact Hn.
Qed.

Lemma find_loaded_table columnRows foreignKeyRows (names : list string) n name :
  NoDup (map toLowerCase names) -> n ∈ names ->
  toLowerCase name = toLowerCase n ->
  find (fun T => String.eqb (toLowerCase (tbl_name T)) (toLowerCase name))
       (map (tableOfRows columnRows foreignKeyRows) names) =
  Some (tableOfRows columnRows foreignKeyRows n).
Proof.
  intros Hnd Hn Hname. induction names as [|k names IH]; [inversion Hn|].
  simpl in Hnd. apply NoDup_cons in Hnd. destruct Hnd as (Hk & Hnd). simpl.
  destruct (String.eqb (toLowerCase k) (toLowerCase name)) eqn:E.
  - apply String.eqb_eq in E. apply elem_of_cons in Hn. destruct Hn as [->|Hn];
      [reflexivity|].
    exfalso. apply Hk. rewrite E, Hname. apply list_elem_of_In, in_map.
    apply list_elem_of_In. exact Hn.
  - apply String.eqb_neq in E. apply elem_of_cons in Hn. destruct Hn as [->|Hn];
      [congruence|].
    apply IH; assumption.
Qed.

Lemma loaded_column_known kws fns tableRows columnRows foreignKeyRows row name :
  NoDup (map (fun tr => toLowerCase (tr_table_name tr)) tableRows) ->
  row ∈ columnRows ->
  cr_table_name row ∈ map tr_table_name tableRows ->
  toLowerCase name = toLowerCase (cr_table_name row) ->
  toLowerCase (cr_column_name row) ∈
    columnNamesOf name (assembleSchema kws fns tableRows columnRows foreignKeyRows).
Proof.
  intros Hnd Hrow Htable Hname. unfold columnNamesOf, findTable.
  rewrite assembleSchema_tables.
  assert (Hnd' : NoDup (map toLowerCase (map tr_table_name tableRows)))
    by (rewrite map_map; exact Hnd).
  assert (Hnames : NoDup (map tr_table_name tableRows)).
  { clear -Hnd'. induction (map tr_table_name tableRows) as [|k l IH]; [constructor|].
    simpl in Hnd'. apply NoDup_cons in Hnd'. destruct Hnd' as (Hk & Hl).
    apply NoDup_cons. split; [|apply IH; exact Hl].
    intros Hin. apply Hk. apply list_elem_of_In, in_map, list_elem_of_In. exact Hin. }
  rewrite (firstOccurrences_id _ Hnames).
  rewrite (find_loaded_table _ _ _ (cr_table_name row) name Hnd' Htable Hname).
  simpl. apply list_elem_of_In, in_map_iff. exists (columnOfRow row).
  split; [reflexivity|]. apply in_map. apply list_elem_of_In, list_elem_of_filter.
  split; [reflexivity | exact Hrow].
Qed.

(** X17.  A column that the catalog lists for a table is never reported
    (table names being distinct up to letter case): neither as an unqualified
    reference when that table is among the tables of the query, nor as a
    reference qualified by a name that resolves to that table. *)
Theorem loaded_column_is_accepted
        (SQL_KEYWORDS SQL_FUNCTIONS : list string) (tableRows : list TableRow)
        (columnRows : list ColumnRow) (foreignKeyRows : list ForeignKeyRow)
        (row : ColumnRow) (found : list TableAlias) (r : ColumnReference) :
  let schema :=
    assembleSchema SQL_KEYWORDS SQL_FUNCTIONS tableRows columnRows foreignKeyRows in
  NoDup (map (fun tr => toLowerCase (tr_table_name tr)) tableRows) ->
  row ∈ columnRows ->
  cr_table_name row ∈ map tr_table_name tableRows ->
  ref_name r = toLowerCase (cr_column_name row) ->
  (ref_table r = None /\
   exists t, t ∈ found /\ toLowerCase (tableName t) = toLowerCase (cr_table_name row)) \/
  (exists qualifier actual,
      ref_table r = Some qualifier /\ qualifier <> EmptyString /\
      buildAliasMap found !! qualifier = Some actual /\
      toLowerCase actual = toLowerCase (cr_table_name row)) ->
  validateReference found schema r = None.
Proof.
  intros schema Hnd Hrow Htable Hname Hcases.
  assert (Hcol : forall name, toLowerCase name = toLowerCase (cr_table_name row) ->
                              ref_name r ∈ columnNamesOf name schema).
  { intros name E. rewrite Hname. apply loaded_column_known; assumption. }
  unfold validateReference, has.
  destruct Hcases as [(Hnone & t & Ht & E)|(q & actual & Hq & Hne & Hmap & E)].
  - rewrite Hnone. simpl truthy. cbv iota.
    rewrite bool_decide_eq_true_2; [reflexivity|].
    apply elem_of_getAllColumnsInScope. unfold columnsInScope.
    apply list_elem_of_In, in_flat_map. exists t.
    split; [apply list_elem_of_In; exact Ht|]. apply list_elem_of_In, Hcol, E.
  - rewrite Hq. simpl. apply String.eqb_neq in Hne. rewrite Hne. simpl.
    rewrite Hmap. simpl.
    destruct (negb (negb (String.eqb actual EmptyString))); [reflexivity|].
    destruct (negb (tableExistsInSchema actual schema)); [reflexivity|].
    rewrite bool_decide_eq_true_2; [reflexivity|].
    apply elem_of_getTableColumns, Hcol, E.
Qed.

(* ===================================================================== *)
(** * Properties of the editor *)
(* ===================================================================== *)

(** ** Greedy matching of a run of characters *)


(** [/^\w+/] on a string that starts with a run of [e] word characters. *)
Lemma wordPrefix_match s e :
  0 < e ->
  (forall x, x < e -> exists d, chars s !! x = Some d /\ isWordChar d = true) ->
  charIs isWordChar (chars s) e = false ->
  exists m, matchOnce false wordPrefixRegex s = Some m /\
            String.length (matched m) = e.
Proof.
  intros He Hrun Hend.
  assert (Hlen : e <= length (chars s)).
  { destruct (Hrun (e - 1) ltac:(lia)) as (d & Hd & _).
    apply lookup_lt_Some in Hd. lia. }
  assert (Hm : matcher false (chars s) wordPrefixRegex 0 ∅ (accept) = Some (e, ∅)).
  { cbn [wordPrefixRegex cat matcher Plus w]. cbn [Nat.eqb].
    destruct (Hrun 0 He) as (d & Hd & Hp). rewrite Hd, Hp.
    apply (star_class_greedy false (chars s) isWordChar (e - 1)).
    - intros x Hx. apply Hrun. lia.
    - replace (1 + (e - 1)) with e by lia. exact Hend.
    - replace (1 + (e - 1)) with e by lia. reflexivity. }
  unfold matchOnce, exec. rewrite (proj2 (Nat.leb_le 0 _)) by lia.
  destruct (length (chars s) - 0); cbn [search]; rewrite Hm;
    (eexists; split; [reflexivity|]); unfold matched; cbn [subject index stop];
    rewrite length_str, length_sliceChars; lia.
Qed.

(** The token of an identifier match is a maximal run of word characters. *)
Lemma isIdentStart_word c : isIdentStart c = true -> isWordChar c = true.
Proof.
  unfold isIdentStart, isWordChar. intros H.
  repeat (apply orb_true_iff in H; destruct H as [H|H]); rewrite H;
    repeat rewrite orb_true_r; reflexivity.
Qed.

Lemma identifier_token s m :
  MatchOf false identifierRegex s m ->
  (forall x, index m <= x < stop m ->
             exists d, chars s !! x = Some d /\ isWordChar d = true) /\
  charIs isWordChar (chars s) (stop m) = false.
Proof.
  intros (_ & H).
  destruct H as (i & c & (_ & -> & ->) & (j & c1 & (c2 & Hid & ->) & (Hb & Hj & _))).
  subst j.
  destruct Hid as (x0 & c3 & (d & Hd & Hp & -> & ->) & Hrest).
  apply Matches_star_class in Hrest. destruct Hrest as (_ & Hle & Hparts).
  assert (Hrun : forall x, index m <= x < stop m ->
                           exists d, chars s !! x = Some d /\ isWordChar d = true).
  { intros x Hx. destruct (decide (x = index m)) as [->|Hne].
    - exists d. split; [exact Hd | apply isIdentStart_word; exact Hp].
    - apply Hparts. lia. }
  split; [exact Hrun|].
  unfold atWordBoundary in Hb.
  destruct (stop m) as [|before] eqn:Hstop; [lia|].
  destruct (Hrun before ltac:(lia)) as (d' & Hd' & Hw').
  unfold wordAt in Hb. rewrite Hd', Hw' in Hb. unfold charIs.
  destruct (chars s !! S before) as [d''|]; [|reflexivity].
  destruct (isWordChar d''); [discriminate | reflexivity].
Qed.

(** ** Decorations *)

Lemma wordPrefix_not_empty s m :
  matchOnce false wordPrefixRegex s = Some m -> 0 < String.length (matched m).
Proof.
  unfold matchOnce. intros H. apply exec_sound in H.
  destruct H as ((Hsub & H) & _ & Hi).
  apply Matches_bounds in H; [|exact Hi]. simpl in H.
  unfold matched. rewrite length_str, length_sliceChars; [lia | lia |].
  rewrite Hsub. lia.
Qed.

Lemma decorationOfError_bounds query err d :
  decorationOfError query err = Some d ->
  (0 <= dec_start d < dec_end d)%Z /\
  (dec_end d <= Z.of_nat (String.length query))%Z /\
  qe_position err = Some (dec_start d + 1)%Z.
Proof.
  unfold decorationOfError. destruct (qe_position err) as [p|]; [|discriminate].
  destruct (_ || _) eqn:Hout; [discriminate|].
  apply orb_false_iff in Hout. destruct Hout as (Hneg & Hlen).
  apply Z.ltb_ge in Hneg. apply Z.leb_gt in Hlen.
  intros E. inversion E; subst d; clear E. cbn [dec_start dec_end].
  assert (Hpos : 0 < match matchOnce false wordPrefixRegex
                             (slice query (Z.to_nat (p - 1)) (String.length query)) with
                     | Some m => String.length (matched m)
                     | None => 1
                     end).
  { destruct (matchOnce _ _ _) as [m|] eqn:Hm; [|lia].
    apply wordPrefix_not_empty in Hm. exact Hm. }
  repeat split; [lia | lia | lia | f_equal; lia].
Qed.

(** X18.  Every decoration of the editor, whether it comes from a client or
    from a server error, is a non-empty span inside the text of the query,
    and starts at the (1-indexed) position of its error. *)
Theorem decorations_lie_in_the_query
        (query : string) (errors : list QueryError) (decorations : list Decoration)
        (d : Decoration) :
  errorDecorations query errors = Some decorations ->
  d ∈ decorations ->
  (0 <= dec_start d < dec_end d)%Z /\
  (dec_end d <= Z.of_nat (String.length query))%Z /\
  exists err, err ∈ errors /\ qe_position err = Some (dec_start d + 1)%Z.
Proof.
  unfold errorDecorations. destruct (length errors =? 0); [discriminate|].
  destruct (0 <? length _); [|discriminate].
  intros E Hd. inversion E; subst decorations; clear E.
  apply list_elem_of_omap in Hd. destruct Hd as (err & Herr & Hdec).
  apply decorationOfError_bounds in Hdec. destruct Hdec as (H1 & H2 & H3).
  split; [exact H1|]. split; [exact H2|]. eauto.
Qed.

Lemma chars_suffix s a :
  chars (slice s a (String.length s)) = drop a (chars s).
Proof.
  unfold slice, sliceChars. rewrite chars_str.
  apply take_ge. rewrite length_drop, length_chars. lia.
Qed.

Lemma decoration_of_diagnostic V query schema d :
  d ∈ validateColumns V query schema ->
  decorationOfError query
    {| qe_message := message d;
       qe_position := Some (Z.of_nat (position d) + 1)%Z;
       qe_hint := hint d; qe_severity := "ERROR"; qe_source := "client" |} =
  Some (spanOf d).
Proof.
  intros Hd. apply validateColumns_from_reference in Hd.
  destruct Hd as (r & Hr & Hv). apply validateReference_Some in Hv.
  destruct Hv as (Hpos & Hend & _).
  apply reference_span in Hr.
  destruct Hr as (m & Hm & Hp & He & Hlt & Hle & _).
  apply identifier_token in Hm. destruct Hm as (Hrun & Hstop).
  unfold decorationOfError. cbn [qe_position qe_severity].
  replace (Z.of_nat (position d) + 1 - 1)%Z with (Z.of_nat (position d)) by lia.
  rewrite Nat2Z.id.
  replace (Z.of_nat (position d) <? 0)%Z with false by (symmetry; apply Z.ltb_ge; lia).
  replace (Z.of_nat (String.length query) <=? Z.of_nat (position d))%Z with false
    by (symmetry; apply Z.leb_gt; lia).
  cbn [orb].
  destruct (wordPrefix_match (slice query (position d) (String.length query))
                             (endPosition d - position d)) as (wm & Hwm & Hlen).
  - lia.
  - intros x Hx. rewrite chars_suffix, lookup_drop. apply Hrun. lia.
  - unfold charIs. rewrite chars_suffix, lookup_drop.
    replace (position d + (endPosition d - position d)) with (stop m) by lia.
    exact Hstop.
  - rewrite Hwm, Hlen. unfold spanOf.
    change (String.eqb "ERROR" "WARNING") with false. cbn iota.
    do 2 f_equal. lia.
Qed.

(** X19.  The decorations of the client diagnostics are exactly the spans
    that the validator reports, in the same order, styled as errors: the
    1-indexed position and the word found at it in the text give back the
    start and the end of each diagnostic. *)
Theorem client_decorations_are_the_spans
        (V : Vocabulary) (query : string) (schema : DatabaseSchema) :
  errorDecorations query (clientValidationErrors V query (Some schema)) =
  match validateColumns V query schema with
  | [] => None
  | diagnostics => Some (map spanOf diagnostics)
  end.
Proof.
  unfold clientValidationErrors.
  destruct (negb (truthy (Some (trim query)))) eqn:Hblank.
  - unfold validateColumns. rewrite Hblank. reflexivity.
  - assert (Hdec : forall l,
               (forall d, d ∈ l -> d ∈ validateColumns V query schema) ->
               omap (decorationOfError query)
                    (map (fun err => {| qe_message := message err;
                                        qe_position := Some (Z.of_nat (position err) + 1)%Z;
                                        qe_hint := hint err; qe_severity := "ERROR";
                                        qe_source := "client" |}) l) =
               map spanOf l).
    { induction l as [|d l IH]; intros Hl; [reflexivity|].
      cbn [map omap list_omap].
      rewrite (decoration_of_diagnostic V query schema d) by (apply Hl; left).
      rewrite IH by (intros d' Hd'; apply Hl; right; exact Hd'). reflexivity. }
    unfold errorDecorations. rewrite Hdec by auto. rewrite !length_map.
    destruct (validateColumns V query schema); reflexivity.
Qed.

(** X20.  After an edit of the query the editor shows the client
    diagnostics: a server error, which takes precedence while it is there,
    does not outlive the text it was reported for. *)
Theorem edit_brings_back_client_diagnostics
        (newValue : string) (e : Editor) (clientErrors : list QueryError) :
  allErrors (queryErrors (handleQueryChange newValue e)) clientErrors = clientErrors.
Proof.
  unfold allErrors, handleQueryChange. cbn [queryErrors].
  destruct (existsb _ (queryErrors e)) eqn:Hserver; [reflexivity|].
  assert (Hnone : filter (fun err => String.eqb (qe_source err) "server")
                         (queryErrors e) = []).
  { induction (queryErrors e) as [|err l IH]; [reflexivity|].
    simpl in Hserver. apply orb_false_iff in Hserver. destruct Hserver as (H1 & H2).
    rewrite filter_cons, H1. destruct (decide _) as [H|_]; [destruct H|].
    apply IH. exact H2. }
  rewrite Hnone. reflexivity.
Qed.

(** X26.  The editor lists at most [MAX_VISIBLE_ERRORS] errors and no
    warning; the errors it lists are the first of those that are no
    warnings, and the count of hidden errors, when it is positive (when it is
    shown), is the number of the others; otherwise there are no others. *)
Theorem listed_and_hidden_errors (errors : list QueryError) :
  let shown := visibleErrors errors in
  let hidden := hiddenErrorCount errors in
  length shown <= MAX_VISIBLE_ERRORS /\
  Forall (fun e => qe_severity e <> "WARNING"%string) shown /\
  exists others,
    displayableErrors errors = shown ++ others /\
    if (0 <? hidden)%Z then Z.of_nat (length others) = hidden else others = [].
Proof.
  intros shown hidden. subst shown hidden. unfold visibleErrors, hiddenErrorCount.
  assert (Hall : Forall (fun e => qe_severity e <> "WARNING"%string)
                        (displayableErrors errors)).
  { apply Forall_forall. intros e He. unfold displayableErrors in He.
    apply list_elem_of_filter in He. destruct He as (He & _).
    intros E. rewrite E in He. exact He. }
  split; [rewrite length_take; lia|].
  split; [apply Forall_take; exact Hall|].
  exists (drop MAX_VISIBLE_ERRORS (displayableErrors errors)).
  split; [symmetry; apply take_drop|].
  destruct (Z.ltb_spec 0 (Z.of_nat (length (displayableErrors errors)) -
                          Z.of_nat MAX_VISIBLE_ERRORS)) as [Hpos|Hneg].
  - rewrite length_drop. lia.
  - apply drop_ge. lia.
Qed.

(** ** The history of queries *)

Lemma trimStartChars_idem l : trimStartChars (trimStartChars l) = trimStartChars l.
Proof.
  induction l as [|c l IH]; [reflexivity|].
  simpl. destruct (isWhiteSpace c) eqn:Hc; [exact IH|].
  simpl. rewrite Hc. reflexivity.
Qed.

Lemma trimStartChars_head l :
  trimStartChars l = [] \/
  exists c l', trimStartChars l = c :: l' /\ isWhiteSpace c = false.
Proof.
  induction l as [|c l IH]; [left; reflexivity|].
  simpl. destruct (isWhiteSpace c) eqn:Hc; [exact IH|].
  right. exists c, l. split; [reflexivity | exact Hc].
Qed.

Lemma trimStartChars_last a c :
  isWhiteSpace c = false -> exists a', trimStartChars (a ++ [c]) = a' ++ [c].
Proof.
  intros Hc. induction a as [|d a IH].
  - exists []. simpl. rewrite Hc. reflexivity.
  - simpl. destruct (isWhiteSpace d); [exact IH|].
    exists (d :: a). reflexivity.
Qed.

Lemma trim_idem s : trim (trim s) = trim s.
Proof.
  unfold trim. rewrite chars_str. f_equal.
  destruct (trimStartChars_head (chars s)) as [E | (c & l' & E & Hc)].
  - rewrite E. reflexivity.
  - rewrite E. cbn [rev].
    destruct (trimStartChars_last (rev l') c Hc) as (a' & Ea).
    rewrite Ea, rev_app_distr. cbn [rev app].
    replace (trimStartChars (c :: rev a')) with (c :: rev a')
      by (simpl; rewrite Hc; reflexivity).
    change (c :: rev a') with (rev [c] ++ rev a') at 1.
    rewrite <- rev_app_distr, rev_involutive, <- Ea, trimStartChars_idem, Ea.
    rewrite rev_app_distr. reflexivity.
Qed.

Lemma historyAt_lookup l i :
  (0 <= i < Z.of_nat (length l))%Z ->
  l !! Z.to_nat i = Some (historyAt l i).
Proof.
  intros Hi. unfold historyAt.
  replace (i <? 0)%Z with false by (symmetry; apply Z.ltb_ge; lia).
  destruct (l !! Z.to_nat i) as [q|] eqn:E; [reflexivity|].
  apply lookup_ge_None in E. lia.
Qed.

(** X21.  The arrow keys keep the index of the history valid and never
    change the history; when they move, the editor shows the entry of the
    history at the new index (the read is in range), or the saved draft when
    the index comes back to -1. *)
Theorem history_navigation_in_range (upArrow downArrow : bool) (e : Editor) :
  historyInvariant e ->
  let e' := historyKeys upArrow downArrow e in
  historyInvariant e' /\ history e' = history e /\
  (e' = e \/
   (historyIndex e' = -1 /\ query e' = draft e)%Z \/
   ((0 <= historyIndex e')%Z /\
    history e !! Z.to_nat (historyIndex e') = Some (query e'))).
Proof.
  intros Hinv e'. subst e'. unfold historyKeys, historyInvariant in *.
  destruct (isConnected (screen e) && (0 <? length (history e))) eqn:Hguard;
    [|split; [exact Hinv|]; split; [reflexivity | left; reflexivity]].
  apply andb_true_iff in Hguard. destruct Hguard as (_ & Hlen).
  apply Nat.ltb_lt in Hlen.
  destruct upArrow, downArrow;
    repeat match goal with
           | |- context [(?a =? ?b)%Z] =>
               let H := fresh "H" in destruct (Z.eqb_spec a b) as [H|H]
           | |- context [(?a <? ?b)%Z] =>
               let H := fresh "H" in destruct (Z.ltb_spec a b) as [H|H]
           end; cbn [negb historyIndex history query draft];
    try lia;
    (split; [lia|]; split; [reflexivity|]);
    first [ left; reflexivity
          | right; left; split; [reflexivity | reflexivity]
          | right; right; split; [lia | apply historyAt_lookup; lia] ].
Qed.

Lemma keys_off upArrow downArrow e :
  isConnected (screen e) && (0 <? length (history e)) = false ->
  forall n, pressed n upArrow downArrow e = e.
Proof.
  intros Hoff n. induction n as [|n IH]; [reflexivity|].
  simpl. unfold historyKeys at 1. rewrite Hoff. exact IH.
Qed.

Lemma down_in_new_query_mode e :
  historyIndex e = (-1)%Z -> forall n, pressed n false true e = e.
Proof.
  intros Hi n. induction n as [|n IH]; [reflexivity|].
  simpl. unfold historyKeys at 1. rewrite Hi. cbn [Z.eqb negb].
  destruct (_ && _); exact IH.
Qed.

Lemma up_keeps_browsing (screen0 : Screen) errors0 history0 draft0 :
  isConnected screen0 = true -> 0 < length history0 ->
  forall n e1,
    screen e1 = screen0 -> queryErrors e1 = errors0 -> history e1 = history0 ->
    draft e1 = draft0 ->
    (0 <= historyIndex e1 < Z.of_nat (length history0))%Z ->
    let e2 := pressed n true false e1 in
    screen e2 = screen0 /\ queryErrors e2 = errors0 /\ history e2 = history0 /\
    draft e2 = draft0 /\
    (0 <= historyIndex e2 < Z.of_nat (length history0))%Z /\
    (historyIndex e1 - Z.of_nat n <= historyIndex e2)%Z.
Proof.
  intros Hc Hlen n. induction n as [|n IH]; intros e1 Hs Hq Hh Hd Hi e2.
  - subst e2. simpl. repeat split; try assumption; lia.
  - subst e2. cbn [pressed].
    assert (Hstep : let e' := historyKeys true false e1 in
                    screen e' = screen0 /\ queryErrors e' = errors0 /\
                    history e' = history0 /\ draft e' = draft0 /\
                    (0 <= historyIndex e' < Z.of_nat (length history0))%Z /\
                    (historyIndex e1 - 1 <= historyIndex e')%Z).
    { unfold historyKeys. rewrite Hs, Hh, Hc.
      replace (0 <? length history0) with true by (symmetry; apply Nat.ltb_lt; exact Hlen).
      cbn [andb].
      destruct (Z.eqb_spec (historyIndex e1) (-1)) as [E|E]; [lia|].
      destruct (Z.ltb_spec 0 (historyIndex e1)) as [P|P];
        cbn [screen queryErrors history draft historyIndex];
        repeat split; try assumption; lia. }
    destruct Hstep as (Hs' & Hq' & Hh' & Hd' & Hi' & Hstep).
    destruct (IH _ Hs' Hq' Hh' Hd' Hi') as (A & B & C & D & E & F).
    repeat split; try assumption; lia.
Qed.

Lemma down_returns_to_draft (screen0 : Screen) errors0 history0 draft0 :
  isConnected screen0 = true ->
  forall m e1 n,
    screen e1 = screen0 -> queryErrors e1 = errors0 -> history e1 = history0 ->
    draft e1 = draft0 ->
    (0 <= historyIndex e1 < Z.of_nat (length history0))%Z ->
    (Z.of_nat (length history0) - historyIndex e1 <= Z.of_nat m)%Z ->
    m <= n ->
    let e2 := pressed n false true e1 in
    screen e2 = screen0 /\ queryErrors e2 = errors0 /\ history e2 = history0 /\
    query e2 = draft0 /\ historyIndex e2 = (-1)%Z.
Proof.
  intros Hc m. induction m as [|m IH]; intros e1 n Hs Hq Hh Hd Hi Hm Hn e2; [lia|].
  destruct n as [|n]; [lia|]. subst e2. cbn [pressed].
  assert (Hlen : (0 <? length history0) = true) by (apply Nat.ltb_lt; lia).
  destruct (Z.ltb_spec (historyIndex e1) (Z.of_nat (length history0) - 1)) as [P|P].
  - assert (Hstep : historyKeys false true e1 =
                    {| screen := screen0;
                       query := historyAt history0 (historyIndex e1 + 1);
                       queryErrors := errors0; history := history0;
                       historyIndex := (historyIndex e1 + 1)%Z;
                       draft := draft0 |}).
    { unfold historyKeys; rewrite Hs, Hh, Hc, Hlen; cbn [andb].
      destruct (Z.eqb_spec (historyIndex e1) (-1)) as [E|E]; [lia|].
      cbn [negb].
      destruct (Z.ltb_spec (historyIndex e1) (Z.of_nat (length history0) - 1));
        [|lia]. rewrite Hq, Hd. reflexivity. }
    rewrite Hstep. apply IH; cbn [screen queryErrors history draft historyIndex];
      try reflexivity; lia.
  - assert (Hstep : historyKeys false true e1 =
                    {| screen := screen0; query := draft0; queryErrors := errors0;
                       history := history0; historyIndex := (-1)%Z;
                       draft := draft0 |}).
    { unfold historyKeys; rewrite Hs, Hh, Hc, Hlen; cbn [andb].
      destruct (Z.eqb_spec (historyIndex e1) (-1)) as [E|E]; [lia|].
      cbn [negb].
      destruct (Z.ltb_spec (historyIndex e1) (Z.of_nat (length history0) - 1));
        [lia|]. rewrite Hq, Hd. reflexivity. }
    rewrite Hstep, down_in_new_query_mode by reflexivity.
    repeat split.
Qed.

(** X22.  Round trip through the history: from the "new query" mode, going
    up any number of times and then down as many times brings back the text
    that was being typed, with the index at -1 and the history, the screen
    and the errors unchanged. *)
Theorem up_then_down_restores_the_query (n : nat) (e : Editor) :
  historyIndex e = (-1)%Z ->
  let e' := pressed n false true (pressed n true false e) in
  query e' = query e /\ historyIndex e' = (-1)%Z /\ history e' = history e /\
  screen e' = screen e /\ queryErrors e' = queryErrors e.
Proof.
  intros Hi e'. subst e'.
  destruct (isConnected (screen e) && (0 <? length (history e))) eqn:Hguard.
  2:{ rewrite (keys_off true false e Hguard), (keys_off false true e Hguard).
      repeat split. exact Hi. }
  apply andb_true_iff in Hguard. destruct Hguard as (Hc & Hlen).
  destruct n as [|n]; [simpl; repeat split; exact Hi|].
  change (pressed (S n) true false e)
    with (pressed n true false (historyKeys true false e)).
  assert (Hfirst : historyKeys true false e =
                   {| screen := screen e;
                      query := historyAt (history e) (Z.of_nat (length (history e)) - 1);
                      queryErrors := queryErrors e; history := history e;
                      historyIndex := (Z.of_nat (length (history e)) - 1)%Z;
                      draft := query e |}).
  { unfold historyKeys. rewrite Hc, Hlen, Hi. reflexivity. }
  rewrite Hfirst. apply Nat.ltb_lt in Hlen.
  match goal with
  | |- context [pressed n true false ?e1] =>
      destruct (up_keeps_browsing (screen e) (queryErrors e) (history e) (query e)
                                  Hc Hlen n e1)
        as (A & B & C & D & E & F);
        try reflexivity; [cbn [historyIndex history]; lia|]
  end.
  cbn [historyIndex] in F.
  match goal with
  | |- context [pressed (S n) false true ?e2] =>
      destruct (down_returns_to_draft (screen e) (queryErrors e) (history e) (query e)
                                      Hc (S n) e2 (S n))
        as (A' & B' & C' & D' & E');
        try assumption; try lia
  end.
  repeat split; assumption.
Qed.

Lemma noRepeats_snoc l q :
  noRepeats l -> last l <> Some q -> noRepeats (l ++ [q]).
Proof.
  intros Hl Hlast i a b Ha Hb.
  destruct (decide (S i < length l)) as [Hin|Hout].
  - rewrite lookup_app_l in Ha by lia. rewrite lookup_app_l in Hb by lia.
    exact (Hl i a b Ha Hb).
  - assert (Hi : S i = length l).
    { apply lookup_lt_Some in Hb. rewrite length_app in Hb. simpl in Hb. lia. }
    rewrite lookup_app_l in Ha by lia.
    rewrite lookup_app_r, Hi, Nat.sub_diag in Hb by lia.
    simpl in Hb. inversion Hb; subst b; clear Hb.
    intros ->. apply Hlast. rewrite last_lookup.
    replace (Nat.pred (length l)) with i by lia. exact Ha.
Qed.

(** X23.  After a successful query the index of the history is -1, the
    draft is empty and the executed (trimmed) query is the last entry of the
    history; the history stays well formed: no entry is empty or carries
    white space around it, and no entry repeats the one before it.  On a
    blank query the handler returns before any update. *)
Theorem history_stays_well_formed (e : Editor) :
  historyWellFormed e ->
  let e' := querySucceeded e in
  historyWellFormed e' /\
  if truthy (Some (trim (query e)))
  then historyIndex e' = (-1)%Z /\ draft e' = EmptyString /\
       last (history e') = Some (trim (query e))
  else e' = e.
Proof.
  intros (Hinv & Hrep & Hall) e'. subst e'. unfold querySucceeded.
  destruct (truthy (Some (trim (query e)))) eqn:Hblank; cbn [negb];
    [|split; [split; [exact Hinv|]; split; assumption | reflexivity]].
  assert (Hq : trim (query e) <> EmptyString /\ trim (trim (query e)) = trim (query e)).
  { split; [|apply trim_idem]. intros E. rewrite E in Hblank. discriminate. }
  unfold historyWellFormed, historyInvariant. cbn [historyIndex history draft].
  destruct (last (history e)) as [recent|] eqn:Hlast.
  - destruct (String.eqb_spec recent (trim (query e))) as [E|E].
    + repeat split; try assumption; [left; reflexivity | rewrite Hlast, E; reflexivity].
    + repeat split; [left; reflexivity | | | apply last_snoc].
      * apply noRepeats_snoc; [exact Hrep|]. rewrite Hlast. congruence.
      * apply Forall_app. split; [exact Hall|]. constructor; [exact Hq | constructor].
  - repeat split; [left; reflexivity | | | apply last_snoc].
    + apply noRepeats_snoc; [exact Hrep|]. rewrite Hlast. discriminate.
    + apply Forall_app. split; [exact Hall|]. constructor; [exact Hq | constructor].
Qed.

(** X24.  A query that succeeded is the one that the up arrow recalls: back
    in the editor, one press shows the executed (trimmed) query, and the text
    that was in the editor is kept as the draft. *)
Theorem up_recalls_the_executed_query (e : Editor) :
  truthy (Some (trim (query e))) = true ->
  let e' := historyKeys true false (handleBackToQuery (querySucceeded e)) in
  query e' = trim (query e) /\ draft e' = query e /\
  last (history e') = Some (trim (query e)).
Proof.
  intros Hq e'. subst e'. unfold querySucceeded. rewrite Hq. cbn [negb].
  unfold handleBackToQuery. cbn [screen query queryErrors history historyIndex draft].
  set (h := match last (history e) with
            | Some recent => if String.eqb recent (trim (query e)) then history e
                             else (history e ++ [trim (query e)])
            | None => (history e ++ [trim (query e)])
            end).
  assert (Hlast : last h = Some (trim (query e))).
  { subst h. destruct (last (history e)) as [recent|] eqn:Hl.
    - destruct (String.eqb_spec recent (trim (query e))) as [E|E].
      + rewrite Hl, E. reflexivity.
      + apply last_snoc.
    - apply last_snoc. }
  assert (Hlen : 0 < length h).
  { destruct h; [discriminate | simpl; lia]. }
  unfold historyKeys. cbn [screen query queryErrors history historyIndex draft isConnected].
  replace (0 <? length h) with true by (symmetry; apply Nat.ltb_lt; exact Hlen).
  cbn [andb Z.eqb query draft history].
  split; [|split; [reflexivity | exact Hlast]].
  rewrite last_lookup in Hlast.
  unfold historyAt.
  replace (Z.of_nat (length h) - 1 <? 0)%Z with false by (symmetry; apply Z.ltb_ge; lia).
  replace (Z.to_nat (Z.of_nat (length h) - 1)) with (Nat.pred (length h)) by lia.
  rewrite Hlast. reflexivity.
Qed.

(* ===================================================================== *)
(** * The further properties on the sample data *)
(* ===================================================================== *)

Lemma where_tables :
  extractTablesWithAliases sampleVocabulary whereQuery =
  [ {| tableName := "users"; alias := None |} ].
Proof. vm_compute. reflexivity. Qed.

Lemma qualifier_tables :
  extractTablesWithAliases sampleVocabulary unknownQualifierQuery = [ordersAsO].
Proof. vm_compute. reflexivity. Qed.

Lemma qualifier_references :
  extractColumnReferences sampleVocabulary unknownQualifierQuery [ordersAsO] =
  [qualifiedReference].
Proof. vm_compute. reflexivity. Qed.

Lemma sample_tables :
  extractTablesWithAliases sampleVocabulary unknownColumnQuery =
  [ {| tableName := "orders"; alias := None |} ].
Proof. vm_compute. reflexivity. Qed.

Lemma sample_diagnostics :
  validateColumns sampleVocabulary unknownColumnQuery sampleSchema = [bogusDiagnostic].
Proof. vm_compute. reflexivity. Qed.

Lemma unknown_tables_no_diagnostics_witness :
  (forall t, t ∈ extractTablesWithAliases sampleVocabulary whereQuery ->
             tableExistsInSchema (tableName t) sampleSchema = false) /\
  validateColumns sampleVocabulary whereQuery sampleSchema = [].
Proof.
  assert (H : forall t, t ∈ extractTablesWithAliases sampleVocabulary whereQuery ->
                        tableExistsInSchema (tableName t) sampleSchema = false).
  { intros t Ht. rewrite where_tables in Ht.
    apply list_elem_of_singleton in Ht. subst t. reflexivity. }
  split; [exact H|].
  exact (unknown_tables_no_diagnostics sampleVocabulary whereQuery sampleSchema H).
Defined.

Lemma extracted_tables_are_words_witness :
  ordersAsO ∈ extractTablesWithAliases sampleVocabulary unknownQualifierQuery /\
  exists a b,
    wordBetween unknownQualifierQuery a b /\
    tableName ordersAsO = toLowerCase (slice unknownQualifierQuery a b) /\
    forall al, alias ordersAsO = Some al ->
               exists a' b', b < a' /\ wordBetween unknownQualifierQuery a' b' /\
                             al = toLowerCase (slice unknownQualifierQuery a' b').
Proof.
  assert (H : ordersAsO ∈ extractTablesWithAliases sampleVocabulary unknownQualifierQuery).
  { rewrite qualifier_tables. left. }
  split; [exact H|].
  exact (extracted_tables_are_words sampleVocabulary unknownQualifierQuery ordersAsO H).
Defined.

Lemma qualified_reference_diagnostic_witness :
  NoDup (map (fun T => toLowerCase (tbl_name T)) (tables sampleSchema)) /\
  extractColumnReferences sampleVocabulary qualifiedColumnQuery
    (extractTablesWithAliases sampleVocabulary qualifiedColumnQuery) =
  [] ++ bogusOfO :: [] /\
  ref_table bogusOfO = Some "o"%string /\
  buildAliasMap (extractTablesWithAliases sampleVocabulary qualifiedColumnQuery)
    !! "o"%string = Some "orders"%string /\
  mkTable "orders" ["id"; "total"]%string ∈ tables sampleSchema /\
  validateColumns sampleVocabulary qualifiedColumnQuery sampleSchema =
  [ {| message := ("Unknown column " ++ dq ++ "bogus" ++ dq)%string;
       position := 9; endPosition := 14; severity := error;
       hint := Some (dq ++ "bogus" ++ dq ++ " not found in table " ++
                     dq ++ "o" ++ dq)%string |} ].
Proof.
  assert (H0 : NoDup (map (fun T => toLowerCase (tbl_name T)) (tables sampleSchema))).
  { apply (bool_decide_unpack _). vm_compute. exact I. }
  assert (H1 : extractColumnReferences sampleVocabulary qualifiedColumnQuery
                 (extractTablesWithAliases sampleVocabulary qualifiedColumnQuery) =
               [] ++ bogusOfO :: []) by (vm_compute; reflexivity).
  assert (H2 : ref_table bogusOfO = Some "o"%string) by reflexivity.
  assert (H3 : buildAliasMap
                 (extractTablesWithAliases sampleVocabulary qualifiedColumnQuery)
                 !! "o"%string = Some "orders"%string) by (vm_compute; reflexivity).
  assert (H4 : mkTable "orders" ["id"; "total"]%string ∈ tables sampleSchema) by left.
  assert (H5 : toLowerCase (tbl_name (mkTable "orders" ["id"; "total"]%string)) =
               toLowerCase "orders") by reflexivity.
  split; [exact H0|]. split; [exact H1|]. split; [exact H2|]. split; [exact H3|].
  split; [exact H4|].
  rewrite (qualified_reference_diagnostic sampleVocabulary qualifiedColumnQuery
             sampleSchema [] [] bogusOfO "o" "orders" _ H0 H1 H2 H3 H4 H5).
  vm_compute. reflexivity.
Defined.

Lemma diagnostics_well_formed_witness :
  bogusDiagnostic ∈ validateColumns sampleVocabulary unknownColumnQuery sampleSchema /\
  severity bogusDiagnostic = error /\ is_Some (hint bogusDiagnostic) /\
  14 < 19 <= String.length unknownColumnQuery /\
  message bogusDiagnostic =
  ("Unknown column " ++ dq ++ toLowerCase (slice unknownColumnQuery 14 19) ++ dq)%string.
Proof.
  assert (H : bogusDiagnostic ∈
                validateColumns sampleVocabulary unknownColumnQuery sampleSchema).
  { rewrite sample_diagnostics. left. }
  split; [exact H|].
  exact (diagnostics_well_formed sampleVocabulary unknownColumnQuery sampleSchema
           bogusDiagnostic H).
Defined.

Lemma vocabulary_never_reported_witness :
  "WHERE"%string ∈ sampleKeywords ++ sampleFunctions /\
  (forall r, r ∈ extractColumnReferences sampleVocabulary whereQuery [] ->
             toUpperCase (ref_name r) <> toUpperCase "WHERE") /\
  (forall d, d ∈ validateColumns sampleVocabulary whereQuery sampleSchema ->
             toUpperCase (slice whereQuery (position d) (endPosition d)) <>
             toUpperCase "WHERE").
Proof.
  assert (H : "WHERE"%string ∈ sampleKeywords ++ sampleFunctions).
  { apply list_elem_of_In. vm_compute. tauto. }
  split; [exact H|].
  exact (vocabulary_never_reported sampleKeywords sampleFunctions whereQuery []
           sampleSchema "WHERE" H).
Defined.

Lemma table_names_are_not_columns_witness :
  bogusReference ∈ extractColumnReferences sampleVocabulary unknownColumnQuery
                     (extractTablesWithAliases sampleVocabulary unknownColumnQuery) /\
  ref_table bogusReference = None /\
  {| tableName := "orders"; alias := None |} ∈
    extractTablesWithAliases sampleVocabulary unknownColumnQuery /\
  "orders"%string <> ref_name bogusReference /\
  None <> Some (ref_name bogusReference).
Proof.
  assert (H1 : bogusReference ∈
                 extractColumnReferences sampleVocabulary unknownColumnQuery
                   (extractTablesWithAliases sampleVocabulary unknownColumnQuery)).
  { rewrite sample_references. apply elem_of_app. right. left. }
  assert (H2 : ref_table bogusReference = None) by reflexivity.
  assert (H3 : {| tableName := "orders"; alias := None |} ∈
               extractTablesWithAliases sampleVocabulary unknownColumnQuery).
  { rewrite sample_tables. left. }
  split; [exact H1|]. split; [exact H2|]. split; [exact H3|].
  exact (table_names_are_not_columns sampleVocabulary unknownColumnQuery _
           bogusReference _ H1 H2 H3).
Defined.

Lemma references_and_dots_witness :
  qualifiedReference ∈
    extractColumnReferences sampleVocabulary unknownQualifierQuery [ordersAsO] /\
  (is_Some (ref_table qualifiedReference) <->
   exists before, 9 = S before /\
                  chars unknownQualifierQuery !! before = Some "."%char) /\
  (ref_table qualifiedReference = None ->
   chars unknownQualifierQuery !! 11 <> Some "."%char).
Proof.
  assert (H : qualifiedReference ∈
                extractColumnReferences sampleVocabulary unknownQualifierQuery
                  [ordersAsO]).
  { rewrite qualifier_references. left. }
  split; [exact H|].
  exact (references_and_dots sampleVocabulary unknownQualifierQuery [ordersAsO]
           qualifiedReference H).
Defined.

Lemma qualifier_is_the_word_before_the_dot_witness :
  qualifiedReference ∈
    extractColumnReferences sampleVocabulary unknownQualifierQuery [ordersAsO] /\
  ref_table qualifiedReference = Some "x"%string /\
  exists a e dot,
    9 = S dot /\ chars unknownQualifierQuery !! dot = Some "."%char /\
    wordBetween unknownQualifierQuery a e /\ e <= dot /\
    "x"%string = toLowerCase (slice unknownQualifierQuery a e) /\
    (forall p, a = S p -> charIs isWordChar (chars unknownQualifierQuery) p = false) /\
    forall x, e <= x < dot ->
              exists ch, chars unknownQualifierQuery !! x = Some ch /\
                         isWhiteSpace ch = true.
Proof.
  assert (H1 : qualifiedReference ∈
                 extractColumnReferences sampleVocabulary unknownQualifierQuery
                   [ordersAsO]).
  { rewrite qualifier_references. left. }
  assert (H2 : ref_table qualifiedReference = Some "x"%string) by reflexivity.
  split; [exact H1|]. split; [exact H2|].
  exact (qualifier_is_the_word_before_the_dot sampleVocabulary unknownQualifierQuery
           [ordersAsO] qualifiedReference "x" H1 H2).
Defined.

Lemma no_quote_before_is_outside_witness :
  (forall i c, i < 7 -> chars literalQuery !! i = Some c -> isQuote c = false) /\
  isInStringLiteral literalQuery 7 = false.
Proof.
  assert (H : forall i c, i < 7 -> chars literalQuery !! i = Some c ->
                          isQuote c = false).
  { intros i c Hi.
    do 7 (destruct i as [|i]; [intros E; inversion E; reflexivity|]). lia. }
  split; [exact H|].
  exact (no_quote_before_is_outside literalQuery 7 H).
Defined.

Lemma first_literal_is_masked_witness :
  chars literalQuery =
  chars "SELECT " ++ "'"%char :: chars "foo.bar" ++ "'"%char :: chars " FROM t" ++ [] /\
  isInStringLiteral literalQuery (7 + 1 + 4) = true /\
  isInStringLiteral literalQuery (7 + 1 + 7 + 1 + 2) = false.
Proof.
  assert (H : chars literalQuery =
              chars "SELECT " ++ "'"%char :: chars "foo.bar" ++ "'"%char ::
                    chars " FROM t" ++ []) by reflexivity.
  split; [exact H|].
  apply (first_literal_is_masked literalQuery (chars "SELECT ") (chars "foo.bar")
           (chars " FROM t") [] 4 2 H).
  - repeat constructor.
  - repeat constructor.
  - repeat constructor.
  - discriminate.
  - discriminate.
  - simpl. lia.
  - simpl. lia.
Defined.

Lemma unambiguous_key_resolves_witness :
  ordersAsO ∈ [ordersAsO] /\
  alias ordersAsO = Some "o"%string /\
  buildAliasMap [ordersAsO] !! "o"%string = Some "orders"%string.
Proof.
  assert (H1 : ordersAsO ∈ [ordersAsO]) by left.
  assert (H2 : alias ordersAsO = Some "o"%string) by reflexivity.
  split; [exact H1|]. split; [exact H2|].
  apply (unambiguous_key_resolves [ordersAsO] ordersAsO "o" H1).
  - right. split; [exact H2 | discriminate].
  - intros u Hu _. apply list_elem_of_singleton in Hu. subst u. reflexivity.
Defined.

Lemma alias_map_resolves_to_found_tables_witness :
  buildAliasMap (extractTablesWithAliases sampleVocabulary unknownQualifierQuery)
    !! "o"%string = Some "orders"%string /\
  "orders"%string <> EmptyString /\
  exists t, t ∈ extractTablesWithAliases sampleVocabulary unknownQualifierQuery /\
            tableName t = "orders"%string /\
            ("o"%string = "orders"%string \/ alias t = Some "o"%string).
Proof.
  assert (H : buildAliasMap
                (extractTablesWithAliases sampleVocabulary unknownQualifierQuery)
                !! "o"%string = Some "orders"%string) by (vm_compute; reflexivity).
  split; [exact H|].
  exact (alias_map_resolves_to_found_tables sampleVocabulary unknownQualifierQuery
           "o" "orders" H).
Defined.

Lemma loaded_column_is_accepted_witness :
  NoDup (map (fun tr => toLowerCase (tr_table_name tr)) sampleTableRows) /\
  totalRow ∈ sampleColumnRows /\
  cr_table_name totalRow ∈ map tr_table_name sampleTableRows /\
  validateReference [ {| tableName := "orders"; alias := None |} ]
    (assembleSchema sampleKeywords sampleFunctions sampleTableRows sampleColumnRows
                    sampleForeignKeyRows)
    totalReference = None.
Proof.
  assert (H1 : NoDup (map (fun tr => toLowerCase (tr_table_name tr)) sampleTableRows)).
  { apply NoDup_singleton. }
  assert (H2 : totalRow ∈ sampleColumnRows).
  { right. right. left. }
  assert (H3 : cr_table_name totalRow ∈ map tr_table_name sampleTableRows).
  { left. }
  split; [exact H1|]. split; [exact H2|]. split; [exact H3|].
  apply (loaded_column_is_accepted sampleKeywords sampleFunctions sampleTableRows
           sampleColumnRows sampleForeignKeyRows totalRow
           [ {| tableName := "orders"; alias := None |} ] totalReference H1 H2 H3).
  - reflexivity.
  - left. split; [reflexivity|].
    exists {| tableName := "orders"; alias := None |}.
    split; [left | reflexivity].
Defined.

Lemma decorations_lie_in_the_query_witness :
  errorDecorations unknownColumnQuery
    (clientValidationErrors sampleVocabulary unknownColumnQuery (Some sampleSchema)) =
  Some [spanOf bogusDiagnostic] /\
  (0 <= 14 < 19)%Z /\ (19 <= Z.of_nat (String.length unknownColumnQuery))%Z /\
  exists err,
    err ∈ clientValidationErrors sampleVocabulary unknownColumnQuery (Some sampleSchema) /\
    qe_position err = Some (14 + 1)%Z.
Proof.
  assert (H1 : errorDecorations unknownColumnQuery
                 (clientValidationErrors sampleVocabulary unknownColumnQuery
                                         (Some sampleSchema)) =
               Some [spanOf bogusDiagnostic]) by (vm_compute; reflexivity).
  assert (H2 : spanOf bogusDiagnostic ∈ [spanOf bogusDiagnostic]) by left.
  split; [exact H1|].
  exact (decorations_lie_in_the_query unknownColumnQuery _ _ _ H1 H2).
Defined.

Lemma history_navigation_in_range_witness :
  historyInvariant sampleEditor /\
  historyInvariant (historyKeys true false sampleEditor) /\
  history (historyKeys true false sampleEditor) = history sampleEditor.
Proof.
  assert (H : historyInvariant sampleEditor) by (left; reflexivity).
  split; [exact H|].
  destruct (history_navigation_in_range true false sampleEditor H) as (H1 & H2 & _).
  split; [exact H1 | exact H2].
Defined.

Lemma up_then_down_restores_the_query_witness :
  historyIndex sampleEditor = (-1)%Z /\
  query (pressed 3 false true (pressed 3 true false sampleEditor)) =
  query sampleEditor.
Proof.
  assert (H : historyIndex sampleEditor = (-1)%Z) by reflexivity.
  split; [exact H|].
  exact (proj1 (up_then_down_restores_the_query 3 sampleEditor H)).
Defined.

Lemma history_stays_well_formed_witness :
  historyWellFormed browsingEditor /\
  historyWellFormed (querySucceeded browsingEditor) /\
  historyIndex (querySucceeded browsingEditor) = (-1)%Z /\
  draft (querySucceeded browsingEditor) = EmptyString /\
  last (history (querySucceeded browsingEditor)) = Some "SELECT 1"%string.
Proof.
  assert (H : historyWellFormed browsingEditor).
  { split; [right; simpl; lia|]. split.
    - intros i a b Ha Hb.
      do 2 (destruct i as [|i]; [simpl in Ha, Hb; congruence|]). discriminate.
    - repeat constructor; discriminate. }
  split; [exact H|].
  exact (history_stays_well_formed browsingEditor H).
Defined.

Lemma up_recalls_the_executed_query_witness :
  truthy (Some (trim (query sampleEditor))) = true /\
  query (historyKeys true false (handleBackToQuery (querySucceeded sampleEditor))) =
  trim (query sampleEditor).
Proof.
  assert (H : truthy (Some (trim (query sampleEditor))) = true) by reflexivity.
  split; [exact H|].
  exact (proj1 (up_recalls_the_executed_query sampleEditor H)).
Defined.

Lemma column_alias_is_no_reference_witness :
  amountMatch ∈ execAll true columnAliasRegex columnAliasQuery /\
  2 < String.length (group' amountMatch 1) /\
  totalReference ∈ extractColumnReferences sampleVocabulary columnAliasQuery [] /\
  group' amountMatch 1 = slice columnAliasQuery 16 22 /\
  ref_position totalReference <> 16.
Proof.
  assert (H1 : amountMatch ∈ execAll true columnAliasRegex columnAliasQuery).
  { unfold amountMatch.
    destruct (execAll true columnAliasRegex columnAliasQuery) as [|m l] eqn:E;
      [vm_compute in E; discriminate | left]. }
  assert (H2 : 2 < String.length (group' amountMatch 1)) by (vm_compute; lia).
  assert (H3 : totalReference ∈
               extractColumnReferences sampleVocabulary columnAliasQuery []).
  { replace (extractColumnReferences sampleVocabulary columnAliasQuery [])
      with [totalReference] by (vm_compute; reflexivity). left. }
  split; [exact H1|]. split; [exact H2|]. split; [exact H3|].
  exact (column_alias_is_no_reference sampleVocabulary columnAliasQuery []
           amountMatch totalReference H1 H2 H3).
Defined.

(** The alias [s] after [as] is a piece of the [as] before it: it is
    reported. *)
Example short_column_alias_reported :
  validateColumns sampleVocabulary shortAliasQuery sampleSchema =
  [ {| message := ("Unknown column " ++ dq ++ "s" ++ dq)%string;
       position := 16; endPosition := 17; severity := error;
       hint := Some (dq ++ "s" ++ dq ++ " not found in table: orders")%string |} ].
Proof. vm_compute. reflexivity. Qed.

(* ===================================================================== *)
(** * Properties of the connection URL *)
(* ===================================================================== *)

Lemma chars_append s1 s2 : chars (s1 ++ s2)%string = chars s1 ++ chars s2.
Proof. induction s1 as [|c s1 IH]; simpl; [reflexivity | f_equal; exact IH]. Qed.

Lemma chars_inj s1 s2 : chars s1 = chars s2 -> s1 = s2.
Proof. intros H. rewrite <- (str_chars s1), <- (str_chars s2), H. reflexivity. Qed.

Lemma chars_not_empty s : s <> EmptyString <-> chars s <> [].
Proof.
  split; intros H E; apply H.
  - apply chars_inj. exact E.
  - rewrite E. reflexivity.
Qed.

Lemma drop_cut {A : Type} (l : list A) a b :
  a <= b -> drop a l = take (b - a) (drop a l) ++ drop b l.
Proof.
  intros Hab. replace (drop b l) with (drop (b - a) (drop a l)).
  - symmetry. apply take_drop.
  - rewrite drop_drop. f_equal. lia.
Qed.

(** A list cut at two separators. *)
Lemma cut_at_separators (l : list ascii) a b d c1 c2 :
  a <= b -> S b <= d -> l !! b = Some c1 -> l !! d = Some c2 ->
  l = take a l ++ sliceChars l a b ++ c1 :: sliceChars l (S b) d ++
           c2 :: sliceChars l (S d) (length l).
Proof.
  intros Hab Hbd Hb Hd. unfold sliceChars.
  rewrite (take_ge (drop (S d) l)) by (rewrite length_drop; lia).
  rewrite <- (drop_S l c2 d Hd), <- (drop_cut l (S b) d Hbd).
  rewrite <- (drop_S l c1 b Hb), <- (drop_cut l a b Hab).
  symmetry. apply take_drop.
Qed.

Lemma sliceChars_middle (pre run post : list ascii) :
  sliceChars (pre ++ run ++ post) (length pre) (length pre + length run) = run.
Proof.
  unfold sliceChars. rewrite drop_app_length.
  replace (length pre + length run - length pre) with (length run) by lia.
  apply take_app_length.
Qed.

Lemma run_of_slice (p : ascii -> bool) (l : list ascii) a b :
  (forall x, a <= x < b -> exists ch, l !! x = Some ch /\ p ch = true) ->
  Forall (fun ch => p ch = true) (sliceChars l a b).
Proof.
  intros Hrun. apply Forall_lookup. intros n ch Hn.
  assert (Hlt : n < b - a).
  { apply lookup_lt_Some in Hn. unfold sliceChars in Hn.
    rewrite length_take in Hn. lia. }
  rewrite sliceChars_lookup in Hn by exact Hlt.
  destruct (Hrun (a + n) ltac:(lia)) as (ch' & Hch & Hp).
  rewrite Hch in Hn. inversion Hn; subst ch'. exact Hp.
Qed.

(** The matcher on a literal that is there, and on a run of characters of a
    class that ends where the class does. *)
Lemma lit_matches input l :
  forall i c k res,
    (forall n ch, l !! n = Some ch -> input !! (i + n) = Some ch) ->
    k (i + length l) c = Some res ->
    matcher false input (lit l) i c k = Some res.
Proof.
  induction l as [|a l IH]; intros i c k res Hl Hk.
  - simpl. rewrite Nat.add_0_r in Hk. exact Hk.
  - assert (Ha : input !! i = Some a).
    { specialize (Hl 0 a eq_refl). rewrite Nat.add_0_r in Hl. exact Hl. }
    destruct l as [|b l].
    + cbn [lit matcher canonicalize]. rewrite Ha, Ascii.eqb_refl.
      simpl in Hk. replace (S i) with (i + 1) by lia. exact Hk.
    + change (lit (a :: b :: l)) with (Seq (Chr a) (lit (b :: l))).
      cbn [matcher canonicalize]. rewrite Ha, Ascii.eqb_refl. apply IH.
      * intros n ch Hn. replace (S i + n) with (i + S n) by lia. apply Hl. exact Hn.
      * replace (S i + length (b :: l)) with (i + length (a :: b :: l))
          by (simpl; lia).
        exact Hk.
Qed.

Lemma plus_class_run ignoreCase (p : ascii -> bool) (input pre run post : list ascii)
      i c k res :
  input = pre ++ run ++ post -> i = length pre ->
  run <> [] -> Forall (fun d => p d = true) run ->
  match post with [] => True | d :: _ => p d = false end ->
  k (i + length run) c = Some res ->
  matcher ignoreCase input (Plus (Cls p)) i c k = Some res.
Proof.
  intros -> -> Hne Hrun Hpost Hk.
  destruct run as [|r0 run]; [contradiction|].
  assert (Hlook : forall x, length pre <= x < length pre + S (length run) ->
                            exists d, (pre ++ (r0 :: run) ++ post) !! x = Some d /\
                                      p d = true).
  { intros x Hx. rewrite lookup_app_r by lia.
    rewrite lookup_app_l by (simpl; lia).
    destruct ((r0 :: run) !! (x - length pre)) as [d|] eqn:Hd.
    - exists d. split; [reflexivity|].
      rewrite Forall_lookup in Hrun. exact (Hrun _ _ Hd).
    - apply lookup_ge_None in Hd. simpl in Hd. lia. }
  unfold Plus. cbn [matcher].
  destruct (Hlook (length pre) ltac:(lia)) as (d & Hd & Hp). rewrite Hd, Hp.
  apply (star_class_greedy ignoreCase _ p (length run)).
  - intros x Hx. apply Hlook. lia.
  - unfold charIs. rewrite lookup_app_r by lia.
    rewrite lookup_app_r by (simpl; lia).
    replace (S (length pre) + length run - length pre - length (r0 :: run)) with 0
      by (simpl; lia).
    destruct post as [|d' post]; [reflexivity | exact Hpost].
  - simpl in Hk. replace (S (length pre) + length run)
      with (length pre + S (length run)) by lia. exact Hk.
Qed.

Lemma jdbc_matcher (H T D : list ascii) :
  H <> [] -> Forall (fun c => isColon c = false) H ->
  T <> [] -> Forall (fun c => isDigit c = true) T ->
  D <> [] -> Forall (fun c => isLineTerminator c = false) D ->
  let P := chars "jdbc:postgresql://" in
  let input := P ++ H ++ ":"%char :: T ++ "/"%char :: D in
  let b := 18 + length H in
  let d := S b + length T in
  matcher false input jdbcUrlRegex 0 ∅ accept =
  Some (length input,
        <[3 := (S d, length input)]> (<[2 := (S b, d)]> (<[1 := (18, b)]> ∅))).
Proof.
  intros HH HHc HT HTd HD HDl P input b d.
  assert (Hlen : length input = S d + length D).
  { subst input d b P. rewrite !length_app. simpl. rewrite !length_app. simpl. lia. }
  unfold jdbcUrlRegex, word. cbn [cat]. cbn [matcher Nat.eqb].
  apply lit_matches.
  { intros n ch Hn. subst input. simpl "+". apply lookup_app_l_Some. exact Hn. }
  cbv beta.
  apply (plus_class_run false _ input P H (":"%char :: T ++ "/"%char :: D));
    [reflexivity | reflexivity | exact HH | | reflexivity |].
  { eapply Forall_impl; [exact HHc|]. intros c Hc. simpl. rewrite Hc. reflexivity. }
  cbv beta.
  assert (Hcolon : input !! b = Some ":"%char).
  { subst input b. rewrite lookup_app_r by (simpl; lia).
    rewrite lookup_app_r by (simpl; lia).
    replace (18 + length H - length P - length H) with 0 by (simpl; lia).
    reflexivity. }
  change (0 + length (chars "jdbc:postgresql://") + length H) with b.
  change (0 + length (chars "jdbc:postgresql://")) with 18.
  cbn [canonicalize]. rewrite Hcolon, Ascii.eqb_refl.
  apply (plus_class_run false _ input (P ++ H ++ [":"%char]) T ("/"%char :: D)).
  - subst input. rewrite <- !app_assoc. reflexivity.
  - subst b. rewrite !length_app. simpl. lia.
  - exact HT.
  - exact HTd.
  - reflexivity.
  - cbv beta. change (S b + length T) with d.
    assert (Hslash : input !! d = Some "/"%char).
    { subst input d b. rewrite lookup_app_r by (simpl; lia).
      rewrite lookup_app_r by (simpl; lia).
      replace (S (18 + length H) + length T - length P - length H)
        with (S (length T)) by (simpl; lia).
      simpl. rewrite lookup_app_r by lia.
      rewrite Nat.sub_diag. reflexivity. }
    rewrite Hslash, Ascii.eqb_refl.
    apply (plus_class_run false _ input (P ++ H ++ ":"%char :: T ++ ["/"%char]) D []).
    + subst input. rewrite app_nil_r, <- !app_assoc. simpl.
      rewrite <- !app_assoc. reflexivity.
    + subst d b. rewrite !length_app. simpl. rewrite !length_app. simpl. lia.
    + exact HD.
    + eapply Forall_impl; [exact HDl|]. intros c Hc. simpl. rewrite Hc. reflexivity.
    + exact I.
    + cbv beta. rewrite <- Hlen, Nat.eqb_refl. reflexivity.
Qed.

Lemma parseJdbcUrl_accepts (hostName portText databaseName : string) :
  hostName <> EmptyString ->
  Forall (fun c => isColon c = false) (chars hostName) ->
  portText <> EmptyString ->
  Forall (fun c => isDigit c = true) (chars portText) ->
  databaseName <> EmptyString ->
  Forall (fun c => isLineTerminator c = false) (chars databaseName) ->
  parseJdbcUrl ("jdbc:postgresql://" ++ hostName ++ ":" ++ portText ++ "/" ++
                databaseName)%string =
  Some {| host := hostName; port := parseInt portText; database := databaseName |}.
Proof.
  intros Hh Hhc Hp Hpd Hd Hdl.
  apply chars_not_empty in Hh, Hp, Hd.
  assert (Hm := jdbc_matcher (chars hostName) (chars portText) (chars databaseName)
                             Hh Hhc Hp Hpd Hd Hdl).
  cbv zeta in Hm.
  unfold parseJdbcUrl, matchOnce, exec.
  rewrite !chars_append.
  change (chars ":" ++ ?l) with (":"%char :: l).
  change (chars "/" ++ ?l) with ("/"%char :: l).
  rewrite (proj2 (Nat.leb_le 0 _)) by lia.
  match goal with
  | |- context [search _ _ _ ?fuel 0] =>
      assert (Hs : search false jdbcUrlRegex
                     (chars "jdbc:postgresql://" ++ chars hostName ++
                      ":"%char :: chars portText ++ "/"%char :: chars databaseName)
                     fuel 0 =
                   Some (mkMatch _ 0 _ _))
        by (destruct fuel; cbn [search]; rewrite Hm; reflexivity);
        rewrite Hs
  end.
  unfold group', group. cbn [captures subject].
  rewrite lookup_insert_ne, lookup_insert_ne, lookup_insert_eq by discriminate.
  rewrite lookup_insert_ne, lookup_insert_eq by discriminate.
  rewrite lookup_insert_eq. cbn [default from_option id].
  f_equal. f_equal.
  - apply chars_inj. rewrite chars_str.
    apply (sliceChars_middle (chars "jdbc:postgresql://") (chars hostName)).
  - f_equal. apply chars_inj. rewrite chars_str.
    replace (chars "jdbc:postgresql://" ++ chars hostName ++
             ":"%char :: chars portText ++ "/"%char :: chars databaseName)
      with ((chars "jdbc:postgresql://" ++ chars hostName ++ [":"%char]) ++
            chars portText ++ "/"%char :: chars databaseName)
      by (rewrite <- !app_assoc; reflexivity).
    replace (S (18 + length (chars hostName)))
      with (length (chars "jdbc:postgresql://" ++ chars hostName ++ [":"%char]))
      by (rewrite !length_app; simpl; lia).
    apply sliceChars_middle.
  - apply chars_inj. rewrite chars_str.
    unfold sliceChars.
    replace (chars "jdbc:postgresql://" ++ chars hostName ++
             ":"%char :: chars portText ++ "/"%char :: chars databaseName)
      with ((chars "jdbc:postgresql://" ++ chars hostName ++
             ":"%char :: chars portText ++ ["/"%char]) ++ chars databaseName)
      by (rewrite <- !app_assoc; simpl; rewrite <- !app_assoc; reflexivity).
    replace (S (S (18 + length (chars hostName)) + length (chars portText)))
      with (length (chars "jdbc:postgresql://" ++ chars hostName ++
                    ":"%char :: chars portText ++ ["/"%char]))
      by (rewrite !length_app; simpl; rewrite !length_app; simpl; lia).
    rewrite drop_app_length. apply take_ge. rewrite length_app. lia.
Qed.

Lemma negb_class (p : ascii -> bool) (l : list ascii) a b :
  (forall x, a <= x < b -> exists ch, l !! x = Some ch /\ negb (p ch) = true) ->
  Forall (fun ch => p ch = false) (sliceChars l a b).
Proof.
  intros Hrun. apply (run_of_slice (fun ch => negb (p ch))) in Hrun.
  eapply Forall_impl; [exact Hrun|]. intros ch Hch. simpl in Hch.
  apply negb_true_iff. exact Hch.
Qed.

Lemma parseJdbcUrl_shape (url : string) (config : ConnectionConfig) :
  parseJdbcUrl url = Some config ->
  exists portText,
    url = ("jdbc:postgresql://" ++ host config ++ ":" ++ portText ++ "/" ++
           database config)%string /\
    host config <> EmptyString /\
    Forall (fun c => isColon c = false) (chars (host config)) /\
    portText <> EmptyString /\
    Forall (fun c => isDigit c = true) (chars portText) /\
    port config = parseInt portText /\
    database config <> EmptyString /\
    Forall (fun c => isLineTerminator c = false) (chars (database config)).
Proof.
  unfold parseJdbcUrl, matchOnce.
  destruct (exec false jdbcUrlRegex (chars url) 0) as [m|] eqn:Hm; [|discriminate].
  intros E. inversion E; subst config; clear E. cbn [host port database].
  apply exec_sound in Hm. destruct Hm as ((Hsub & H) & _).
  destruct H as (i0 & c0 & (Hi & -> & ->) &
                 (i1 & c1 & Hlit &
                  (b & c2 & (c2' & Hhost & ->) &
                   (i3 & c3 & (colon & Hcolon & Hceq & -> & ->) &
                    (d & c4 & (c4' & Hport & ->) &
                     (i5 & c5 & (slash & Hslash & Hseq & -> & ->) &
                      (e & c6 & (c6' & Hdb & ->) & (He & Hstop & Hcaps)))))))).
  unfold word in Hlit. apply Matches_lit in Hlit. destruct Hlit as (-> & -> & Hpre).
  apply Matches_plus_class in Hhost. destruct Hhost as (-> & Hb & Hhost).
  apply Matches_plus_class in Hport. destruct Hport as (-> & Hd & Hport).
  apply Matches_plus_class in Hdb. destruct Hdb as (-> & Hlt & Hdb).
  cbn [canonicalize] in Hceq, Hseq. subst colon slash.
  rewrite Hi in *. change (0 + length (chars "jdbc:postgresql://")) with 18 in *.
  assert (Hprefix : take 18 (chars url) = chars "jdbc:postgresql://").
  { apply list_eq. intros n. destruct (decide (n < 18)) as [Hn|Hn].
    - rewrite lookup_take_lt by exact Hn.
      destruct (chars "jdbc:postgresql://" !! n) as [ch|] eqn:Hch.
      + destruct (Hpre n ch Hch) as (d' & Hd' & Hcan). cbn [canonicalize] in Hcan.
        subst d'. exact Hd'.
      + apply lookup_ge_None in Hch. simpl in Hch. lia.
    - rewrite lookup_take_ge by lia. symmetry. apply lookup_ge_None. simpl. lia. }
  assert (G1 : captures m !! 1 = Some (18, b)).
  { rewrite Hcaps, !lookup_insert_ne by discriminate. apply lookup_insert_eq. }
  assert (G2 : captures m !! 2 = Some (S b, d)).
  { rewrite Hcaps, lookup_insert_ne by discriminate. apply lookup_insert_eq. }
  assert (G3 : captures m !! 3 = Some (S d, e)).
  { rewrite Hcaps. apply lookup_insert_eq. }
  unfold group', group. rewrite G1, G2, G3, Hsub. cbn [default from_option id].
  exists (str (sliceChars (chars url) (S b) d)).
  assert (Hne : forall a z, a < z -> z <= length (chars url) ->
                            str (sliceChars (chars url) a z) <> EmptyString).
  { intros a z Haz Hz E. apply (f_equal String.length) in E.
    rewrite length_str, length_sliceChars in E by lia. simpl in E. lia. }
  assert (Hdlen : d < length (chars url)) by (eapply lookup_lt_Some; eauto).
  split; [|rewrite !chars_str; repeat split].
  - apply chars_inj. rewrite !chars_append, !chars_str.
    change (chars ":" ++ ?l) with (":"%char :: l).
    change (chars "/" ++ ?l) with ("/"%char :: l).
    rewrite <- Hprefix, He.
    apply cut_at_separators; [lia | lia | exact Hcolon | exact Hslash].
  - apply Hne; lia.
  - apply negb_class. exact Hhost.
  - apply Hne; lia.
  - apply run_of_slice. exact Hport.
  - apply Hne; lia.
  - apply negb_class. exact Hdb.
Qed.

(** X25.  [parseJdbcUrl] accepts exactly the strings
    [jdbc:postgresql://host:port/database] with a non-empty host without
    colon, a non-empty port of decimal digits, and a non-empty database on
    one line; it returns these three parts, the port as the number that
    [parseInt] makes of its digits: the integer they denote when it is below
    2^53. *)
Theorem parseJdbcUrl_accepts_exactly (url : string) (config : ConnectionConfig) :
  parseJdbcUrl url = Some config <->
  exists portText,
    url = ("jdbc:postgresql://" ++ host config ++ ":" ++ portText ++ "/" ++
           database config)%string /\
    host config <> EmptyString /\
    Forall (fun c => isColon c = false) (chars (host config)) /\
    portText <> EmptyString /\
    Forall (fun c => isDigit c = true) (chars portText) /\
    port config = parseInt portText /\
    database config <> EmptyString /\
    Forall (fun c => isLineTerminator c = false) (chars (database config)).
Proof.
  split; [apply parseJdbcUrl_shape|].
  intros (portText & -> & Hh & Hhc & Hp & Hpd & Hport & Hd & Hdl).
  rewrite (parseJdbcUrl_accepts _ _ _ Hh Hhc Hp Hpd Hd Hdl), <- Hport.
  destruct config; reflexivity.
Qed.

Example parseJdbcUrl_localhost :
  parseJdbcUrl "jdbc:postgresql://localhost:5432/postgres" =
  Some {| host := "localhost"; port := integer 5432; database := "postgres" |}.
Proof. vm_compute. reflexivity. Qed.

(** The digits of 2^53 + 1 do not denote a number. *)
Example parseJdbcUrl_rounded_port :
  parseJdbcUrl "jdbc:postgresql://localhost:9007199254740993/postgres" =
  Some {| host := "localhost"; port := atLeast2p53; database := "postgres" |}.
Proof. vm_compute. reflexivity. Qed.

Example parseJdbcUrl_without_port :
  parseJdbcUrl "jdbc:postgresql://localhost/postgres" = None.
Proof. vm_compute. reflexivity. Qed.
